(** * argusSyS speed-test controller: a shallow embedding of [speedtest-api.js]

    The development follows the source file top-down: the numeric helpers,
    the rate-limit policy, the JSON salvage parser and the controller
    created by [createSpeedtestController]; then the parsing of results,
    the detection of the runner and [runSpeedtest].

    Conventions of the embedding.
    - A JavaScript string is the list of its UTF-16 code units ([jsstr]).
    - A JavaScript number is [jsnum]: a finite value carried as an exact
      rational, the two infinities, or NaN.  Binary64 rounding, overflow
      and underflow are not modelled.
    - Millisecond timestamps, the interval in minutes and the rate-limit
      counter are integers ([Z]); each call of [nowMs()] in the source is
      an explicit argument of the embedded function.
    - [writeState] only writes the state file and swallows every failure;
      no function reads the file back after start-up, so disk writes are
      left out of the controller state.
    - The processes that the module spawns are a parameter ([Host]): what
      each command resolves with.  An exception is a value ([exc]). *)

From Stdlib Require Import String Ascii DecimalString.
From Stdlib Require Import ZArith QArith Qround Bool Lia List Sorted.
Import ListNotations.

Local Open Scope Z_scope.

(* ================================================================== *)
(** ** JavaScript values                                               *)
(* ================================================================== *)

Definition jsstr := list N.

(** The code units of an ASCII literal of the source. *)
Definition lit (s : string) : jsstr := map N_of_ascii (list_ascii_of_string s).

Definition ch (a : ascii) : N := N_of_ascii a.

(** Text written with apostrophes in place of double quotes, for
    readable JSON samples. *)
Definition txt (s : string) : jsstr :=
  map (fun c => if (c =? 39)%N then 34%N else c) (lit s).

Fixpoint jsstr_eqb (a b : jsstr) : bool :=
  match a, b with
  | [], [] => true
  | x :: a', y :: b' => N.eqb x y && jsstr_eqb a' b'
  | _, _ => false
  end.

Inductive jsnum :=
| JFin (q : Q)
| JPosInf
| JNegInf
| JNaN.

(** Primitive values that reach the numeric helpers. *)
Inductive jsval :=
| VUndefined
| VNull
| VBool (b : bool)
| VNum (n : jsnum)
| VStr (s : jsstr).

Definition Number_isFinite (n : jsnum) : bool :=
  match n with JFin _ => true | _ => false end.

(** [!!n] for a number: neither zero nor NaN. *)
Definition num_truthy (n : jsnum) : bool :=
  match n with
  | JFin q => negb (Qeq_bool q 0)
  | JPosInf | JNegInf => true
  | JNaN => false
  end.

(** [a <= b] on numbers; every comparison with NaN is false. *)
Definition num_leb (a b : jsnum) : bool :=
  match a, b with
  | JNaN, _ | _, JNaN => false
  | JNegInf, _ => true
  | _, JPosInf => true
  | JFin p, JFin q => Qle_bool p q
  | _, _ => false
  end.

(** [a > b] on numbers. *)
Definition num_gtb (a b : jsnum) : bool :=
  match a, b with
  | JFin p, JFin q => negb (Qle_bool p q)
  | JPosInf, (JFin _ | JNegInf) => true
  | JFin _, JNegInf => true
  | _, _ => false
  end.

(** [a !== b] on numbers. *)
Definition num_sne (a b : jsnum) : bool :=
  match a, b with
  | JFin p, JFin q => negb (Qeq_bool p q)
  | JPosInf, JPosInf => false
  | JNegInf, JNegInf => false
  | _, _ => true
  end.

(* ------------------------------------------------------------------ *)
(** *** White space and [String.prototype.trim]                         *)

(** WhiteSpace and LineTerminator code units of ECMAScript. *)
Definition isWhiteSpace (c : N) : bool :=
  ((9 <=? c) && (c <=? 13) || (c =? 32) || (c =? 160) || (c =? 5760)
   || (8192 <=? c) && (c <=? 8202) || (c =? 8232) || (c =? 8233)
   || (c =? 8239) || (c =? 8287) || (c =? 12288) || (c =? 65279))%N.

Fixpoint trimStart (s : jsstr) : jsstr :=
  match s with
  | c :: s' => if isWhiteSpace c then trimStart s' else s
  | [] => []
  end.

Definition trimEnd (s : jsstr) : jsstr := rev (trimStart (rev s)).

Definition trim (s : jsstr) : jsstr := trimEnd (trimStart s).

(* ------------------------------------------------------------------ *)
(** *** Decimal digits                                                  *)

Definition isDigit (c : N) : bool := ((48 <=? c) && (c <=? 57))%N.

Definition digitVal (c : N) : Z := Z.of_N c - 48.

(** Longest prefix of [s] whose code units satisfy [p], and the rest. *)
Fixpoint span (p : N -> bool) (s : jsstr) : jsstr * jsstr :=
  match s with
  | c :: s' =>
      if p c then let '(a, b) := span p s' in (c :: a, b) else ([], s)
  | [] => ([], [])
  end.

Definition digitsVal (ds : jsstr) : Z :=
  fold_left (fun acc c => 10 * acc + digitVal c) ds 0.

(** [m * 10^e] as a rational. *)
Definition scale10 (m e : Z) : Q :=
  if 0 <=? e then inject_Z (m * 10 ^ e)
  else Qmake m (Z.to_pos (10 ^ (- e))).

(** Optional sign: [(negative, rest)]. *)
Definition takeSign (allowPlus : bool) (s : jsstr) : bool * jsstr :=
  match s with
  | c :: s' =>
      if (c =? ch "-")%N then (true, s')
      else if allowPlus && (c =? ch "+")%N then (false, s')
      else (false, s)
  | [] => (false, [])
  end.

(** Optional exponent part [[eE][+-]?digits]: the exponent and the rest;
    [None] when an [e] is not followed by digits. *)
Definition takeExponent (s : jsstr) : option (Z * jsstr) :=
  match s with
  | c :: s' =>
      if ((c =? ch "e") || (c =? ch "E"))%N then
        let '(neg, s1) := takeSign true s' in
        let '(ds, s2) := span isDigit s1 in
        match ds with
        | [] => None
        | _ => Some (if neg then - digitsVal ds else digitsVal ds, s2)
        end
      else Some (0, s)
  | [] => Some (0, [])
  end.

(* ------------------------------------------------------------------ *)
(** *** [Number(v)]                                                     *)

Definition isHexDigit (c : N) : bool :=
  (isDigit c || (97 <=? c) && (c <=? 102) || (65 <=? c) && (c <=? 70))%N.

Definition hexVal (c : N) : Z :=
  (if isDigit c then Z.of_N c - 48
   else if (97 <=? c)%N then Z.of_N c - 87
   else Z.of_N c - 55).

Definition radixVal (radix : Z) (ds : jsstr) : Z :=
  fold_left (fun acc c => radix * acc + hexVal c) ds 0.

Definition isOctDigit (c : N) : bool := ((48 <=? c) && (c <=? 55))%N.
Definition isBinDigit (c : N) : bool := ((48 <=? c) && (c <=? 49))%N.

Definition isEmpty (s : jsstr) : bool :=
  match s with [] => true | _ => false end.

(** StrDecimalLiteral: an optional sign followed by [Infinity], by
    digits with an optional fraction and exponent, or by a dot, digits
    and an optional exponent; anything else is NaN. *)
Definition strDecimalLiteral (s : jsstr) : jsnum :=
  let '(neg, s1) := takeSign true s in
  let signed (q : Q) := JFin (if neg then Qopp q else q) in
  if jsstr_eqb s1 (lit "Infinity") then (if neg then JNegInf else JPosInf)
  else
    let '(ip, s2) := span isDigit s1 in
    match s2 with
    | c :: s3 =>
        if (c =? ch ".")%N then
          let '(fp, s4) := span isDigit s3 in
          if isEmpty ip && isEmpty fp then JNaN
          else
            match takeExponent s4 with
            | Some (e, []) =>
                signed (scale10 (digitsVal (ip ++ fp))
                                (e - Z.of_nat (length fp)))
            | _ => JNaN
            end
        else if isEmpty ip then JNaN
        else
          match takeExponent s2 with
          | Some (e, []) => signed (scale10 (digitsVal ip) e)
          | _ => JNaN
          end
    | [] => if isEmpty ip then JNaN else signed (inject_Z (digitsVal ip))
    end.

(** [0x], [0o] and [0b] integer literals (no sign allowed). *)
Definition strNonDecimalLiteral (s : jsstr) : option jsnum :=
  match s with
  | c0 :: c1 :: ds =>
      if (c0 =? ch "0")%N then
        let lit_of (ok : N -> bool) (radix : Z) :=
          if negb (isEmpty ds) && forallb ok ds
          then JFin (inject_Z (radixVal radix ds)) else JNaN in
        if ((c1 =? ch "x") || (c1 =? ch "X"))%N then Some (lit_of isHexDigit 16)
        else if ((c1 =? ch "o") || (c1 =? ch "O"))%N then Some (lit_of isOctDigit 8)
        else if ((c1 =? ch "b") || (c1 =? ch "B"))%N then Some (lit_of isBinDigit 2)
        else None
      else None
  | _ => None
  end.

(** StringToNumber of ECMAScript: surrounding white space is ignored and
    the empty string is 0. *)
Definition StringToNumber (str : jsstr) : jsnum :=
  let s := trim str in
  if isEmpty s then JFin 0
  else
    match strNonDecimalLiteral s with
    | Some n => n
    | None => strDecimalLiteral s
    end.

Definition Number (v : jsval) : jsnum :=
  match v with
  | VUndefined => JNaN
  | VNull => JFin 0
  | VBool b => JFin (if b then 1 else 0)
  | VNum n => n
  | VStr s => StringToNumber s
  end.

(** Decimal rendering of a non-negative integer, as [String(n)] gives. *)
Definition decimalOf (n : Z) : jsstr :=
  lit (NilZero.string_of_uint (N.to_uint (Z.to_N n))).

(* ================================================================== *)
(** ** Utils                                                           *)
(* ================================================================== *)

(** [clampInt(n, min, max)]: invalid input gives [min]. *)
Definition clampInt (n : jsval) (min max : Z) : Z :=
  match Number n with
  | JFin x => Z.max min (Z.min max (Qfloor x))
  | _ => min
  end.

(* ================================================================== *)
(** ** Rate limit handling                                             *)
(* ================================================================== *)

Definition backoffSteps : list Z :=
  [30 * 60 * 1000;
   60 * 60 * 1000;
   2 * 60 * 60 * 1000;
   4 * 60 * 60 * 1000;
   6 * 60 * 60 * 1000].

(** [computeRateLimitBackoffMs(count)]; the count starts at 1.
    [Number(count) || 1] replaces 0 and NaN by 1; an infinite count
    selects the first or the last step. *)
Definition computeRateLimitBackoffMs (count : jsnum) : Z :=
  let idx :=
    match (if num_truthy count then count else JFin 1) with
    | JFin q =>
        let c := Z.max 1 (Qfloor q) in
        Z.min (Z.of_nat (length backoffSteps) - 1) (c - 1)
    | JPosInf => Z.of_nat (length backoffSteps) - 1
    | JNegInf | JNaN => 0
    end in
  nth (Z.to_nat idx) backoffSteps 0.

(** [fmtMin(ms)]: minutes rounded up, followed by [m]. *)
Definition fmtMin (ms : Z) : jsstr :=
  let m := Qceiling (inject_Z (Z.max 0 ms) / 60000) in
  decimalOf m ++ lit "m".

Definition HISTORY_24H_MS : Z := 24 * 60 * 60 * 1000.

(* ================================================================== *)
(** ** JSON values and [JSON.parse]                                    *)
(* ================================================================== *)

(** A parsed JSON document.  An object keeps its members in insertion
    order with unique keys; a number is its exact value. *)
#[warnings="-register-all"]
Inductive json :=
| JNull
| JBool (b : bool)
| JNum (q : Q)
| JStr (s : jsstr)
| JArr (items : list json)
| JObj (members : list (jsstr * json)).

Definition QUOTE : N := 34.
Definition BACKSLASH : N := 92.
Definition LBRACE : N := ch "{".
Definition RBRACE : N := ch "}".
Definition LBRACKET : N := ch "[".
Definition RBRACKET : N := ch "]".
Definition COMMA : N := ch ",".
Definition COLON : N := ch ":".

(** JSON white space: tab, line feed, carriage return, space. *)
Definition isJsonWs (c : N) : bool :=
  ((c =? 9) || (c =? 10) || (c =? 13) || (c =? 32))%N.

Fixpoint skipWs (s : jsstr) : jsstr :=
  match s with
  | c :: s' => if isJsonWs c then skipWs s' else s
  | [] => []
  end.

(** State of the string reader: plain text, just after a backslash, or
    inside a [\u] escape with [k] hex digits still to read. *)
Inductive strState :=
| SNormal
| SEscape
| SHex (k : nat) (acc : N).

(** Reads a JSON string after its opening quote: the decoded code units
    and the text after the closing quote. *)
Fixpoint parseString (st : strState) (acc : jsstr) (s : jsstr)
  : option (jsstr * jsstr) :=
  match s with
  | [] => None
  | c :: s' =>
      match st with
      | SNormal =>
          if (c =? QUOTE)%N then Some (acc, s')
          else if (c =? BACKSLASH)%N then parseString SEscape acc s'
          else if (c <? 32)%N then None
          else parseString SNormal (acc ++ [c]) s'
      | SEscape =>
          if (c =? ch "u")%N then parseString (SHex 4 0%N) acc s'
          else
            let plain (d : N) := parseString SNormal (acc ++ [d]) s' in
            if (c =? QUOTE)%N then plain QUOTE
            else if (c =? BACKSLASH)%N then plain BACKSLASH
            else if (c =? ch "/")%N then plain (ch "/")
            else if (c =? ch "b")%N then plain 8%N
            else if (c =? ch "f")%N then plain 12%N
            else if (c =? ch "n")%N then plain 10%N
            else if (c =? ch "r")%N then plain 13%N
            else if (c =? ch "t")%N then plain 9%N
            else None
      | SHex k a =>
          if isHexDigit c then
            let a' := (16 * a + Z.to_N (hexVal c))%N in
            match k with
            | S (S k') => parseString (SHex (S k') a') acc s'
            | _ => parseString SNormal (acc ++ [a']) s'
            end
          else None
      end
  end.

(** Code units that can occur in a JSON number. *)
Definition isNumChar (c : N) : bool :=
  (isDigit c || (c =? ch "-") || (c =? ch "+") || (c =? ch ".")
   || (c =? ch "e") || (c =? ch "E"))%N.

Definition noLeadingZero (ip : jsstr) : bool :=
  match ip with
  | [] => false
  | c :: rest => negb (c =? ch "0")%N || isEmpty rest
  end.

(** The JSON number grammar on a complete token: an optional minus, an
    integer part without a superfluous leading zero, an optional
    fraction with at least one digit, an optional exponent. *)
Definition jsonNumber (t : jsstr) : option Q :=
  let '(neg, s1) := takeSign false t in
  let signed (q : Q) := if neg then Qopp q else q in
  let '(ip, s2) := span isDigit s1 in
  if noLeadingZero ip then
    match s2 with
    | c :: s3 =>
        if (c =? ch ".")%N then
          let '(fp, s4) := span isDigit s3 in
          if isEmpty fp then None
          else
            match takeExponent s4 with
            | Some (e, []) =>
                Some (signed (scale10 (digitsVal (ip ++ fp))
                                      (e - Z.of_nat (length fp))))
            | _ => None
            end
        else
          match takeExponent s2 with
          | Some (e, []) => Some (signed (scale10 (digitsVal ip) e))
          | _ => None
          end
    | [] => Some (signed (inject_Z (digitsVal ip)))
    end
  else None.

(** [s] without the prefix [p], when it starts with [p]. *)
Fixpoint stripPrefix (p s : jsstr) : option jsstr :=
  match p, s with
  | [], _ => Some s
  | a :: p', b :: s' => if (a =? b)%N then stripPrefix p' s' else None
  | _ :: _, [] => None
  end.

(** A scalar that is not a string: [true], [false], [null] or a number. *)
Definition parseScalar (s : jsstr) : option (json * jsstr) :=
  match stripPrefix (lit "true") s with
  | Some r => Some (JBool true, r)
  | None =>
  match stripPrefix (lit "false") s with
  | Some r => Some (JBool false, r)
  | None =>
  match stripPrefix (lit "null") s with
  | Some r => Some (JNull, r)
  | None =>
      let '(t, r) := span isNumChar s in
      match jsonNumber t with
      | Some q => Some (JNum q, r)
      | None => None
      end
  end end end.

(** Defining a property: a repeated key keeps its place and takes the
    later value. *)
Fixpoint objSet (m : list (jsstr * json)) (k : jsstr) (v : json)
  : list (jsstr * json) :=
  match m with
  | [] => [(k, v)]
  | (k', v') :: m' =>
      if jsstr_eqb k' k then (k', v) :: m' else (k', v') :: objSet m' k v
  end.

(** Recursive descent over the JSON grammar.  [parseValue] expects its
    input to start at the value; the fuel bounds the number of nested
    calls and is spent at a rate of at most two per code unit. *)
Fixpoint parseValue (fuel : nat) (s : jsstr) {struct fuel}
  : option (json * jsstr) :=
  match fuel with
  | O => None
  | S f =>
      match s with
      | [] => None
      | c :: s' =>
          if (c =? LBRACE)%N then
            match skipWs s' with
            | c1 :: r1 =>
                if (c1 =? RBRACE)%N then Some (JObj [], r1)
                else parseMembers f [] (c1 :: r1)
            | [] => None
            end
          else if (c =? LBRACKET)%N then
            match skipWs s' with
            | c1 :: r1 =>
                if (c1 =? RBRACKET)%N then Some (JArr [], r1)
                else parseElements f [] (c1 :: r1)
            | [] => None
            end
          else if (c =? QUOTE)%N then
            match parseString SNormal [] s' with
            | Some (str, r) => Some (JStr str, r)
            | None => None
            end
          else parseScalar s
      end
  end

with parseElements (fuel : nat) (acc : list json) (s : jsstr) {struct fuel}
  : option (json * jsstr) :=
  match fuel with
  | O => None
  | S f =>
      match parseValue f s with
      | Some (v, r) =>
          match skipWs r with
          | c :: r' =>
              if (c =? COMMA)%N then parseElements f (acc ++ [v]) (skipWs r')
              else if (c =? RBRACKET)%N then Some (JArr (acc ++ [v]), r')
              else None
          | [] => None
          end
      | None => None
      end
  end

with parseMembers (fuel : nat) (acc : list (jsstr * json)) (s : jsstr)
  {struct fuel} : option (json * jsstr) :=
  match fuel with
  | O => None
  | S f =>
      match s with
      | c :: s' =>
          if (c =? QUOTE)%N then
            match parseString SNormal [] s' with
            | Some (k, r) =>
                match skipWs r with
                | c1 :: r1 =>
                    if (c1 =? COLON)%N then
                      match parseValue f (skipWs r1) with
                      | Some (v, r2) =>
                          match skipWs r2 with
                          | c2 :: r3 =>
                              if (c2 =? COMMA)%N then
                                parseMembers f (objSet acc k v) (skipWs r3)
                              else if (c2 =? RBRACE)%N then
                                Some (JObj (objSet acc k v), r3)
                              else None
                          | [] => None
                          end
                      | None => None
                      end
                    else None
                | [] => None
                end
            | None => None
            end
          else None
      | [] => None
      end
  end.

(** [JSON.parse(s)]: [None] stands for the SyntaxError it throws. *)
Definition JSON_parse (s : jsstr) : option json :=
  match parseValue (2 * length s + 2) (skipWs s) with
  | Some (v, rest) => if isEmpty (skipWs rest) then Some v else None
  | None => None
  end.

(* ------------------------------------------------------------------ *)
(** *** Property access, truthiness, identity                           *)

Fixpoint assoc {A : Type} (k : jsstr) (m : list (jsstr * A)) : option A :=
  match m with
  | [] => None
  | (k', v) :: m' => if jsstr_eqb k' k then Some v else assoc k m'
  end.

(** [v.k] for the property names the source reads; [None] is
    [undefined].  Arrays and primitives have none of these names. *)
Definition get (v : json) (k : string) : option json :=
  match v with
  | JObj m => assoc (lit k) m
  | _ => None
  end.

(** [!!v]. *)
Definition truthy (v : json) : bool :=
  match v with
  | JNull => false
  | JBool b => b
  | JNum q => negb (Qeq_bool q 0)
  | JStr s => negb (isEmpty s)
  | JArr _ | JObj _ => true
  end.

Definition optTruthy (o : option json) : bool :=
  match o with Some v => truthy v | None => false end.

(** [typeof v === "object"]. *)
Definition typeofObject (v : json) : bool :=
  match v with
  | JNull | JArr _ | JObj _ => true
  | _ => false
  end.

(** [v.type === "result"]. *)
Definition typeIsResult (v : json) : bool :=
  match get v "type" with
  | Some (JStr s) => jsstr_eqb s (lit "result")
  | _ => false
  end.

(** [a || b] where [a] may be [null]. *)
Definition orElse (a : option json) (b : json) : json :=
  match a with
  | Some x => if truthy x then x else b
  | None => b
  end.

(** Structural equality.  It stands for object identity ([===]) where
    the source compares a parsed document with one of its own parts. *)
Fixpoint json_eqb (a b : json) {struct a} : bool :=
  match a, b with
  | JNull, JNull => true
  | JBool x, JBool y => Bool.eqb x y
  | JNum p, JNum q => Qeq_bool p q
  | JStr s, JStr t => jsstr_eqb s t
  | JArr xs, JArr ys =>
      (fix go (xs ys : list json) : bool :=
         match xs, ys with
         | [], [] => true
         | x :: xs', y :: ys' => json_eqb x y && go xs' ys'
         | _, _ => false
         end) xs ys
  | JObj xm, JObj ym =>
      (fix go (xm ym : list (jsstr * json)) : bool :=
         match xm, ym with
         | [], [] => true
         | (k, x) :: xm', (l, y) :: ym' =>
             jsstr_eqb k l && json_eqb x y && go xm' ym'
         | _, _ => false
         end) xm ym
  | _, _ => false
  end.

(* ================================================================== *)
(** ** JSON parsing and salvage                                        *)
(* ================================================================== *)

Definition isOpen (c : N) : bool := ((c =? LBRACE) || (c =? LBRACKET))%N.
Definition isClose (c : N) : bool := ((c =? RBRACE) || (c =? RBRACKET))%N.

(** The loop of [extractJsonBlockFrom]: [s] is the text from index [i]
    on; the result is the index of the bracket that brings the depth
    back to 0. *)
Fixpoint scanBlock (s : jsstr) (i : nat) (depth : Z) (inStr esc : bool)
  : option nat :=
  match s with
  | [] => None
  | c :: s' =>
      if inStr then
        if esc then scanBlock s' (S i) depth true false
        else if (c =? BACKSLASH)%N then scanBlock s' (S i) depth true true
        else if (c =? QUOTE)%N then scanBlock s' (S i) depth false esc
        else scanBlock s' (S i) depth true esc
      else if (c =? QUOTE)%N then scanBlock s' (S i) depth true esc
      else if isOpen c then scanBlock s' (S i) (depth + 1) false esc
      else if isClose c then
        if (depth - 1 =? 0) then Some i
        else scanBlock s' (S i) (depth - 1) false esc
      else scanBlock s' (S i) depth false esc
  end.

(** [s.slice(a, b)]. *)
Definition slice (s : jsstr) (a b : nat) : jsstr := firstn (b - a) (skipn a s).

(** [extractJsonBlockFrom(s, start)]: the block and the index of its
    last code unit. *)
Definition extractJsonBlockFrom (s : jsstr) (start : nat)
  : option (jsstr * nat) :=
  match scanBlock (skipn start s) start 0 false false with
  | Some e => Some (slice s start (e + 1), e)
  | None => None
  end.

(** [scoreCandidate(obj)]. *)
Definition scoreCandidate (obj : json) : Z :=
  if negb (truthy obj) || negb (typeofObject obj) then 0
  else
    (if optTruthy (get obj "ping") then 2 else 0)
    + (if optTruthy (get obj "download") then 3 else 0)
    + (if optTruthy (get obj "upload") then 3 else 0)
    + (if typeIsResult obj then 10 else 0)
    + (if optTruthy (get obj "isp") then 1 else 0)
    + (if optTruthy (get obj "interface") then 1 else 0)
    + (if optTruthy (get obj "server") then 1 else 0).

(** The [for] loop of the array case of [pickBestSpeedtestResult], over
    the candidates [pickBestSpeedtestResult(it) || it]. *)
Fixpoint pickLoop (cands : list json) (best : option json) (bestScore : Z)
  : option json :=
  match cands with
  | [] => if 0 <? bestScore then best else None
  | cand :: rest =>
      let sc := scoreCandidate cand in
      if typeIsResult cand then Some cand
      else if bestScore <? sc then pickLoop rest (Some cand) sc
      else pickLoop rest best bestScore
  end.

(** The member of [v] that holds the nested document: [result] when it
    is a non-null object, else [data] when it is one. *)
Definition innerKey (v : json) : option string :=
  let isObj (k : string) :=
    optTruthy (get v k)
    && match get v k with Some x => typeofObject x | None => false end in
  if isObj "result"%string then Some "result"%string
  else if isObj "data"%string then Some "data"%string
  else None.

(** [pickBestSpeedtestResult(v)]; [None] is the [null] it returns. *)
Fixpoint pickBestSpeedtestResult (v : json) : option json :=
  match v with
  | JArr items =>
      pickLoop
        (map (fun it => orElse (pickBestSpeedtestResult it) it) items)
        None 0
  | JObj m =>
      if typeIsResult v then Some v
      else
        match innerKey v with
        | Some k =>
            let picks :=
              map (fun kv : jsstr * json =>
                     let '(k', x) := kv in (k', pickBestSpeedtestResult x)) m in
            match assoc (lit k) picks with
            | Some (Some picked) => if truthy picked then Some picked else Some v
            | _ => Some v
            end
        | None => Some v
        end
  | _ => None
  end.

(** Index of the first opening brace or bracket of [s], as
    [s.search] finds it. *)
Fixpoint searchOpen (s : jsstr) : option nat :=
  match s with
  | [] => None
  | c :: s' =>
      if isOpen c then Some O
      else match searchOpen s' with Some n => Some (S n) | None => None end
  end.

(** The [while] loop of [extractBestJsonBlock].  Every iteration moves
    [pos] forward, so [length s] iterations of fuel are never used up. *)
Fixpoint collectBlocks (fuel : nat) (s : jsstr) (pos : nat)
  (blocks : list jsstr) : list jsstr :=
  match fuel with
  | O => blocks
  | S f =>
      if (pos <? length s)%nat && (length blocks <? 40)%nat then
        match searchOpen (skipn pos s) with
        | None => blocks
        | Some rel =>
            let start := (pos + rel)%nat in
            match extractJsonBlockFrom s start with
            | None => collectBlocks f s (start + 1)%nat blocks
            | Some (block, e) =>
                collectBlocks f s (e + 1)%nat (blocks ++ [block])
            end
        end
      else blocks
  end.

(** The scoring loop of [extractBestJsonBlock]; a block that does not
    parse is skipped. *)
Fixpoint bestOfBlocks (blocks : list jsstr) (best : option json)
  (bestScore : Z) : option json :=
  match blocks with
  | [] => best
  | b :: rest =>
      match JSON_parse b with
      | Some obj0 =>
          let obj := orElse (pickBestSpeedtestResult obj0) obj0 in
          let sc := scoreCandidate obj in
          if bestScore <? sc then bestOfBlocks rest (Some obj) sc
          else bestOfBlocks rest best bestScore
      | None => bestOfBlocks rest best bestScore
      end
  end.

(** [extractBestJsonBlock(text)]. *)
Definition extractBestJsonBlock (s : jsstr) : option json :=
  bestOfBlocks (collectBlocks (S (length s)) s 0 []) None (-1).

(** What [safeJsonParse] returns.  The [message] of an [invalid_json]
    failure is the engine's own SyntaxError text and is left out. *)
Inductive parseOutcome :=
| ParseOk (value : json) (salvaged : bool)
| ParseEmptyOutput
| ParseInvalidJson (head tail : jsstr) (len : nat).

(** [safeJsonParse(text)]. *)
Definition safeJsonParse (text : jsstr) : parseOutcome :=
  let s := trim text in
  if isEmpty s then ParseEmptyOutput
  else
    match JSON_parse s with
    | Some parsed =>
        let picked := pickBestSpeedtestResult parsed in
        ParseOk (orElse picked parsed)
                (optTruthy picked
                 && match picked with
                    | Some p => negb (json_eqb p parsed)
                    | None => false
                    end)
    | None =>
        let failure :=
          ParseInvalidJson (slice s 0 200)
                           (slice s (length s - 200) (length s))
                           (length s) in
        match extractBestJsonBlock s with
        | Some best => if truthy best then ParseOk best true else failure
        | None => failure
        end
    end.

(* ================================================================== *)
(** ** Controller                                                      *)
(* ================================================================== *)

Definition gaugeSteps : list Z :=
  [25; 50; 75; 100; 150; 200; 250; 300; 400; 500; 750; 1000; 1500; 2000;
   3000; 5000].

(** The [for] loop of [niceGaugeMaxBucket]: the first step [s] with
    [x <= s]. *)
Fixpoint firstStep (x : jsnum) (steps : list Z) : option Z :=
  match steps with
  | [] => None
  | s :: rest =>
      if num_leb x (JFin (inject_Z s)) then Some s else firstStep x rest
  end.

(** [Math.ceil(x / 1000) * 1000]. *)
Definition ceilThousand (x : jsnum) : jsnum :=
  match x with
  | JFin q => JFin (inject_Z (Qceiling (q / 1000) * 1000))
  | other => other
  end.

(** [niceGaugeMaxBucket(mbps, fallback)]. *)
Definition niceGaugeMaxBucket (mbps : jsval) (fallback : jsnum) : jsnum :=
  let v := Number mbps in
  let x := if Number_isFinite v && num_gtb v (JFin 0) then v else fallback in
  match firstStep x gaugeSteps with
  | Some s => JFin (inject_Z s)
  | None => ceilThousand x
  end.

Inductive stage :=
| StageStarting
| StageRunning
| StagePing
| StageDownload
| StageUpload
| StageRateLimited
| StageDone
| StageError.

(** The live progress object; [None] in a numeric field is [null]. *)
Record Progress := {
  p_ts : Z;
  p_stage : stage;
  p_ping_ms : option jsnum;
  p_jitter_ms : option jsnum;
  p_down_mbps : option jsnum;
  p_up_mbps : option jsnum
}.

(** The partial object handed to the progress callback: an outer [None]
    is a property that is not there, [Some None] is a property set to
    [null]. *)
Record ProgressUpdate := {
  u_stage : option stage;
  u_ping_ms : option (option jsnum);
  u_jitter_ms : option (option jsnum);
  u_down_mbps : option (option jsnum);
  u_up_mbps : option (option jsnum)
}.

(** What [runSpeedtest] resolves with.  [r_note] and
    [r_ookla_rate_limited] are only set on the fallback path. *)
Record RunResult := {
  r_runner : jsstr;
  r_ping_ms : option jsnum;
  r_jitter_ms : option jsnum;
  r_down_mbps : option jsnum;
  r_up_mbps : option jsnum;
  r_note : option jsstr;
  r_ookla_rate_limited : bool
}.

(** What [runSpeedtest] rejects with. *)
Inductive RunError :=
| RateLimitError (retryAfterMs : Z)
| OtherError (message : jsstr).

Record LastResult := {
  l_ts : Z;
  l_result : RunResult
}.

Record HistoryEntry := {
  h_ts : Z;
  h_runner : jsstr;
  h_ping_ms : option jsnum;
  h_jitter_ms : option jsnum;
  h_down_mbps : option jsnum;
  h_up_mbps : option jsnum;
  h_note : jsstr
}.

(** The variables closed over by the controller's functions. *)
Record state := {
  intervalMin : Z;
  rateLimitUntil : Z;
  rateLimitCount : Z;
  maxDown : jsnum;
  maxUp : jsnum;
  nextRunTs : Z;
  history : list HistoryEntry;
  runnerName : option jsstr;
  progress : option Progress;
  running : bool;
  last : option LastResult;
  lastError : option jsstr
}.

Definition set_intervalMin (x : Z) (st : state) : state :=
  {| intervalMin := x;
     rateLimitUntil := rateLimitUntil st;
     rateLimitCount := rateLimitCount st;
     maxDown := maxDown st;
     maxUp := maxUp st;
     nextRunTs := nextRunTs st;
     history := history st;
     runnerName := runnerName st;
     progress := progress st;
     running := running st;
     last := last st;
     lastError := lastError st |}.

Definition set_rateLimitUntil (x : Z) (st : state) : state :=
  {| intervalMin := intervalMin st;
     rateLimitUntil := x;
     rateLimitCount := rateLimitCount st;
     maxDown := maxDown st;
     maxUp := maxUp st;
     nextRunTs := nextRunTs st;
     history := history st;
     runnerName := runnerName st;
     progress := progress st;
     running := running st;
     last := last st;
     lastError := lastError st |}.

Definition set_rateLimitCount (x : Z) (st : state) : state :=
  {| intervalMin := intervalMin st;
     rateLimitUntil := rateLimitUntil st;
     rateLimitCount := x;
     maxDown := maxDown st;
     maxUp := maxUp st;
     nextRunTs := nextRunTs st;
     history := history st;
     runnerName := runnerName st;
     progress := progress st;
     running := running st;
     last := last st;
     lastError := lastError st |}.

Definition set_maxDown (x : jsnum) (st : state) : state :=
  {| intervalMin := intervalMin st;
     rateLimitUntil := rateLimitUntil st;
     rateLimitCount := rateLimitCount st;
     maxDown := x;
     maxUp := maxUp st;
     nextRunTs := nextRunTs st;
     history := history st;
     runnerName := runnerName st;
     progress := progress st;
     running := running st;
     last := last st;
     lastError := lastError st |}.

Definition set_maxUp (x : jsnum) (st : state) : state :=
  {| intervalMin := intervalMin st;
     rateLimitUntil := rateLimitUntil st;
     rateLimitCount := rateLimitCount st;
     maxDown := maxDown st;
     maxUp := x;
     nextRunTs := nextRunTs st;
     history := history st;
     runnerName := runnerName st;
     progress := progress st;
     running := running st;
     last := last st;
     lastError := lastError st |}.

Definition set_nextRunTs (x : Z) (st : state) : state :=
  {| intervalMin := intervalMin st;
     rateLimitUntil := rateLimitUntil st;
     rateLimitCount := rateLimitCount st;
     maxDown := maxDown st;
     maxUp := maxUp st;
     nextRunTs := x;
     history := history st;
     runnerName := runnerName st;
     progress := progress st;
     running := running st;
     last := last st;
     lastError := lastError st |}.

Definition set_history (x : list HistoryEntry) (st : state) : state :=
  {| intervalMin := intervalMin st;
     rateLimitUntil := rateLimitUntil st;
     rateLimitCount := rateLimitCount st;
     maxDown := maxDown st;
     maxUp := maxUp st;
     nextRunTs := nextRunTs st;
     history := x;
     runnerName := runnerName st;
     progress := progress st;
     running := running st;
     last := last st;
     lastError := lastError st |}.

Definition set_runnerName (x : option jsstr) (st : state) : state :=
  {| intervalMin := intervalMin st;
     rateLimitUntil := rateLimitUntil st;
     rateLimitCount := rateLimitCount st;
     maxDown := maxDown st;
     maxUp := maxUp st;
     nextRunTs := nextRunTs st;
     history := history st;
     runnerName := x;
     progress := progress st;
     running := running st;
     last := last st;
     lastError := lastError st |}.

Definition set_progress (x : option Progress) (st : state) : state :=
  {| intervalMin := intervalMin st;
     rateLimitUntil := rateLimitUntil st;
     rateLimitCount := rateLimitCount st;
     maxDown := maxDown st;
     maxUp := maxUp st;
     nextRunTs := nextRunTs st;
     history := history st;
     runnerName := runnerName st;
     progress := x;
     running := running st;
     last := last st;
     lastError := lastError st |}.

Definition set_running (x : bool) (st : state) : state :=
  {| intervalMin := intervalMin st;
     rateLimitUntil := rateLimitUntil st;
     rateLimitCount := rateLimitCount st;
     maxDown := maxDown st;
     maxUp := maxUp st;
     nextRunTs := nextRunTs st;
     history := history st;
     runnerName := runnerName st;
     progress := progress st;
     running := x;
     last := last st;
     lastError := lastError st |}.

Definition set_last (x : option LastResult) (st : state) : state :=
  {| intervalMin := intervalMin st;
     rateLimitUntil := rateLimitUntil st;
     rateLimitCount := rateLimitCount st;
     maxDown := maxDown st;
     maxUp := maxUp st;
     nextRunTs := nextRunTs st;
     history := history st;
     runnerName := runnerName st;
     progress := progress st;
     running := running st;
     last := x;
     lastError := lastError st |}.

Definition set_lastError (x : option jsstr) (st : state) : state :=
  {| intervalMin := intervalMin st;
     rateLimitUntil := rateLimitUntil st;
     rateLimitCount := rateLimitCount st;
     maxDown := maxDown st;
     maxUp := maxUp st;
     nextRunTs := nextRunTs st;
     history := history st;
     runnerName := runnerName st;
     progress := progress st;
     running := running st;
     last := last st;
     lastError := x |}.

(** The object returned by [snapshot()]. *)
Record Snapshot := {
  runner : option jsstr;
  s_running : bool;
  interval_min : Z;
  next_run_ts : Z;
  s_last : option LastResult;
  last_error : option jsstr;
  s_progress : option Progress;
  max_down_mbps : jsnum;
  max_up_mbps : jsnum;
  history_24h : list HistoryEntry
}.

(** [pruneHistory(now)]: keeps the last 24 hours, capped at 5000. *)
Definition pruneHistory (now : Z) (st : state) : state :=
  let cutoff := now - HISTORY_24H_MS in
  let kept := filter (fun it => cutoff <=? h_ts it) (history st) in
  let kept :=
    if (5000 <? length kept)%nat then skipn (length kept - 5000) kept
    else kept in
  set_history kept st.

Definition orEmpty (o : option jsstr) : jsstr :=
  match o with Some s => s | None => [] end.

(** [pushHistory(entry)]. *)
Definition pushHistory (now : Z) (entry : HistoryEntry) (st : state) : state :=
  let st := pruneHistory now st in
  let it :=
    {| h_ts := now;
       h_runner :=
         if isEmpty (h_runner entry) then orEmpty (runnerName st)
         else h_runner entry;
       h_ping_ms := h_ping_ms entry;
       h_jitter_ms := h_jitter_ms entry;
       h_down_mbps := h_down_mbps entry;
       h_up_mbps := h_up_mbps entry;
       h_note := h_note entry |} in
  set_history (history st ++ [it]) st.

(** [snapshot()]; the argument is the clock read by [pruneHistory]. *)
Definition snapshot (now : Z) (st : state) : Snapshot * state :=
  let st := pruneHistory now st in
  ({| runner := runnerName st;
      s_running := running st;
      interval_min := intervalMin st;
      next_run_ts := nextRunTs st;
      s_last := last st;
      last_error := lastError st;
      s_progress := if running st then progress st else None;
      max_down_mbps := maxDown st;
      max_up_mbps := maxUp st;
      history_24h := history st |}, st).

(** [scheduleNext(fromTs)]. *)
Definition scheduleNext (fromTs : Z) (st : state) : state :=
  set_nextRunTs
    (if intervalMin st =? 0 then 0 else fromTs + intervalMin st * 60 * 1000)
    st.

(** [if (!nextRunTs || nextRunTs < rateLimitUntil) nextRunTs = rateLimitUntil]. *)
Definition deferToRateLimit (st : state) : state :=
  if (nextRunTs st =? 0) || (nextRunTs st <? rateLimitUntil st)
  then set_nextRunTs (rateLimitUntil st) st
  else st.

(** [rateLimitUntil && now < rateLimitUntil]. *)
Definition rateLimited (now : Z) (st : state) : bool :=
  negb (rateLimitUntil st =? 0) && (now <? rateLimitUntil st).

Definition startingProgress (now : Z) (stg : stage) : Progress :=
  {| p_ts := now; p_stage := stg; p_ping_ms := None; p_jitter_ms := None;
     p_down_mbps := None; p_up_mbps := None |}.

(** [doRun()] up to its first [await]: the single-flight guard and the
    reset of the live progress.  The flag tells whether a run was
    started, that is, whether the asynchronous rest of [doRun] (runner
    detection and [runSpeedtest]) is now pending. *)
Definition doRun (now : Z) (st : state) : state * bool :=
  if running st then (st, false)
  else
    (set_progress (Some (startingProgress now StageStarting))
       (set_lastError None (set_running true st)),
     true).

Definition mergeField {A : Type} (old : A) (u : option A) : A :=
  match u with Some x => x | None => old end.

Definition withStage (stg : stage) (ts : Z) (p : Progress) : Progress :=
  {| p_ts := ts; p_stage := stg; p_ping_ms := p_ping_ms p;
     p_jitter_ms := p_jitter_ms p; p_down_mbps := p_down_mbps p;
     p_up_mbps := p_up_mbps p |}.

(** The progress callback that [doRun] passes to [runSpeedtest]:
    [progress = { ...progress, ...p, ts: nowMs() }]. *)
Definition onProgress (p : ProgressUpdate) (now : Z) (st : state) : state :=
  let cur :=
    match progress st with
    | Some c => c
    | None => startingProgress now StageRunning
    end in
  set_progress
    (Some {| p_ts := now;
             p_stage := mergeField (p_stage cur) (u_stage p);
             p_ping_ms := mergeField (p_ping_ms cur) (u_ping_ms p);
             p_jitter_ms := mergeField (p_jitter_ms cur) (u_jitter_ms p);
             p_down_mbps := mergeField (p_down_mbps cur) (u_down_mbps p);
             p_up_mbps := mergeField (p_up_mbps cur) (u_up_mbps p) |})
    st.

(** [a ?? b]. *)
Definition orNull (a b : option jsnum) : option jsnum :=
  match a with Some _ => a | None => b end.

Definition numOrNull (x : option jsnum) : jsval :=
  match x with Some n => VNum n | None => VNull end.

(** The counter bump and the window shared by both rate-limit paths of
    [doRun]; [retryAfterMs] is [e.retryAfterMs], 0 when there is none. *)
Definition nextRateLimitCount (st : state) : Z :=
  Z.max 1 (rateLimitCount st + 1).

Definition rateLimitBackoff (retryAfterMs : Z) (st : state) : Z :=
  if retryAfterMs =? 0
  then computeRateLimitBackoffMs (JFin (inject_Z (nextRateLimitCount st)))
  else retryAfterMs.

Definition enterRateLimit (now backoffMs : Z) (message : jsstr) (st : state)
  : state :=
  let st := set_rateLimitCount (nextRateLimitCount st) st in
  let st := set_rateLimitUntil (now + backoffMs) st in
  let st := deferToRateLimit st in
  let st := set_lastError (Some message) st in
  match progress st with
  | Some p => set_progress (Some (withStage StageRateLimited now p)) st
  | None => st
  end.

(** The [try] block of [doRun] after [runSpeedtest] has resolved with
    [res], followed by [finally].  The four timestamps are the clock
    reads of the rate-limit branch, of [last], of [pushHistory] and of
    the final progress. *)
Definition doRunResolved (res : RunResult) (tLimit tLast tPush tDone : Z)
  (st : state) : state :=
  let st :=
    if r_ookla_rate_limited res then
      let backoffMs := rateLimitBackoff 0 st in
      enterRateLimit tLimit backoffMs
        (lit "rate_limited: retry in " ++ fmtMin backoffMs
           ++ lit " (fallback used)") st
    else st in
  let st :=
    if negb (r_ookla_rate_limited res)
       && (negb (rateLimitUntil st =? 0) || negb (rateLimitCount st =? 0))
    then set_rateLimitCount 0 (set_rateLimitUntil 0 st)
    else st in
  let final :=
    match progress st with
    | Some p =>
        {| r_runner := r_runner res;
           r_ping_ms := orNull (r_ping_ms res) (p_ping_ms p);
           r_jitter_ms := orNull (r_jitter_ms res) (p_jitter_ms p);
           r_down_mbps := orNull (r_down_mbps res) (p_down_mbps p);
           r_up_mbps := orNull (r_up_mbps res) (p_up_mbps p);
           r_note := r_note res;
           r_ookla_rate_limited := r_ookla_rate_limited res |}
    | None => res
    end in
  let nextMaxDown :=
    niceGaugeMaxBucket (numOrNull (r_down_mbps final)) (JFin 250) in
  let nextMaxUp :=
    niceGaugeMaxBucket (numOrNull (r_up_mbps final)) (JFin 50) in
  let st :=
    if num_truthy nextMaxDown && num_sne nextMaxDown (maxDown st)
    then set_maxDown nextMaxDown st else st in
  let st :=
    if num_truthy nextMaxUp && num_sne nextMaxUp (maxUp st)
    then set_maxUp nextMaxUp st else st in
  let st := set_last (Some {| l_ts := tLast; l_result := final |}) st in
  let st := set_runnerName (Some (r_runner final)) st in
  let st :=
    pushHistory tPush
      {| h_ts := 0;
         h_runner := r_runner final;
         h_ping_ms := r_ping_ms final;
         h_jitter_ms := r_jitter_ms final;
         h_down_mbps := r_down_mbps final;
         h_up_mbps := r_up_mbps final;
         h_note := orEmpty (r_note final) |} st in
  let st :=
    match progress st with
    | Some p =>
        set_progress
          (Some {| p_ts := tDone;
                   p_stage := StageDone;
                   p_ping_ms := orNull (r_ping_ms final) (p_ping_ms p);
                   p_jitter_ms := orNull (r_jitter_ms final) (p_jitter_ms p);
                   p_down_mbps := orNull (r_down_mbps final) (p_down_mbps p);
                   p_up_mbps := orNull (r_up_mbps final) (p_up_mbps p) |})
          st
    | None => st
    end in
  set_running false st.

(** The [catch] block of [doRun], followed by [finally]. *)
Definition doRunRejected (e : RunError) (now : Z) (st : state) : state :=
  let st :=
    match e with
    | RateLimitError retryAfterMs =>
        let backoffMs := rateLimitBackoff retryAfterMs st in
        enterRateLimit now backoffMs
          (lit "rate_limited: retry in " ++ fmtMin backoffMs) st
    | OtherError message =>
        let st := set_lastError (Some message) st in
        match progress st with
        | Some p => set_progress (Some (withStage StageError now p)) st
        | None => st
        end
    end in
  set_running false st.

(** [ensureRunner()] has finished detecting the runner. *)
Definition runnerDetected (kind : option jsstr) (st : state) : state :=
  set_runnerName kind st.

(** [tick()]; [tRun] is the clock read by [doRun] when it starts. *)
Definition tick (now tRun : Z) (st : state) : state * bool :=
  if intervalMin st =? 0 then (st, false)
  else if rateLimited now st then (deferToRateLimit st, false)
  else
    let st := if nextRunTs st =? 0 then scheduleNext now st else st in
    if (nextRunTs st <=? now) && negb (running st)
    then doRun tRun (scheduleNext now st)
    else (st, false).

(** [runNow()]; [tRun] and [tSnap] are the clock reads of [doRun] and of
    [snapshot]. *)
Definition runNow (now tRun tSnap : Z) (st : state)
  : Snapshot * state * bool :=
  if rateLimited now st then
    let left := rateLimitUntil st - now in
    let st :=
      set_lastError (Some (lit "rate_limited: retry in " ++ fmtMin left)) st in
    (snapshot tSnap (deferToRateLimit st), false)
  else
    let '(st, launched) :=
      if negb (running st) then doRun tRun st else (st, false) in
    (snapshot tSnap st, launched).

(** [setIntervalMin(min)]. *)
Definition setIntervalMin (min : jsval) (now tSnap : Z) (st : state)
  : Snapshot * state :=
  let st := set_intervalMin (clampInt min 0 (60 * 24)) st in
  snapshot tSnap (scheduleNext now st).

(** The object returned by [readState()]. *)
Record Loaded := {
  ld_interval_min : option Q;
  ld_rate_limit_until : Z;
  ld_rate_limit_count : Z;
  ld_max_down_mbps : Q;
  ld_max_up_mbps : Q;
  ld_history : list HistoryEntry
}.

(** The body of [createSpeedtestController]: the initial variables and
    the optional run on start.  [loaded] is what [readState()] returned,
    [tSched], [now] and [tRun] are the three clock reads. *)
Definition createSpeedtestController (loaded : option Loaded)
  (defaultIntervalMin : jsval) (runOnStart : bool) (tSched now tRun : Z)
  : state * bool :=
  let fromFile {A : Type} (f : Loaded -> A) (dflt : A) : A :=
    match loaded with Some l => f l | None => dflt end in
  let interval :=
    match fromFile ld_interval_min None with
    | Some q => VNum (JFin q)
    | None => defaultIntervalMin
    end in
  let st :=
    {| intervalMin := clampInt interval 0 (60 * 24);
       rateLimitUntil := fromFile ld_rate_limit_until 0;
       rateLimitCount := fromFile ld_rate_limit_count 0;
       maxDown := JFin (fromFile ld_max_down_mbps 0%Q);
       maxUp := JFin (fromFile ld_max_up_mbps 0%Q);
       nextRunTs := 0;
       history := fromFile ld_history [];
       runnerName := None;
       progress := None;
       running := false;
       last := None;
       lastError := None |} in
  let st := scheduleNext tSched st in
  if runOnStart && (0 <? intervalMin st) then
    if (rateLimitUntil st =? 0) || (rateLimitUntil st <=? now) then
      let '(st, launched) := doRun tRun st in
      (scheduleNext now st, launched)
    else (set_nextRunTs (Z.max (nextRunTs st) (rateLimitUntil st)) st, false)
  else (st, false).

(** One step of the controller: a public operation called by the
    server, or a callback of the run in flight. *)
Inductive step : state -> state -> Prop :=
| step_tick now tRun st :
    step st (fst (tick now tRun st))
| step_runNow now tRun tSnap st :
    step st (snd (fst (runNow now tRun tSnap st)))
| step_setIntervalMin min now tSnap st :
    step st (snd (setIntervalMin min now tSnap st))
| step_snapshot now st :
    step st (snd (snapshot now st))
| step_detected kind st :
    step st (runnerDetected kind st)
| step_progress p now st :
    running st = true -> step st (onProgress p now st)
| step_resolved res tLimit tLast tPush tDone st :
    running st = true ->
    step st (doRunResolved res tLimit tLast tPush tDone st)
| step_rejected e now st :
    running st = true -> step st (doRunRejected e now st).

Inductive reachable : state -> Prop :=
| reachable_init loaded dflt runOnStart tSched now tRun :
    reachable
      (fst (createSpeedtestController loaded dflt runOnStart tSched now tRun))
| reachable_step st st' :
    reachable st -> step st st' -> reachable st'.

(* ================================================================== *)
(** ** Vocabulary of the statements and sample inputs                  *)
(* ================================================================== *)

(** The bucket of a finite positive value. *)
Definition bucketOf (q : Q) : Z :=
  match firstStep (JFin q) gaugeSteps with
  | Some s => s
  | None => Qceiling (q / 1000) * 1000
  end.

(** A value that is absent, zero, negative or not finite selects the
    fallback. *)
Definition noObservation (v : jsval) : Prop :=
  match Number v with
  | JFin q => (q <= 0)%Q
  | _ => True
  end.

(** [a === b] on numbers. *)
Definition num_seq (a b : jsnum) : bool := negb (num_sne a b).

(** A state file left by an earlier process: one rate-limit hit whose
    window ends at 10000000 ms, no schedule, no history. *)
Definition limitedFile : Loaded :=
  {| ld_interval_min := None;
     ld_rate_limit_until := 10000000;
     ld_rate_limit_count := 1;
     ld_max_down_mbps := 0;
     ld_max_up_mbps := 0;
     ld_history := [] |}.

(** The controller created at time 1000 from [limitedFile]. *)
Definition limitedStart : state :=
  fst (createSpeedtestController (Some limitedFile) (VNum (JFin 0)) true
         1000 1000 1000).

(** A fresh controller (no state file, scheduling disabled), created at
    time 1000. *)
Definition freshStart : state :=
  fst (createSpeedtestController None (VNum (JFin 0)) true 1000 1000 1000).

(** A fresh controller whose first run was started by [runNow]. *)
Definition firstRunStarted : state :=
  snd (fst (runNow 2000 2000 2000 freshStart)).

(** The throughput last seen in the live progress. *)
Definition progressDown (st : state) : option jsnum :=
  match progress st with Some p => p_down_mbps p | None => None end.

Definition progressUp (st : state) : option jsnum :=
  match progress st with Some p => p_up_mbps p | None => None end.

(** The throughput a finished run is recorded with: the value of the
    result, or else the last value seen in the live progress. *)
Definition observedDown (res : RunResult) (st : state) : option jsnum :=
  orNull (r_down_mbps res) (progressDown st).

Definition observedUp (res : RunResult) (st : state) : option jsnum :=
  orNull (r_up_mbps res) (progressUp st).

(** [b] is the gauge bucket of the positive value [q]: not below [q];
    up to 5000 the least entry of the step table with that property,
    beyond 5000 the next multiple of 1000. *)
Definition isBucketOf (q : Q) (b : Z) : Prop :=
  (q <= inject_Z b)%Q
  /\ ((q <= 5000)%Q ->
      In b gaugeSteps
      /\ forall s, In s gaugeSteps -> (q <= inject_Z s)%Q -> b <= s)
  /\ ((5000 < q)%Q ->
      b = Qceiling (q / 1000) * 1000 /\ (inject_Z b < q + 1000)%Q).

(** [hint] is the gauge hint for the recorded throughput [observed]:
    the bucket of a finite positive value, else the default. *)
Definition hintFor (observed : option jsnum) (default : Z) (hint : jsnum)
  : Prop :=
  match observed with
  | Some (JFin q) =>
      ((0 < q)%Q ->
       exists b, isBucketOf q b /\ num_seq hint (JFin (inject_Z b)) = true)
      /\ ((q <= 0)%Q -> num_seq hint (JFin (inject_Z default)) = true)
  | _ => num_seq hint (JFin (inject_Z default)) = true
  end.

Definition sampleResult (down up : Q) : RunResult :=
  {| r_runner := lit "ookla";
     r_ping_ms := Some (JFin 12);
     r_jitter_ms := Some (JFin 1);
     r_down_mbps := Some (JFin down);
     r_up_mbps := Some (JFin up);
     r_note := None;
     r_ookla_rate_limited := false |}.

(** Two successive completed runs: 900 Mbps down, then 100 Mbps down. *)
Definition afterFastRun : state :=
  doRunResolved (sampleResult 900 40) 3000 3000 3000 3000 firstRunStarted.

Definition secondRunStarted : state :=
  snd (fst (runNow 4000 4000 4000 afterFastRun)).

Definition afterSlowRun : state :=
  doRunResolved (sampleResult 100 40) 5000 5000 5000 5000 secondRunStarted.

(** A parsed document that [pickBestSpeedtestResult] returns as it is,
    or rejects so that the caller keeps it: a scalar, or an object that
    has type [result] or has no nested [result] or [data] object. *)
Definition keptWhole (v : json) : bool :=
  match v with
  | JArr _ => false
  | JObj _ =>
      typeIsResult v
      || match innerKey v with Some _ => false | None => true end
  | _ => true
  end.

(** [v] has the three measurement members. *)
Definition hasMeasurements (v : json) : bool :=
  match get v "download", get v "upload", get v "ping" with
  | Some _, Some _, Some _ => true
  | _, _, _ => false
  end.

Definition isOk (r : parseOutcome) : bool :=
  match r with ParseOk _ _ => true | _ => false end.

(** No opening brace or bracket occurs in [s]. *)
Definition noOpen (s : jsstr) : bool := forallb (fun c => negb (isOpen c)) s.

Definition measurementText : jsstr :=
  txt "{'download':93.5,'upload':11.2,'ping':14}".

Definition measurementObject : json :=
  JObj [(lit "download", JNum (935 # 10));
        (lit "upload", JNum (112 # 10));
        (lit "ping", JNum 14)].

(** A code unit that the block scanner steps over outside a string. *)
Definition isPlain (c : N) : bool :=
  negb (c =? QUOTE)%N && negb (isOpen c) && negb (isClose c).

(** Scanning [c] takes the loop of [extractJsonBlockFrom] from the state
    [(d, inStr, esc)] to the state [(d', inStr', esc')] without
    returning. *)
Definition runs (c : jsstr) (d : Z) (inStr esc : bool)
  (d' : Z) (inStr' esc' : bool) : Prop :=
  forall k i,
    scanBlock (c ++ k) i d inStr esc
    = scanBlock k (length c + i) d' inStr' esc'.

(** At any positive depth the scanner steps over [c] and is back in the
    same state. *)
Definition inner (c : jsstr) : Prop :=
  forall d, 0 < d -> runs c d false false d false false.

(** [s] is [r] preceded by text the scanner steps over. *)
Definition eats (s r : jsstr) : Prop :=
  exists c, s = c ++ r /\ inner c.

(** [s] is [r] preceded by a bracketed block. *)
Definition eatsBlock (s r : jsstr) : Prop :=
  exists o body cl,
    s = o :: body ++ cl :: r
    /\ isOpen o = true /\ isClose cl = true /\ inner body.

Definition isContainer (v : json) : bool :=
  match v with JArr _ | JObj _ => true | _ => false end.

Definition escOf (st : strState) : bool :=
  match st with SEscape => true | _ => false end.

(** Noise in which the measurement is wrapped in braces of its own, and
    noise that holds an empty object before a measurement of zeros. *)
Definition bracedNoiseText : jsstr :=
  txt "{x " ++ measurementText ++ txt "}".

Definition zeroMeasurementText : jsstr :=
  txt "{'download':0,'upload':0,'ping':0}".

Definition competingBlockText : jsstr :=
  txt "{} " ++ zeroMeasurementText.

(* ================================================================== *)
(** ** Further vocabulary: what a finished run is recorded with        *)
(* ================================================================== *)

Definition progressPing (st : state) : option jsnum :=
  match progress st with Some p => p_ping_ms p | None => None end.

Definition progressJitter (st : state) : option jsnum :=
  match progress st with Some p => p_jitter_ms p | None => None end.

(** The result of a run after [doRun] has filled its missing values
    from the live progress of the state [st]. *)
Definition finalResult (res : RunResult) (st : state) : RunResult :=
  {| r_runner := r_runner res;
     r_ping_ms := orNull (r_ping_ms res) (progressPing st);
     r_jitter_ms := orNull (r_jitter_ms res) (progressJitter st);
     r_down_mbps := observedDown res st;
     r_up_mbps := observedUp res st;
     r_note := r_note res;
     r_ookla_rate_limited := r_ookla_rate_limited res |}.

(** The history entry of that run, pushed at time [ts]. *)
Definition recordedEntry (res : RunResult) (st : state) (ts : Z)
  : HistoryEntry :=
  {| h_ts := ts;
     h_runner := r_runner res;
     h_ping_ms := orNull (r_ping_ms res) (progressPing st);
     h_jitter_ms := orNull (r_jitter_ms res) (progressJitter st);
     h_down_mbps := observedDown res st;
     h_up_mbps := observedUp res st;
     h_note := orEmpty (r_note res) |}.

(** The two halves of [doRunResolved]: the rate-limit bookkeeping, and
    the recording of the result. *)
Definition rateLimitBookkeeping (res : RunResult) (tLimit : Z) (st : state)
  : state :=
  let st :=
    if r_ookla_rate_limited res then
      let backoffMs := rateLimitBackoff 0 st in
      enterRateLimit tLimit backoffMs
        (lit "rate_limited: retry in " ++ fmtMin backoffMs
           ++ lit " (fallback used)") st
    else st in
  if negb (r_ookla_rate_limited res)
     && (negb (rateLimitUntil st =? 0) || negb (rateLimitCount st =? 0))
  then set_rateLimitCount 0 (set_rateLimitUntil 0 st)
  else st.

(** What holds of every state the controller can reach: the interval is
    within its bounds, a run in flight has a live progress, and the
    gauge hints are finite numbers. *)
Definition wellFormed (st : state) : Prop :=
  0 <= intervalMin st <= 1440
  /\ (running st = true -> progress st <> None)
  /\ Number_isFinite (maxDown st) = true
  /\ Number_isFinite (maxUp st) = true.

(** [{ ...a, ...b }] on two progress updates: a property of [b] wins. *)
Definition laterField {A : Type} (a b : option A) : option A :=
  match b with Some _ => b | None => a end.

Definition mergeUpdate (a b : ProgressUpdate) : ProgressUpdate :=
  {| u_stage := laterField (u_stage a) (u_stage b);
     u_ping_ms := laterField (u_ping_ms a) (u_ping_ms b);
     u_jitter_ms := laterField (u_jitter_ms a) (u_jitter_ms b);
     u_down_mbps := laterField (u_down_mbps a) (u_down_mbps b);
     u_up_mbps := laterField (u_up_mbps a) (u_up_mbps b) |}.

(** The interval the controller starts with: the one of the state file
    when it holds one, else [defaultIntervalMin]. *)
Definition startInterval (loaded : option Loaded) (defaultIntervalMin : jsval)
  : Z :=
  match loaded with
  | Some {| ld_interval_min := Some q |} => clampInt (VNum (JFin q)) 0 1440
  | _ => clampInt defaultIntervalMin 0 1440
  end.

(* ================================================================== *)
(** ** Further vocabulary: parts of documents and of texts             *)
(* ================================================================== *)

Definition isObject (v : json) : bool :=
  match v with JObj _ => true | _ => false end.

(** [r] is [v] itself or is reached from [v] through array items and
    through members named [result] and [data]: the only places where
    [pickBestSpeedtestResult] looks. *)
Inductive nestedIn : json -> json -> Prop :=
| nested_here v : nestedIn v v
| nested_item items it r :
    In it items -> nestedIn it r -> nestedIn (JArr items) r
| nested_member (k : string) m x r :
    k = "result"%string \/ k = "data"%string ->
    assoc (lit k) m = Some x -> nestedIn x r -> nestedIn (JObj m) r.

(** [blocks] lie in [s] one after the other, in this order, with any
    text before, between and after them. *)
Inductive partsOf : list jsstr -> jsstr -> Prop :=
| parts_nil rest : partsOf [] rest
| parts_cons gap b bs rest :
    partsOf bs rest -> partsOf (b :: bs) (gap ++ b ++ rest).

(** A block as the scanner returns it: it starts with an opening brace
    or bracket and is, as a text of its own, what the scanner extracts
    from its start. *)
Definition isBlock (b : jsstr) : Prop :=
  (exists o rest, b = o :: rest /\ isOpen o = true)
  /\ extractJsonBlockFrom b 0 = Some (b, (length b - 1)%nat).

(** Number of nodes of a document. *)
Fixpoint jsize (v : json) : nat :=
  match v with
  | JArr items => S (fold_right (fun x n => (jsize x + n)%nat) O items)
  | JObj m =>
      S (fold_right (fun (kv : jsstr * json) n => (jsize (snd kv) + n)%nat) O m)
  | _ => 1%nat
  end.

(* ================================================================== *)
(** ** Texts: lower case and search                                    *)
(* ================================================================== *)

(** [String.prototype.toLowerCase], code unit by code unit.  The ASCII
    capitals become small letters; of the code units outside ASCII, the
    two whose lower case holds an ASCII letter are mapped as Unicode
    says (the Kelvin sign to [k], the dotted capital I to [i] and a
    combining dot).  Every other code unit outside ASCII is left as it
    is: its lower case is outside ASCII as well, and the source only
    compares lowered texts with ASCII literals. *)
Definition lowerUnit (c : N) : jsstr :=
  if ((65 <=? c) && (c <=? 90))%N then [(c + 32)%N]
  else if (c =? 8490)%N then [107%N]
  else if (c =? 304)%N then [105%N; 775%N]
  else [c].

Definition toLowerCase (s : jsstr) : jsstr := flat_map lowerUnit s.

(** [t.includes(n)]. *)
Fixpoint includes (t n : jsstr) : bool :=
  match stripPrefix n t with
  | Some _ => true
  | None =>
      match t with
      | [] => false
      | _ :: t' => includes t' n
      end
  end.

(** [a || b] on strings. *)
Definition strOr (a b : jsstr) : jsstr := if isEmpty a then b else a.

(** [isRateLimitedText(s)] for a string [s]. *)
Definition isRateLimitedText (s : jsstr) : bool :=
  let t := toLowerCase (strOr s []) in
  includes t (lit "limit reached")
  || includes t (lit "too many requests")
  || includes t (lit "rate limit")
  || includes t (lit "429").

(** The texts that [isRateLimitedText] looks for. *)
Definition rateLimitMarks : list jsstr :=
  [lit "limit reached"; lit "too many requests"; lit "rate limit"; lit "429"].

(** The ASCII small letters of a text turned into capitals. *)
Definition asciiUpper (s : jsstr) : jsstr :=
  map (fun c => if ((97 <=? c) && (c <=? 122))%N then (c - 32)%N else c) s.

(* ================================================================== *)
(** ** Exceptions                                                      *)
(* ================================================================== *)

(** What the functions below throw: [new Error(message)],
    [new RateLimitError(message, { code })], and the TypeError of the
    engine when an object cannot be converted to a primitive value. *)
Inductive Thrown :=
| ThrowError (message : jsstr)
| ThrowRateLimit (message : jsstr) (code : Z)
| ThrowTypeError.

Inductive exc (A : Type) :=
| Ok (a : A)
| Raise (e : Thrown).

Arguments Ok {A} a.
Arguments Raise {A} e.

Definition bind {A B : Type} (x : exc A) (k : A -> exc B) : exc B :=
  match x with
  | Ok a => k a
  | Raise e => Raise e
  end.

Notation "x <- e ;; k" := (bind e (fun x => k))
  (at level 61, e at next level, right associativity).

(* ================================================================== *)
(** ** Ookla result parsing                                            *)
(* ================================================================== *)

(** Whether converting [v] to a primitive value throws.  A parsed
    object inherits [toString] from [Object.prototype] and converts to
    the text [[object Object]], unless the document gave it a member
    named [toString] of its own: that member is not a function, the
    inherited [valueOf] returns the object itself, and the conversion
    throws a TypeError.  An array converts by joining the conversions
    of its items. *)
Fixpoint convertThrows (v : json) : bool :=
  match v with
  | JObj m =>
      match assoc (lit "toString") m with Some _ => true | None => false end
  | JArr items => existsb convertThrows items
  | _ => false
  end.

(** [Number(v)] for a value [v] of a parsed document whose conversion
    does not throw.  An object is [[object Object]], not a number.  An
    array is the join of its items with commas: no item is the empty
    text, 0; one item is that item as text ([null] as the empty text);
    with more items the text holds a comma and is not a number. *)
Fixpoint numberOfJson (v : json) : jsnum :=
  match v with
  | JNull => JFin 0
  | JBool b => JFin (if b then 1 else 0)
  | JNum q => JFin q
  | JStr s => StringToNumber s
  | JObj _ => JNaN
  | JArr [] => JFin 0
  | JArr [x] =>
      match x with
      | JNull => JFin 0
      | JBool _ => JNaN
      | JNum q => JFin q
      | JStr s => StringToNumber s
      | JArr _ => numberOfJson x
      | JObj _ => JNaN
      end
  | JArr _ => JNaN
  end.

(** [Number(x)] where [x] was read from a parsed document; [None] is
    [undefined]. *)
Definition NumberOf (x : option json) : exc jsnum :=
  match x with
  | None => Ok JNaN
  | Some v => if convertThrows v then Raise ThrowTypeError else Ok (numberOfJson v)
  end.

(** [a ?? b]. *)
Definition nullish (a : option json) : bool :=
  match a with
  | None | Some JNull => true
  | _ => false
  end.

Definition coalesce (a b : option json) : option json :=
  if nullish a then b else a.

(** [toNum(x)]: a finite number or [null]. *)
Definition toNum (x : option json) : exc (option Q) :=
  n <- NumberOf x ;;
  Ok (match n with JFin q => Some q | _ => None end).

(** [ooklaPingMs(j)]. *)
Definition ooklaPingMs (j : json) : exc (option Q) :=
  match get j "ping" with
  | None | Some JNull => toNum (get j "latency")
  | Some (JNum q) => toNum (Some (JNum q))
  | Some (JStr s) => toNum (Some (JStr s))
  | Some ping =>
      toNum (coalesce (coalesce (get ping "latency") (get ping "latency_ms"))
               (get ping "latencyMs"))
  end.

(** [ooklaJitterMs(j)]. *)
Definition ooklaJitterMs (j : json) : exc (option Q) :=
  match get j "ping" with
  | Some ping =>
      if truthy ping && typeofObject ping then
        toNum (coalesce (coalesce (get ping "jitter") (get ping "jitter_ms"))
                 (get ping "jitterMs"))
      else toNum (get j "jitter")
  | None => toNum (get j "jitter")
  end.

(** [sectionToMbps(sec)]. *)
Definition sectionToMbps (sec : option json) : exc (option Q) :=
  match sec with
  | None => Ok None
  | Some s =>
      if negb (truthy s) || negb (typeofObject s) then Ok None
      else
        bw <- toNum (coalesce (coalesce (get s "bandwidth")
                                        (get s "bandwidth_bytes"))
                       (get s "bandwidthBytes")) ;;
        match bw with
        | Some b => Ok (Some (b * 8 / 1000000)%Q)
        | None =>
            bps <- toNum (coalesce (get s "bandwidth_bps") (get s "bps")) ;;
            match bps with
            | Some b => Ok (Some (b / 1000000)%Q)
            | None =>
                bytes <- toNum (get s "bytes") ;;
                elapsed <- toNum (get s "elapsed") ;;
                match bytes, elapsed with
                | Some b, Some e =>
                    if negb (Qle_bool e 0) then
                      let bytesPerSec := (b / (e / 1000))%Q in
                      Ok (Some (bytesPerSec * 8 / 1000000)%Q)
                    else Ok None
                | _, _ => Ok None
                end
            end
        end
  end.

(** [bpsToMbps(bps)]. *)
Definition bpsToMbps (bps : option json) : exc (option Q) :=
  n <- NumberOf bps ;;
  Ok (match n with JFin q => Some (q / 1000000)%Q | _ => None end).

(* ================================================================== *)
(** ** Commands and runner detection                                   *)
(* ================================================================== *)

(** What [runCmd] and [runOoklaJsonWithProgress] resolve with.  The
    exit code is [null] for a process ended by a signal. *)
Record CmdResult := {
  c_code : option Z;
  c_stdout : jsstr;
  c_stderr : jsstr;
  c_killed : bool;
  c_spawn_error : bool
}.

(** The machine the module runs on: what each command resolves with,
    the value of [SPEEDTEST_BIN], and the bundled binary that
    [resolveBundledSpeedtest] finds.  One call of [runSpeedtest] or of
    [detectRunner] runs no command twice. *)
Record Host := {
  h_runCmd : jsstr -> list jsstr -> CmdResult;
  h_runOokla : jsstr -> CmdResult;
  h_SPEEDTEST_BIN : jsstr;
  h_bundled : option jsstr
}.

Record Runner := {
  rn_kind : jsstr;
  rn_bin : jsstr
}.

(** [which(cmd)]: the trimmed output of [command -v], [None] for
    [null]. *)
Definition which (h : Host) (cmd : jsstr) : option jsstr :=
  let r :=
    h_runCmd h (lit "sh")
      [lit "-lc"; lit "command -v " ++ cmd ++ lit " 2>/dev/null || true"] in
  let s := trim (strOr (c_stdout r) []) in
  if isEmpty s then None else Some s.

(** [(v.stdout || v.stderr || "").toLowerCase().includes("speedtest-cli")]
    for the output of [speedtest --version]. *)
Definition isPythonCli (h : Host) : bool :=
  let v := h_runCmd h (lit "speedtest") [lit "--version"] in
  let ver := toLowerCase (strOr (strOr (c_stdout v) (c_stderr v)) []) in
  includes ver (lit "speedtest-cli").

(** [detectRunner()]. *)
Definition detectRunner (h : Host) : option Runner :=
  let forced := trim (strOr (h_SPEEDTEST_BIN h) []) in
  if negb (isEmpty forced) then
    Some {| rn_kind := lit "ookla"; rn_bin := forced |}
  else
    match h_bundled h with
    | Some bundled => Some {| rn_kind := lit "ookla"; rn_bin := bundled |}
    | None =>
        let next :=
          match which h (lit "speedtest-cli") with
          | Some _ =>
              Some {| rn_kind := lit "speedtest-cli";
                      rn_bin := lit "speedtest-cli" |}
          | None =>
              match which h (lit "librespeed-cli") with
              | Some _ =>
                  Some {| rn_kind := lit "librespeed-cli";
                          rn_bin := lit "librespeed-cli" |}
              | None => None
              end
          end in
        match which h (lit "speedtest") with
        | Some _ =>
            if negb (isPythonCli h) then
              Some {| rn_kind := lit "ookla"; rn_bin := lit "speedtest" |}
            else next
        | None => next
        end
    end.

(** [findFallbackRunner()]. *)
Definition findFallbackRunner (h : Host) : option Runner :=
  match which h (lit "speedtest-cli") with
  | Some _ =>
      Some {| rn_kind := lit "speedtest-cli"; rn_bin := lit "speedtest-cli" |}
  | None =>
      match which h (lit "speedtest") with
      | Some _ =>
          if isPythonCli h then
            Some {| rn_kind := lit "speedtest-cli"; rn_bin := lit "speedtest" |}
          else None
      | None => None
      end
  end.

(* ================================================================== *)
(** ** Run speedtest                                                   *)
(* ================================================================== *)

(** What [runSpeedtest] resolves with: the normalized result, and the
    [ookla_exit] member that the fallback path adds. *)
Record Resolved := {
  rs_result : RunResult;
  rs_ookla_exit : option (option Z)
}.

(** An integer in a template literal. *)
Definition intText (z : Z) : jsstr :=
  if z <? 0 then lit "-" ++ decimalOf (- z) else decimalOf z.

(** [${r.code}]. *)
Definition codeText (c : option Z) : jsstr :=
  match c with
  | Some z => intText z
  | None => lit "null"
  end.

(** [r.code !== 0]. *)
Definition failed (r : CmdResult) : bool :=
  match c_code r with
  | Some z => negb (z =? 0)
  | None => true
  end.

(** A finite number or [null] as a member of a result. *)
Definition member (x : option Q) : option jsnum := option_map JFin x.

Definition plainResult (runner : jsstr) (ping jitter down up : option Q)
  : Resolved :=
  {| rs_result :=
       {| r_runner := runner;
          r_ping_ms := member ping;
          r_jitter_ms := member jitter;
          r_down_mbps := member down;
          r_up_mbps := member up;
          r_note := None;
          r_ookla_rate_limited := false |};
     rs_ookla_exit := None |}.

(** [{ ...fbRes, note, ookla_exit, ookla_rate_limited }]. *)
Definition fallbackResult (fbRes : Resolved) (code : option Z)
  (rateLimited : bool) : Resolved :=
  {| rs_result :=
       {| r_runner := r_runner (rs_result fbRes);
          r_ping_ms := r_ping_ms (rs_result fbRes);
          r_jitter_ms := r_jitter_ms (rs_result fbRes);
          r_down_mbps := r_down_mbps (rs_result fbRes);
          r_up_mbps := r_up_mbps (rs_result fbRes);
          r_note :=
            Some (if rateLimited then lit "ookla_rate_limited_fallback"
                  else lit "ookla_failed_fallback");
          r_ookla_rate_limited := rateLimited |};
     rs_ookla_exit := Some code |}.

(** The members [error], [message] and [len] of what [safeJsonParse]
    returned for [text]; [None] is [undefined]. *)
Definition pjError (pj : parseOutcome) : option jsstr :=
  match pj with
  | ParseOk _ _ => None
  | ParseEmptyOutput => Some (lit "empty_output")
  | ParseInvalidJson _ _ _ => Some (lit "invalid_json")
  end.

Definition pjLen (pj : parseOutcome) : Z :=
  match pj with
  | ParseInvalidJson _ _ len => Z.of_nat len
  | _ => 0
  end.

(** [looksLikeFinal] of the Ookla branch. *)
Definition looksLikeFinal (pj : parseOutcome) : bool :=
  match pj with
  | ParseOk v _ =>
      truthy v
      && (typeIsResult v
          || (optTruthy (get v "ping") && optTruthy (get v "download")
              && optTruthy (get v "upload"))
          || (8 <=? scoreCandidate v))
  | _ => false
  end.

Section RunSpeedtest.

(** The text of the SyntaxError that the engine's [JSON.parse] throws
    for a text it rejects. *)
Variable syntaxErrorText : jsstr -> jsstr.

Variable h : Host.

(** [timeoutMs], a whole number of milliseconds. *)
Variable timeoutMs : Z.

(** [${pj.message || ""}] for the parse of [text]. *)
Definition pjMessage (text : jsstr) (pj : parseOutcome) : jsstr :=
  match pj with
  | ParseInvalidJson _ _ _ => strOr (syntaxErrorText (trim text)) []
  | _ => []
  end.

(** The branch of [runSpeedtest] for [speedtest-cli]. *)
Definition runSpeedtestCli (runner : Runner) : exc Resolved :=
  let r := h_runCmd h (rn_bin runner) [lit "--secure"; lit "--json"] in
  if c_killed r then
    Raise (ThrowError
             (lit "speedtest-cli timeout after " ++ intText timeoutMs
                ++ lit "ms"))
  else if failed r then
    Raise (ThrowError
             (lit "speedtest-cli exit " ++ codeText (c_code r) ++ lit ": "
                ++ strOr (c_stderr r) (c_stdout r)))
  else
    match safeJsonParse (c_stdout r) with
    | ParseOk j _ =>
        ping <- NumberOf (get j "ping") ;;
        down <- bpsToMbps (get j "download") ;;
        up <- bpsToMbps (get j "upload") ;;
        Ok (plainResult (lit "speedtest-cli")
              (match ping with JFin q => Some q | _ => None end)
              None down up)
    | pj =>
        Raise (ThrowError
                 (lit "speedtest-cli "
                    ++ match pjError pj with
                       | Some e => e
                       | None => lit "undefined"
                       end
                    ++ lit ": " ++ pjMessage (c_stdout r) pj
                    ++ lit " (len=" ++ intText (pjLen pj) ++ lit ") stderr="
                    ++ slice (trim (strOr (c_stderr r) [])) 0 200))
    end.

(** The branch of [runSpeedtest] for [librespeed-cli]. *)
Definition runLibrespeed (runner : Runner) : exc Resolved :=
  let r := h_runCmd h (rn_bin runner) [lit "--json"] in
  if c_killed r then
    Raise (ThrowError
             (lit "librespeed-cli timeout after " ++ intText timeoutMs
                ++ lit "ms"))
  else if failed r then
    Raise (ThrowError
             (lit "librespeed-cli exit " ++ codeText (c_code r) ++ lit ": "
                ++ strOr (c_stderr r) (c_stdout r)))
  else
    match safeJsonParse (c_stdout r) with
    | ParseOk j _ =>
        pingMs <- NumberOf (coalesce (get j "ping") (get j "latency")) ;;
        jitterMs <- NumberOf (get j "jitter") ;;
        downMbps <-
          NumberOf (coalesce (get j "download") (get j "download_mbps")) ;;
        upMbps <- NumberOf (coalesce (get j "upload") (get j "upload_mbps")) ;;
        let finite (n : jsnum) :=
          match n with JFin q => Some q | _ => None end in
        Ok (plainResult (lit "librespeed-cli")
              (finite pingMs) (finite jitterMs) (finite downMbps)
              (finite upMbps))
    | pj =>
        Raise (ThrowError
                 (lit "librespeed-cli "
                    ++ match pjError pj with
                       | Some e => e
                       | None => lit "undefined"
                       end
                    ++ lit ": " ++ pjMessage (c_stdout r) pj
                    ++ lit " (len=" ++ intText (pjLen pj) ++ lit ") stderr="
                    ++ slice (trim (strOr (c_stderr r) [])) 0 200))
    end.

(** The parse of the Ookla branch: the standard output, or else, when
    that does not look like a final result, the standard output and the
    standard error together if they parse. *)
Definition ooklaParse (r : CmdResult) : parseOutcome :=
  let combined := strOr (c_stdout r) [] ++ [10%N] ++ strOr (c_stderr r) [] in
  let pj := safeJsonParse (c_stdout r) in
  if negb (looksLikeFinal pj) then
    match safeJsonParse combined with
    | ParseOk v salvaged => ParseOk v salvaged
    | _ => pj
    end
  else pj.

(** [runSpeedtest(runner, timeoutMs, onProgress)].  The progress
    callback is a transition of the controller of its own
    ([onProgress]).  The fuel counts the nested calls; [None] is a call
    that ran out of it. *)
Fixpoint runSpeedtest (fuel : nat) (runner : option Runner)
  : option (exc Resolved) :=
  match fuel with
  | O => None
  | S f =>
      match runner with
      | None =>
          Some (Raise (ThrowError
            (lit "No speedtest runner found (speedtest-cli / speedtest (Ookla) / librespeed-cli)")))
      | Some rn =>
          if jsstr_eqb (rn_kind rn) (lit "speedtest-cli") then
            Some (runSpeedtestCli rn)
          else if jsstr_eqb (rn_kind rn) (lit "ookla") then
            let r := h_runOokla h (rn_bin rn) in
            if c_killed r then
              Some (Raise (ThrowError
                             (lit "speedtest timeout after "
                                ++ intText timeoutMs ++ lit "ms")))
            else if c_spawn_error r then
              match findFallbackRunner h with
              | Some fb => runSpeedtest f (Some fb)
              | None =>
                  Some (Raise (ThrowError
                                 (lit "speedtest spawn failed: "
                                    ++ c_stderr r)))
              end
            else if failed r then
              let msg := trim (strOr (strOr (c_stderr r) (c_stdout r)) []) in
              let rateLimited :=
                match c_code r with
                | Some z => z =? 173
                | None => false
                end
                || isRateLimitedText msg in
              match findFallbackRunner h with
              | Some fb =>
                  match runSpeedtest f (Some fb) with
                  | Some (Ok fbRes) =>
                      Some (Ok (fallbackResult fbRes (c_code r) rateLimited))
                  | other => other
                  end
              | None =>
                  if rateLimited then
                    Some (Raise (ThrowRateLimit
                                   (lit "rate_limited: "
                                      ++ strOr (slice msg 0 240)
                                               (lit "Limit reached"))
                                   (match c_code r with
                                    | Some z => if z =? 0 then 173 else z
                                    | None => 173
                                    end)))
                  else
                    Some (Raise (ThrowError
                                   (lit "speedtest exit "
                                      ++ codeText (c_code r) ++ lit ": "
                                      ++ msg)))
              end
            else
              match ooklaParse r with
              | ParseOk j _ =>
                  Some (ping <- ooklaPingMs j ;;
                        jitter <- ooklaJitterMs j ;;
                        down <- sectionToMbps (get j "download") ;;
                        up <- sectionToMbps (get j "upload") ;;
                        Ok (plainResult (lit "ookla") ping jitter down up))
              | pj =>
                  match findFallbackRunner h with
                  | Some fb => runSpeedtest f (Some fb)
                  | None =>
                      Some (Raise (ThrowError
                        (lit "speedtest "
                           ++ match pjError pj with
                              | Some e => e
                              | None => lit "parse_error"
                              end
                           ++ lit ": " ++ pjMessage (c_stdout r) pj
                           ++ lit " (len=" ++ intText (pjLen pj) ++ lit ")")))
                  end
              end
          else if jsstr_eqb (rn_kind rn) (lit "librespeed-cli") then
            Some (runLibrespeed rn)
          else
            Some (Raise (ThrowError (lit "Unsupported runner: " ++ rn_kind rn)))
      end
  end.

End RunSpeedtest.

(** What [doRun] turns a rejection of [runSpeedtest] into: the name of
    a [RateLimitError], whose [retryAfterMs] is the 0 of its
    constructor, or else [String(e?.message || e)]; [typeErrorText] is
    the message of the engine's TypeError. *)
Definition toRunError (typeErrorText : jsstr) (e : Thrown) : RunError :=
  match e with
  | ThrowRateLimit _ _ => RateLimitError 0
  | ThrowError message => OtherError (strOr message (lit "Error"))
  | ThrowTypeError => OtherError (strOr typeErrorText (lit "TypeError"))
  end.

(** The rest of [doRun] once [runSpeedtest] has settled. *)
Definition doRunSettled (typeErrorText : jsstr) (out : exc Resolved)
  (tLimit tLast tPush tDone : Z) (st : state) : state :=
  match out with
  | Ok res => doRunResolved (rs_result res) tLimit tLast tPush tDone st
  | Raise e => doRunRejected (toRunError typeErrorText e) tLimit st
  end.



(* ================================================================== *)
(** ** Further vocabulary: runs and sample machines                    *)
(* ================================================================== *)

(** The runner names that a result can carry. *)
Definition runnerNames : list jsstr :=
  [lit "ookla"; lit "speedtest-cli"; lit "librespeed-cli"].


(** [r.code === 173 || isRateLimitedText(msg)] for a failed Ookla run. *)
Definition ooklaRateLimited (r : CmdResult) : bool :=
  match c_code r with
  | Some z => z =? 173
  | None => false
  end
  || isRateLimitedText (trim (strOr (strOr (c_stderr r) (c_stdout r)) [])).

(** A command that exits with [code] after writing [out] and [err]. *)
Definition exited (code : Z) (out err : jsstr) : CmdResult :=
  {| c_code := Some code; c_stdout := out; c_stderr := err;
     c_killed := false; c_spawn_error := false |}.

(** A machine without [SPEEDTEST_BIN] and without a bundled binary, on
    which the Ookla binary resolves with [ookla], and on which
    [speedtest-cli] is installed or not and resolves with [cli]; no
    other command is found. *)
Definition sampleHost (ookla : CmdResult) (cliInstalled : bool)
  (cli : CmdResult) : Host :=
  {| h_runCmd := fun cmd args =>
       if jsstr_eqb cmd (lit "sh") then
         match args with
         | [_; script] =>
             if cliInstalled && includes script (lit " speedtest-cli ")
             then exited 0 (lit "/usr/bin/speedtest-cli") []
             else exited 0 [] []
         | _ => exited 0 [] []
         end
       else if jsstr_eqb cmd (lit "speedtest-cli") then cli
       else exited 127 [] [];
     h_runOokla := fun _ => ookla;
     h_SPEEDTEST_BIN := [];
     h_bundled := None |}.

(** The Ookla runner found on the path. *)
Definition ooklaRunner : Runner :=
  {| rn_kind := lit "ookla"; rn_bin := lit "speedtest" |}.

(** The output of a [speedtest-cli] run of 93.5 Mbps down and 11.2 Mbps
    up. *)
Definition cliText : jsstr :=
  txt "{'download':93500000,'upload':11200000,'ping':14}".

Section RunOokla.

Variable syntaxErrorText : jsstr -> jsstr.
Variable h : Host.
Variable timeoutMs : Z.

(** The branch of [runSpeedtest] for [ookla] with its nested calls
    written out: the fallback runner is always one for
    [speedtest-cli], so that a nested call is [runSpeedtestCli]. *)
Definition runOokla (rn : Runner) : exc Resolved :=
  let r := h_runOokla h (rn_bin rn) in
  let fallback (otherwise : Thrown) : exc Resolved :=
    match findFallbackRunner h with
    | Some fb => runSpeedtestCli syntaxErrorText h timeoutMs fb
    | None => Raise otherwise
    end in
  if c_killed r then
    Raise (ThrowError
             (lit "speedtest timeout after " ++ intText timeoutMs ++ lit "ms"))
  else if c_spawn_error r then
    fallback (ThrowError (lit "speedtest spawn failed: " ++ c_stderr r))
  else if failed r then
    let msg := trim (strOr (strOr (c_stderr r) (c_stdout r)) []) in
    match findFallbackRunner h with
    | Some fb =>
        fbRes <- runSpeedtestCli syntaxErrorText h timeoutMs fb ;;
        Ok (fallbackResult fbRes (c_code r) (ooklaRateLimited r))
    | None =>
        if ooklaRateLimited r then
          Raise (ThrowRateLimit
                   (lit "rate_limited: "
                      ++ strOr (slice msg 0 240) (lit "Limit reached"))
                   (match c_code r with
                    | Some z => if z =? 0 then 173 else z
                    | None => 173
                    end))
        else
          Raise (ThrowError
                   (lit "speedtest exit " ++ codeText (c_code r) ++ lit ": "
                      ++ msg))
    end
  else
    match ooklaParse r with
    | ParseOk j _ =>
        ping <- ooklaPingMs j ;;
        jitter <- ooklaJitterMs j ;;
        down <- sectionToMbps (get j "download") ;;
        up <- sectionToMbps (get j "upload") ;;
        Ok (plainResult (lit "ookla") ping jitter down up)
    | pj =>
        fallback
          (ThrowError
             (lit "speedtest "
                ++ match pjError pj with
                   | Some e => e
                   | None => lit "parse_error"
                   end
                ++ lit ": " ++ pjMessage syntaxErrorText (c_stdout r) pj
                ++ lit " (len=" ++ intText (pjLen pj) ++ lit ")"))
    end.

End RunOokla.

(* ================================================================== *)
(** ** Further vocabulary: noise around an embedded object             *)
(* ================================================================== *)

(** The text [pre], which is followed by [after], is noise that the
    block scan passes at the top level.  It is made of stretches
    without an opening brace or bracket, of the blocks [bs], in this
    order, and of opening braces or brackets that are closed nowhere in
    the text, so that the scan gives them up and goes on behind them.
    No brace or bracket that opens in [pre] is closed in [after]. *)
Inductive noise (after : jsstr) : list jsstr -> jsstr -> Prop :=
| noise_text g :
    noOpen g = true -> noise after [] g
| noise_block g b bs rest :
    noOpen g = true -> isBlock b -> noise after bs rest ->
    noise after (b :: bs) (g ++ b ++ rest)
| noise_open g o bs rest :
    noOpen g = true -> isOpen o = true ->
    scanBlock (o :: rest ++ after) 0 0 false false = None ->
    noise after bs rest ->
    noise after bs (g ++ o :: rest).

(** The score that the selection loop of [extractBestJsonBlock] gives
    to the block [b]; [None] for a block that is not JSON, which the
    loop skips. *)
Definition blockScore (b : jsstr) : option Z :=
  match JSON_parse b with
  | Some obj0 =>
      Some (scoreCandidate (orElse (pickBestSpeedtestResult obj0) obj0))
  | None => None
  end.

(** [b] is not JSON, or scores less than [bound]; at most [bound]. *)
Definition scoresBelow (bound : Z) (b : jsstr) : bool :=
  match blockScore b with
  | Some sc => sc <? bound
  | None => true
  end.

Definition scoresAtMost (bound : Z) (b : jsstr) : bool :=
  match blockScore b with
  | Some sc => sc <=? bound
  | None => true
  end.

(** A text of white space only. *)
Definition isBlank (s : jsstr) : bool := forallb isWhiteSpace s.

(** The texts that [s] starts with, and its contiguous parts. *)
Fixpoint prefixes (s : jsstr) : list jsstr :=
  match s with
  | [] => [[]]
  | c :: s' => [] :: map (cons c) (prefixes s')
  end.

Fixpoint parts (s : jsstr) : list jsstr :=
  match s with
  | [] => [[]]
  | _ :: s' => prefixes s ++ parts s'
  end.

(** Forty log tags in brackets before the measurement; and a
    measurement with a nested [data] object after a word of log text. *)
Definition manyTagsText : jsstr :=
  concat (repeat (lit "[a] ") 40) ++ measurementText.

Definition nestedMeasurementText : jsstr :=
  lit "log " ++ txt "{'download':1,'upload':1,'ping':1,'data':{'a':1}}".

(** A measurement after a log tag, an empty object and a bracket that
    is never closed, and before a trailing tag. *)
Definition taggedText : jsstr :=
  txt "[warn] {} slow [start " ++ measurementText ++ lit " [done]".

(* ================================================================== *)
(** * Properties                                                       *)
(* ================================================================== *)

(* ------------------------------------------------------------------ *)
(** ** The embedding at work                                            *)

Example Number_of_strings :
  Number (VStr (lit " 12.5e1 ")) = JFin 125
  /\ Number (VStr (lit "0x1F")) = JFin 31
  /\ Number (VStr (lit "")) = JFin 0
  /\ Number (VStr (lit "-Infinity")) = JNegInf
  /\ Number (VStr (lit "12px")) = JNaN
  /\ Number (VStr (lit "1e")) = JNaN.
Proof. vm_compute. repeat split. Qed.

Example JSON_parse_accepts :
  JSON_parse (txt " {'a': [1, 2.5e1, true, null], 'b': {'c': 'x\ny'}, 'a': -0} ")
  = Some (JObj [(lit "a", JNum 0);
                (lit "b", JObj [(lit "c", JStr [120; 10; 121]%N)])]).
Proof. vm_compute. reflexivity. Qed.

Example JSON_parse_rejects :
  JSON_parse (txt "[1,]") = None
  /\ JSON_parse (txt "01") = None
  /\ JSON_parse (txt "{'a':1,}") = None
  /\ JSON_parse (txt "'open") = None
  /\ JSON_parse (txt "tru") = None
  /\ JSON_parse (txt "{} {}") = None.
Proof. vm_compute. repeat split. Qed.

(** Brackets inside a string do not count for the block scanner. *)
Example extractJsonBlockFrom_string :
  extractJsonBlockFrom (txt "ab{'}':[1,{}]} c") 2
  = Some (txt "{'}':[1,{}]}", 13%nat).
Proof. vm_compute. reflexivity. Qed.

(** A log line in brackets before the result is skipped. *)
Example safeJsonParse_after_log_line :
  safeJsonParse (txt "[warn] slow start " ++ measurementText)
  = ParseOk measurementObject true.
Proof. vm_compute. reflexivity. Qed.

(** The rate-limited fallback scenario: the primary runner was rate
    limited and the fallback measured 812 Mbps down. *)
Example rate_limited_fallback_run :
  let res :=
    {| r_runner := lit "speedtest-cli";
       r_ping_ms := Some (JFin (152 # 10));
       r_jitter_ms := None;
       r_down_mbps := Some (JFin 812);
       r_up_mbps := Some (JFin (553 # 10));
       r_note := Some (lit "ookla_rate_limited_fallback");
       r_ookla_rate_limited := true |} in
  let st := doRunResolved res 3000 3000 3000 3000 firstRunStarted in
  rateLimitCount st = 1
  /\ rateLimitUntil st = 3000 + 30 * 60 * 1000
  /\ nextRunTs st = rateLimitUntil st
  /\ running st = false
  /\ option_map (fun l => r_down_mbps (l_result l)) (last st)
     = Some (Some (JFin 812))
  /\ lastError st = Some (lit "rate_limited: retry in 30m (fallback used)")
  /\ maxDown st = JFin 1000
  /\ length (history st) = 1%nat.
Proof. vm_compute. repeat split. Qed.


(* ------------------------------------------------------------------ *)
(** ** Numbers                                                          *)

Lemma Qfloor_inject_Z (z : Z) : Qfloor (inject_Z z) = z.
Proof. unfold Qfloor, inject_Z. apply Z.div_1_r. Qed.

Lemma Qeq_bool_inject_Z (a b : Z) :
  Qeq_bool (inject_Z a) (inject_Z b) = (a =? b).
Proof.
  unfold Qeq_bool, inject_Z; simpl. now rewrite !Z.mul_1_r.
Qed.

Lemma num_truthy_inject_Z (z : Z) :
  num_truthy (JFin (inject_Z z)) = negb (z =? 0).
Proof. simpl. change 0%Q with (inject_Z 0). now rewrite Qeq_bool_inject_Z. Qed.

(* ------------------------------------------------------------------ *)
(** ** Rate-limit backoff                                               *)

Lemma computeRateLimitBackoffMs_index (c : Z) :
  1 <= c ->
  computeRateLimitBackoffMs (JFin (inject_Z c))
  = nth (Z.to_nat (Z.min 4 (c - 1))) backoffSteps 0.
Proof.
  intros Hc. unfold computeRateLimitBackoffMs.
  rewrite num_truthy_inject_Z.
  replace (c =? 0) with false by (symmetry; apply Z.eqb_neq; lia).
  cbn [negb]. rewrite Qfloor_inject_Z.
  replace (Z.max 1 c) with c by lia. reflexivity.
Qed.

(** C6.  With hit count [c >= 1] the backoff is the [c]-th entry of the
    table 30 min, 1 h, 2 h, 4 h, 6 h while [c <= 5], and 6 h once
    [c >= 5]; it grows strictly from each count below 5 to the next and
    no longer changes from count 5 on. *)
Theorem computeRateLimitBackoffMs_steps (c : Z) (Hc : 1 <= c) :
  (c <= 5 ->
   computeRateLimitBackoffMs (JFin (inject_Z c))
   = nth (Z.to_nat (c - 1))
         [1800000; 3600000; 7200000; 14400000; 21600000] 0)
  /\ (5 <= c -> computeRateLimitBackoffMs (JFin (inject_Z c)) = 21600000)
  /\ (c < 5 ->
      computeRateLimitBackoffMs (JFin (inject_Z c))
      < computeRateLimitBackoffMs (JFin (inject_Z (c + 1))))
  /\ (5 <= c ->
      computeRateLimitBackoffMs (JFin (inject_Z (c + 1)))
      = computeRateLimitBackoffMs (JFin (inject_Z c))).
Proof.
  rewrite !computeRateLimitBackoffMs_index by lia.
  repeat split; intros H.
  - replace (Z.min 4 (c - 1)) with (c - 1) by lia. reflexivity.
  - replace (Z.min 4 (c - 1)) with 4 by lia. reflexivity.
  - assert (Hcases : c = 1 \/ c = 2 \/ c = 3 \/ c = 4) by lia.
    destruct Hcases as [-> | [-> | [-> | ->]]]; vm_compute; reflexivity.
  - replace (Z.min 4 (c + 1 - 1)) with 4 by lia.
    replace (Z.min 4 (c - 1)) with 4 by lia. reflexivity.
Qed.

Lemma computeRateLimitBackoffMs_steps_witness :
  computeRateLimitBackoffMs (JFin (inject_Z 3)) = 7200000
  /\ computeRateLimitBackoffMs (JFin (inject_Z 3))
     < computeRateLimitBackoffMs (JFin (inject_Z 4)).
Proof.
  destruct (computeRateLimitBackoffMs_steps 3 ltac:(lia)) as (H1 & _ & H3 & _).
  split; [apply H1; lia | apply H3; lia].
Defined.

(* ------------------------------------------------------------------ *)
(** ** Gauge buckets                                                    *)

Lemma gaugeSteps_sorted : StronglySorted Z.le gaugeSteps.
Proof. unfold gaugeSteps. repeat constructor; lia. Qed.

Lemma firstStep_least (q : Q) (steps : list Z) (s : Z) :
  StronglySorted Z.le steps ->
  firstStep (JFin q) steps = Some s ->
  In s steps /\ (q <= inject_Z s)%Q
  /\ forall s', In s' steps -> (q <= inject_Z s')%Q -> s <= s'.
Proof.
  induction steps as [| a rest IH]; intros Hsorted Hfirst; [discriminate |].
  apply StronglySorted_inv in Hsorted as [Hrest Ha].
  cbn [firstStep num_leb] in Hfirst.
  destruct (Qle_bool q (inject_Z a)) eqn:Hle.
  - injection Hfirst as <-. apply Qle_bool_iff in Hle.
    repeat split; [now left | assumption |].
    intros s' [<- | Hin] _; [lia |].
    rewrite Forall_forall in Ha. now apply Ha.
  - destruct (IH Hrest Hfirst) as (Hin & Hq & Hmin).
    repeat split; [now right | assumption |].
    intros s' [<- | Hin'] Hq'.
    + apply Qle_bool_iff in Hq'. congruence.
    + now apply Hmin.
Qed.

Lemma firstStep_none (q : Q) (steps : list Z) :
  firstStep (JFin q) steps = None ->
  Forall (fun s => (inject_Z s < q)%Q) steps.
Proof.
  induction steps as [| a rest IH]; intros Hnone; [constructor |].
  cbn [firstStep num_leb] in Hnone.
  destruct (Qle_bool q (inject_Z a)) eqn:Hle; [discriminate |].
  constructor; [| now apply IH].
  apply Qnot_le_lt. intros Hq. apply Qle_bool_iff in Hq. congruence.
Qed.


Lemma niceGaugeMaxBucket_positive (q : Q) (fallback : jsnum) :
  (0 < q)%Q ->
  niceGaugeMaxBucket (VNum (JFin q)) fallback = JFin (inject_Z (bucketOf q)).
Proof.
  intros Hq. unfold niceGaugeMaxBucket, bucketOf. cbn [Number Number_isFinite num_gtb andb].
  replace (Qle_bool q 0) with false.
  - cbn [negb]. now destruct (firstStep (JFin q) gaugeSteps).
  - symmetry. apply not_true_is_false. intros H. apply Qle_bool_iff in H.
    apply (Qlt_irrefl 0). now apply Qlt_le_trans with q.
Qed.

Lemma Qceiling_thousand_bounds (q : Q) :
  (q <= inject_Z (Qceiling (q / 1000) * 1000))%Q
  /\ (inject_Z (Qceiling (q / 1000) * 1000) < q + 1000)%Q.
Proof.
  pose proof (Qle_ceiling (q / 1000)) as Hle.
  pose proof (Qceiling_lt (q / 1000)) as Hlt.
  rewrite inject_Z_mult.
  assert (Hq : (q == q / 1000 * 1000)%Q) by (field).
  split.
  - rewrite Hq at 1. apply Qmult_le_compat_r; [assumption | discriminate].
  - assert (H1 : (inject_Z (Qceiling (q / 1000)) < q / 1000 + 1)%Q). 
    { unfold Z.sub in Hlt. rewrite inject_Z_plus in Hlt.
      change (inject_Z (- (1))) with (- (1))%Q in Hlt.
      apply Qplus_lt_l with (z := (- (1))%Q). 
      setoid_replace (q / 1000 + 1 + - (1))%Q with (q / 1000)%Q by ring.
      exact Hlt. }
    apply Qmult_lt_compat_r with (z := 1000%Q) in H1; [| reflexivity].
    setoid_replace ((q / 1000 + 1) * 1000)%Q with (q + 1000)%Q in H1 by field.
    exact H1.
Qed.

(** What the bucket of a positive value is: the least step that is not
    below the value, or beyond the table the next multiple of 1000. *)
Lemma bucketOf_spec (q : Q) :
  (0 < q)%Q ->
  (q <= inject_Z (bucketOf q))%Q
  /\ 25 <= bucketOf q
  /\ ((q <= 5000)%Q ->
      In (bucketOf q) gaugeSteps
      /\ forall s, In s gaugeSteps -> (q <= inject_Z s)%Q -> bucketOf q <= s)
  /\ ((5000 < q)%Q ->
      bucketOf q = Qceiling (q / 1000) * 1000
      /\ (inject_Z (bucketOf q) < q + 1000)%Q).
Proof.
  intros Hpos. unfold bucketOf.
  destruct (firstStep (JFin q) gaugeSteps) as [s |] eqn:Hfirst.
  - destruct (firstStep_least _ _ _ gaugeSteps_sorted Hfirst) as (Hin & Hq & Hmin).
    repeat split; try assumption.
    + pose proof gaugeSteps_sorted as Hs.
      unfold gaugeSteps in Hs, Hin. apply StronglySorted_inv in Hs as [_ Hs].
      destruct Hin as [<- | Hin]; [lia |].
      rewrite Forall_forall in Hs. now apply Hs.
    + exfalso. assert (H5000 : s <= 5000).
      { unfold gaugeSteps in Hin. cbn in Hin. intuition lia. }
      apply (Qlt_irrefl q). apply Qle_lt_trans with (inject_Z 5000); [| assumption].
      apply Qle_trans with (inject_Z s); [assumption |].
      now rewrite <- Zle_Qle.
    + exfalso. assert (H5000 : s <= 5000).
      { unfold gaugeSteps in Hin. cbn in Hin. intuition lia. }
      apply (Qlt_irrefl q). apply Qle_lt_trans with (inject_Z 5000); [| assumption].
      apply Qle_trans with (inject_Z s); [assumption |].
      now rewrite <- Zle_Qle.
  - apply firstStep_none in Hfirst.
    assert (H5000 : (inject_Z 5000 < q)%Q).
    { rewrite Forall_forall in Hfirst. apply Hfirst. unfold gaugeSteps.
      cbn. intuition. }
    destruct (Qceiling_thousand_bounds q) as [Hle Hlt].
    assert (Hfar : (q <= 5000)%Q -> False).
    { intros Hq. apply (Qlt_irrefl q).
      now apply Qle_lt_trans with (inject_Z 5000). }
    split; [assumption |]. split; [| split].
    + rewrite Zle_Qle. apply Qle_trans with (inject_Z 5000).
      * now rewrite <- Zle_Qle.
      * apply Qlt_le_weak. now apply Qlt_le_trans with q.
    + intros Hq. now destruct Hfar.
    + intros _. now split.
Qed.


Lemma niceGaugeMaxBucket_fallback (v : jsval) (fallback : jsnum) :
  noObservation v ->
  niceGaugeMaxBucket v fallback
  = match firstStep fallback gaugeSteps with
    | Some s => JFin (inject_Z s)
    | None => ceilThousand fallback
    end.
Proof.
  unfold noObservation, niceGaugeMaxBucket. intros Hv.
  destruct (Number v) as [q | | |]; cbn [Number_isFinite andb]; try reflexivity.
  cbn [num_gtb]. apply Qle_bool_iff in Hv. now rewrite Hv.
Qed.

(** C9.  137 Mbps gives the bucket 150, the smallest entry of the step
    table that is not below 137; a value that is 0 or not finite gives
    the bucket of the fallback: 250 for the download default, 50 for the
    upload default. *)
Theorem niceGaugeMaxBucket_scenario (v : jsval)
  (Hv : Number_isFinite (Number v) = false
        \/ exists q, Number v = JFin q /\ (q == 0)%Q) :
  (forall fallback,
      niceGaugeMaxBucket (VNum (JFin 137)) fallback = JFin 150)
  /\ (In 150 gaugeSteps
      /\ forall s, In s gaugeSteps -> 137 <= s -> 150 <= s)
  /\ niceGaugeMaxBucket v (JFin 250) = JFin 250
  /\ niceGaugeMaxBucket v (JFin 50) = JFin 50.
Proof.
  assert (Hno : noObservation v).
  { unfold noObservation. destruct Hv as [Hv | (q & -> & Hq)].
    - now destruct (Number v).
    - rewrite Hq. apply Qle_refl. }
  split; [| split; [split |]].
  - intros fallback. now rewrite niceGaugeMaxBucket_positive.
  - unfold gaugeSteps. cbn. intuition.
  - unfold gaugeSteps. cbn. intros s Hin Hs. intuition lia.
  - now rewrite !niceGaugeMaxBucket_fallback.
Qed.

Lemma niceGaugeMaxBucket_scenario_witness :
  niceGaugeMaxBucket (VNum (JFin 137)) (JFin 250) = JFin 150
  /\ niceGaugeMaxBucket (VNum JNaN) (JFin 250) = JFin 250
  /\ niceGaugeMaxBucket (VNum (JFin 0)) (JFin 50) = JFin 50.
Proof.
  destruct (niceGaugeMaxBucket_scenario (VNum JNaN) (or_introl eq_refl))
    as (H137 & _ & Hdown & _).
  destruct (niceGaugeMaxBucket_scenario (VNum (JFin 0))
              (or_intror (ex_intro _ 0%Q (conj eq_refl (Qeq_refl 0)))))
    as (_ & _ & _ & Hup).
  split; [apply H137 | split; [exact Hdown | exact Hup]].
Defined.

(* ------------------------------------------------------------------ *)
(** ** Controller: interval, history, single flight, rate limit         *)

Lemma clampInt_range (n : jsval) (lo hi : Z) :
  lo <= hi -> lo <= clampInt n lo hi <= hi.
Proof. intros H. unfold clampInt. destruct (Number n); lia. Qed.

Lemma setIntervalMin_interval (m : jsval) (now tSnap : Z) (st : state) :
  intervalMin (snd (setIntervalMin m now tSnap st)) = clampInt m 0 1440
  /\ interval_min (fst (setIntervalMin m now tSnap st)) = clampInt m 0 1440
  /\ nextRunTs (snd (setIntervalMin m now tSnap st))
     = (if clampInt m 0 1440 =? 0 then 0 else now + clampInt m 0 1440 * 60 * 1000).
Proof. repeat split. Qed.

(** C10.  [setIntervalMin(m)] always returns a snapshot.  When
    [Number(m)] is not finite the interval becomes 0, which disables
    scheduling: no next run is planned and [tick] does nothing.  When
    [Number(m)] is finite the interval becomes its floor clamped into
    0..1440. *)
Theorem setIntervalMin_clamps (m : jsval) (now tSnap : Z) (st : state) :
  interval_min (fst (setIntervalMin m now tSnap st))
  = intervalMin (snd (setIntervalMin m now tSnap st))
  /\ 0 <= intervalMin (snd (setIntervalMin m now tSnap st)) <= 1440
  /\ (Number_isFinite (Number m) = false ->
      intervalMin (snd (setIntervalMin m now tSnap st)) = 0
      /\ next_run_ts (fst (setIntervalMin m now tSnap st)) = 0
      /\ forall t tRun,
          tick t tRun (snd (setIntervalMin m now tSnap st))
          = (snd (setIntervalMin m now tSnap st), false))
  /\ (forall q,
      Number m = JFin q ->
      intervalMin (snd (setIntervalMin m now tSnap st))
      = Z.max 0 (Z.min 1440 (Qfloor q))).
Proof.
  destruct (setIntervalMin_interval m now tSnap st) as (Hi & Hs & Hn).
  split; [congruence |]. split; [rewrite Hi; now apply clampInt_range |].
  split.
  - intros Hnf.
    assert (H0 : clampInt m 0 1440 = 0).
    { unfold clampInt. now destruct (Number m). }
    split; [congruence |]. split.
    + change (next_run_ts (fst (setIntervalMin m now tSnap st)))
        with (nextRunTs (snd (setIntervalMin m now tSnap st))).
      rewrite Hn, H0. reflexivity.
    + intros t tRun. unfold tick. rewrite Hi, H0. reflexivity.
  - intros q Hq. rewrite Hi. unfold clampInt. now rewrite Hq.
Qed.

Example setIntervalMin_not_a_number :
  clampInt (VNum JNaN) 0 1440 = 0
  /\ clampInt VUndefined 0 1440 = 0
  /\ clampInt (VStr (lit "soon")) 0 1440 = 0
  /\ clampInt (VNum JPosInf) 0 1440 = 0
  /\ clampInt (VNum (JFin (15 # 2))) 0 1440 = 7
  /\ clampInt (VNum (JFin 2000)) 0 1440 = 1440
  /\ clampInt (VNum (JFin (-3))) 0 1440 = 0.
Proof. vm_compute. repeat split. Qed.

Lemma In_skipn {A : Type} (n : nat) (l : list A) (x : A) :
  In x (skipn n l) -> In x l.
Proof.
  revert l. induction n as [| n IH]; intros [| a l] Hin; cbn in *; auto.
Qed.

Lemma pruneHistory_window (now : Z) (st : state) :
  Forall (fun it => now - HISTORY_24H_MS <= h_ts it)
         (history (pruneHistory now st))
  /\ (length (history (pruneHistory now st)) <= 5000)%nat.
Proof.
  unfold pruneHistory. cbn [history set_history].
  set (kept := filter _ (history st)).
  assert (Hkept : Forall (fun it => now - HISTORY_24H_MS <= h_ts it) kept).
  { apply Forall_forall. intros it Hin. apply filter_In in Hin as [_ Hin].
    now apply Z.leb_le. }
  destruct (Nat.ltb_spec 5000 (length kept)) as [Hlong | Hshort].
  - split.
    + apply Forall_forall. intros it Hin. apply In_skipn in Hin.
      rewrite Forall_forall in Hkept. now apply Hkept.
    + rewrite length_skipn. lia.
  - now split.
Qed.

(** C8.  The [history_24h] of a snapshot, whether returned by
    [snapshot], [runNow] or [setIntervalMin], is the pruned history: it
    holds no entry older than 24 hours before the clock value read by
    the prune, and at most 5000 entries. *)
Theorem snapshot_history_pruned (st : state) (now tRun tSnap : Z) (m : jsval) :
  let recent (t : Z) (h : list HistoryEntry) :=
    Forall (fun it => t - 24 * 60 * 60 * 1000 <= h_ts it) h
    /\ (length h <= 5000)%nat in
  recent now (history (pruneHistory now st))
  /\ recent now (history_24h (fst (snapshot now st)))
  /\ history (snd (snapshot now st)) = history_24h (fst (snapshot now st))
  /\ recent tSnap (history_24h (fst (fst (runNow now tRun tSnap st))))
  /\ recent tSnap (history_24h (fst (setIntervalMin m now tSnap st))).
Proof.
  cbv zeta. change (24 * 60 * 60 * 1000) with HISTORY_24H_MS.
  split; [apply pruneHistory_window |].
  split; [apply pruneHistory_window |].
  split; [reflexivity |].
  split.
  - unfold runNow. destruct (rateLimited now st).
    + apply pruneHistory_window.
    + destruct (running st); cbn [negb]; [| unfold doRun; destruct (running st)];
        apply pruneHistory_window.
  - apply pruneHistory_window.
Qed.

(** C5.  While a run is in flight ([running] is true), [doRun] returns
    at its guard with the state untouched, and neither [runNow] nor
    [tick] starts a run; outside a rate-limit window [runNow] is
    exactly [snapshot]. *)
Theorem single_flight (st : state) (Hrun : running st = true) :
  (forall t, doRun t st = (st, false))
  /\ (forall now tRun tSnap,
        snd (runNow now tRun tSnap st) = false
        /\ running (snd (fst (runNow now tRun tSnap st))) = true
        /\ s_running (fst (fst (runNow now tRun tSnap st))) = true
        /\ (rateLimited now st = false ->
            runNow now tRun tSnap st = (snapshot tSnap st, false)))
  /\ (forall now tRun,
        snd (tick now tRun st) = false
        /\ running (fst (tick now tRun st)) = true).
Proof.
  split; [| split].
  - intros t. unfold doRun. now rewrite Hrun.
  - intros now tRun tSnap. unfold runNow.
    destruct (rateLimited now st).
    + cbn. unfold deferToRateLimit. cbn.
      destruct (_ || _); cbn; rewrite Hrun; repeat split; discriminate.
    + rewrite Hrun. cbn. rewrite Hrun. repeat split.
  - intros now tRun. unfold tick.
    destruct (intervalMin st =? 0); [now split |].
    destruct (rateLimited now st).
    + unfold deferToRateLimit. destruct (_ || _); now split.
    + destruct (nextRunTs st =? 0); cbn; rewrite Hrun;
        rewrite andb_false_r; now split.
Qed.

Lemma single_flight_witness :
  running firstRunStarted = true
  /\ doRun 3000 firstRunStarted = (firstRunStarted, false)
  /\ runNow 3000 3000 3000 firstRunStarted
     = (snapshot 3000 firstRunStarted, false).
Proof.
  destruct (single_flight firstRunStarted eq_refl) as (Hdo & Hnow & _).
  split; [reflexivity |]. split; [apply Hdo |].
  apply (Hnow 3000 3000 3000). reflexivity.
Defined.

Lemma rateLimited_inside (now : Z) (st : state) :
  0 <= now -> now < rateLimitUntil st -> rateLimited now st = true.
Proof.
  intros Hnow Hlim. unfold rateLimited.
  apply andb_true_intro. split.
  - apply negb_true_iff, Z.eqb_neq. lia.
  - now apply Z.ltb_lt.
Qed.

Lemma deferToRateLimit_bound (st : state) :
  0 < rateLimitUntil st ->
  rateLimitUntil (deferToRateLimit st) = rateLimitUntil st
  /\ rateLimitUntil st <= nextRunTs (deferToRateLimit st).
Proof.
  intros Hpos. unfold deferToRateLimit.
  destruct (Z.eqb_spec (nextRunTs st) 0); cbn [orb].
  - cbn. lia.
  - destruct (Z.ltb_spec (nextRunTs st) (rateLimitUntil st)); cbn; lia.
Qed.

Lemma Qceiling_minutes (ms : Z) :
  Qceiling (inject_Z ms / 60000) = (ms + 59999) / 60000.
Proof.
  unfold Qceiling, Qfloor, Qdiv, Qmult, Qinv, Qopp, inject_Z; cbn.
  rewrite Z.mul_1_r.
  pose proof (Z.div_mod ms 60000 ltac:(lia)) as Hms.
  pose proof (Z.mod_pos_bound ms 60000 ltac:(lia)) as Hr.
  set (k := ms / 60000) in *. set (r := ms mod 60000) in *.
  destruct (Z.eq_dec r 0) as [Hr0 | Hr0].
  - replace (- ms) with ((- k) * 60000) by lia.
    replace (ms + 59999) with (k * 60000 + 59999) by lia.
    rewrite Z.div_mul by lia.
    rewrite (Z.div_add_l k 60000 59999) by lia.
    change (59999 / 60000) with 0. lia.
  - replace (- ms) with ((- k - 1) * 60000 + (60000 - r)) by lia.
    replace (ms + 59999) with ((k + 1) * 60000 + (r - 1)) by lia.
    rewrite !Z.div_add_l by lia.
    rewrite (Z.div_small (60000 - r)) by lia.
    rewrite (Z.div_small (r - 1)) by lia. lia.
Qed.

(** [fmtMin] prints the number of started minutes. *)
Lemma fmtMin_minutes (ms : Z) :
  0 <= ms -> fmtMin ms = decimalOf ((ms + 59999) / 60000) ++ lit "m".
Proof.
  intros Hms. unfold fmtMin. rewrite Z.max_r by lia.
  now rewrite Qceiling_minutes.
Qed.

(** C7.  Inside a rate-limit window ([0 <= now < rate_limit_until])
    [runNow] starts nothing: it returns a snapshot whose [last_error] is
    the text [rate_limited: retry in Nm], where [N] is the remaining
    wait in started minutes, and it leaves [running] as it was. *)
Theorem runNow_inside_rate_limit (now tRun tSnap : Z) (st : state)
  (Hnow : 0 <= now) (Hlim : now < rateLimitUntil st) :
  snd (runNow now tRun tSnap st) = false
  /\ last_error (fst (fst (runNow now tRun tSnap st)))
     = Some (lit "rate_limited: " ++ lit "retry in"
               ++ lit " " ++ fmtMin (rateLimitUntil st - now))
  /\ fmtMin (rateLimitUntil st - now)
     = decimalOf ((rateLimitUntil st - now + 59999) / 60000) ++ lit "m"
  /\ running (snd (fst (runNow now tRun tSnap st))) = running st
  /\ s_running (fst (fst (runNow now tRun tSnap st))) = running st
  /\ progress (snd (fst (runNow now tRun tSnap st))) = progress st.
Proof.
  unfold runNow. rewrite (rateLimited_inside now st Hnow Hlim).
  split; [reflexivity |]. split; [| split; [apply fmtMin_minutes; lia |]].
  - cbn [fst snd snapshot last_error pruneHistory].
    unfold deferToRateLimit. now destruct (_ || _).
  - unfold deferToRateLimit. destruct (_ || _); repeat split.
Qed.

Lemma runNow_inside_rate_limit_witness :
  snd (runNow 1000 1000 1000 limitedStart) = false
  /\ last_error (fst (fst (runNow 1000 1000 1000 limitedStart)))
     = Some (lit "rate_limited: retry in 167m")
  /\ running (snd (fst (runNow 1000 1000 1000 limitedStart))) = false.
Proof.
  destruct (runNow_inside_rate_limit 1000 1000 1000 limitedStart
              ltac:(lia) ltac:(reflexivity))
    as (Hnone & Herr & _ & Hrun & _).
  split; [exact Hnone |]. split; [rewrite Herr; vm_compute; reflexivity |].
  rewrite Hrun. reflexivity.
Defined.

(** C1 as stated fails: after [setIntervalMin(5)] inside the window the
    next run is planned five minutes ahead, before the window ends; and
    with the interval at 0, [tick] leaves [next_run_ts] at 0. *)
Lemma next_run_before_window_end :
  reachable limitedStart
  /\ 1000 < rateLimitUntil limitedStart
  /\ rateLimitUntil (snd (setIntervalMin (VNum (JFin 5)) 1000 1000 limitedStart))
     = 10000000
  /\ nextRunTs (snd (setIntervalMin (VNum (JFin 5)) 1000 1000 limitedStart))
     = 301000
  /\ rateLimitUntil (fst (tick 1000 1000 limitedStart)) = 10000000
  /\ nextRunTs (fst (tick 1000 1000 limitedStart)) = 0.
Proof.
  split; [apply reachable_init |]. vm_compute. repeat split.
Qed.

(** [setIntervalMin] plans the next run from now whatever the window;
    the next [tick] inside the window restores the bound when the
    interval is not 0. *)
Lemma setIntervalMin_then_tick (m : jsval) (now tSnap t tRun : Z) (st : state) :
  rateLimitUntil (snd (setIntervalMin m now tSnap st)) = rateLimitUntil st
  /\ nextRunTs (snd (setIntervalMin m now tSnap st))
     = (if clampInt m 0 1440 =? 0 then 0
        else now + clampInt m 0 1440 * 60 * 1000)
  /\ (0 <= t -> t < rateLimitUntil st -> clampInt m 0 1440 <> 0 ->
      rateLimitUntil st
      <= nextRunTs (fst (tick t tRun (snd (setIntervalMin m now tSnap st))))).
Proof.
  split; [reflexivity |]. split; [reflexivity |].
  intros Ht Htlim Hm. unfold tick.
  set (st' := snd (setIntervalMin m now tSnap st)).
  assert (Hi : intervalMin st' = clampInt m 0 1440) by reflexivity.
  assert (Hu : rateLimitUntil st' = rateLimitUntil st) by reflexivity.
  destruct (Z.eqb_spec (intervalMin st') 0) as [E | _]; [congruence |].
  rewrite (rateLimited_inside t st' Ht) by (rewrite Hu; exact Htlim).
  cbn [fst]. rewrite <- Hu. apply deferToRateLimit_bound. lia.
Qed.

(** C1, amended.  Inside a rate-limit window
    ([0 <= now < rate_limit_until]): after [runNow], and after [tick]
    when the interval is not 0, the window is unchanged and
    [next_run_ts >= rate_limit_until]; [tick] with the interval at 0
    changes nothing. *)
Theorem next_run_after_window_end (now : Z) (st : state)
  (Hnow : 0 <= now) (Hlim : now < rateLimitUntil st) :
  (forall tRun tSnap,
      rateLimitUntil (snd (fst (runNow now tRun tSnap st))) = rateLimitUntil st
      /\ rateLimitUntil st <= nextRunTs (snd (fst (runNow now tRun tSnap st)))
      /\ rateLimitUntil st <= next_run_ts (fst (fst (runNow now tRun tSnap st))))
  /\ (forall tRun,
      intervalMin st <> 0 ->
      rateLimitUntil (fst (tick now tRun st)) = rateLimitUntil st
      /\ rateLimitUntil st <= nextRunTs (fst (tick now tRun st)))
  /\ (forall tRun, intervalMin st = 0 -> tick now tRun st = (st, false)).
Proof.
  assert (Hpos : 0 < rateLimitUntil st) by lia.
  split; [| split].
  - intros tRun tSnap. unfold runNow.
    rewrite (rateLimited_inside now st Hnow Hlim).
    cbn [fst snd snapshot next_run_ts pruneHistory].
    match goal with
    | |- context [deferToRateLimit ?s] =>
        destruct (deferToRateLimit_bound s Hpos) as [Hu Hn]
    end.
    cbn [rateLimitUntil nextRunTs set_history] in *.
    change (rateLimitUntil (set_lastError _ st)) with (rateLimitUntil st) in *.
    repeat split; assumption.
  - intros tRun Hint. unfold tick.
    destruct (Z.eqb_spec (intervalMin st) 0) as [| _]; [contradiction |].
    rewrite (rateLimited_inside now st Hnow Hlim). cbn [fst].
    now apply deferToRateLimit_bound.
  - intros tRun Hint. unfold tick. now rewrite Hint.
Qed.

Lemma next_run_after_window_end_witness :
  10000000 <= nextRunTs (snd (fst (runNow 1000 1000 1000 limitedStart)))
  /\ tick 1000 1000 limitedStart = (limitedStart, false).
Proof.
  destruct (next_run_after_window_end 1000 limitedStart
              ltac:(lia) ltac:(reflexivity)) as (Hrun & _ & Htick).
  split.
  - apply (Hrun 1000 1000).
  - apply Htick. reflexivity.
Defined.

(* ------------------------------------------------------------------ *)
(** ** Gauge hints after a run                                          *)

Lemma num_sne_sym (a b : jsnum) : num_sne a b = num_sne b a.
Proof.
  destruct a as [p | | |], b as [q | | |]; cbn; try reflexivity.
  f_equal. destruct (Qeq_bool p q) eqn:E1, (Qeq_bool q p) eqn:E2; try reflexivity.
  - apply Qeq_bool_iff in E1. symmetry in E1. apply Qeq_bool_iff in E1. congruence.
  - apply Qeq_bool_iff in E2. symmetry in E2. apply Qeq_bool_iff in E2. congruence.
Qed.

Lemma num_seq_refl_fin (q : Q) : num_seq (JFin q) (JFin q) = true.
Proof.
  unfold num_seq; cbn. rewrite negb_involutive. apply Qeq_bool_iff. reflexivity.
Qed.

(** The assignment [if (next && next !== max) max = next] leaves a value
    that is [===] to [next] whenever [next] is a positive bucket. *)
Lemma gauge_assign (b : Z) (old : jsnum) :
  b <> 0 ->
  num_seq
    (if num_truthy (JFin (inject_Z b)) && num_sne (JFin (inject_Z b)) old
     then JFin (inject_Z b) else old)
    (JFin (inject_Z b)) = true.
Proof.
  intros Hb. rewrite num_truthy_inject_Z.
  replace (b =? 0) with false by (symmetry; now apply Z.eqb_neq).
  cbn [negb andb].
  destruct (num_sne (JFin (inject_Z b)) old) eqn:Hne.
  - apply num_seq_refl_fin.
  - unfold num_seq. now rewrite num_sne_sym, Hne.
Qed.

Lemma enterRateLimit_keeps (now backoffMs : Z) (msg : jsstr) (st : state) :
  progressDown (enterRateLimit now backoffMs msg st) = progressDown st
  /\ progressUp (enterRateLimit now backoffMs msg st) = progressUp st
  /\ maxDown (enterRateLimit now backoffMs msg st) = maxDown st
  /\ maxUp (enterRateLimit now backoffMs msg st) = maxUp st.
Proof.
  unfold enterRateLimit, deferToRateLimit, progressDown, progressUp.
  destruct (progress st) as [p |] eqn:Hp;
    destruct (_ || _); cbn; rewrite ?Hp; cbn; repeat split; now rewrite Hp.
Qed.

Lemma finish_keeps (f : Progress -> Progress) (st : state) :
  let st' :=
    set_running false
      (match progress st with
       | Some p => set_progress (Some (f p)) st
       | None => st
       end) in
  maxDown st' = maxDown st /\ maxUp st' = maxUp st.
Proof. cbv zeta. destruct (progress st); repeat split. Qed.

(** The two gauge assignments of [doRun], isolated. *)
Lemma doRunResolved_gauge (res : RunResult) (tLimit tLast tPush tDone : Z)
  (st : state) :
  let nextDown :=
    niceGaugeMaxBucket (numOrNull (observedDown res st)) (JFin 250) in
  let nextUp :=
    niceGaugeMaxBucket (numOrNull (observedUp res st)) (JFin 50) in
  maxDown (doRunResolved res tLimit tLast tPush tDone st)
  = (if num_truthy nextDown && num_sne nextDown (maxDown st)
     then nextDown else maxDown st)
  /\ maxUp (doRunResolved res tLimit tLast tPush tDone st)
     = (if num_truthy nextUp && num_sne nextUp (maxUp st)
        then nextUp else maxUp st).
Proof.
  cbv zeta. unfold doRunResolved, observedDown, observedUp,
    progressDown, progressUp.
  set (st1 := if r_ookla_rate_limited res then _ else st).
  assert (H1 : progressDown st1 = progressDown st
               /\ progressUp st1 = progressUp st
               /\ maxDown st1 = maxDown st /\ maxUp st1 = maxUp st).
  { subst st1. destruct (r_ookla_rate_limited res);
      [apply enterRateLimit_keeps | repeat split]. }
  set (st2 := if negb (r_ookla_rate_limited res) && _ then _ else st1).
  assert (H2 : progress st2 = progress st1
               /\ maxDown st2 = maxDown st1 /\ maxUp st2 = maxUp st1).
  { subst st2. destruct (_ && _); repeat split. }
  destruct H1 as (Hd & Hu & Hmd & Hmu). destruct H2 as (Hp & Hmd2 & Hmu2).
  unfold progressDown, progressUp in Hd, Hu. rewrite <- Hp in Hd, Hu.
  rewrite <- Hmd, <- Hmu, <- Hmd2, <- Hmu2.
  clearbody st2. clear Hp Hmd Hmu Hmd2 Hmu2 st1.
  rewrite <- Hd, <- Hu. clear Hd Hu.
  set (final := match progress st2 with Some p => _ | None => res end).
  assert (Hfd : r_down_mbps final
                = orNull (r_down_mbps res)
                    (match progress st2 with
                     | Some p => p_down_mbps p | None => None end)).
  { subst final. destruct (progress st2); [reflexivity |].
    now destruct (r_down_mbps res). }
  assert (Hfu : r_up_mbps final
                = orNull (r_up_mbps res)
                    (match progress st2 with
                     | Some p => p_up_mbps p | None => None end)).
  { subst final. destruct (progress st2); [reflexivity |].
    now destruct (r_up_mbps res). }
  rewrite <- Hfd, <- Hfu. clearbody final.
  match goal with
  | |- maxDown (set_running false
                  (match progress ?s with
                   | Some p => set_progress (Some (@?f p)) _
                   | None => _ end)) = _ /\ _ =>
      destruct (finish_keeps f s) as [Ha Hb]
  end.
  cbv zeta in Ha, Hb. rewrite Ha, Hb. clear Ha Hb.
  set (nd := niceGaugeMaxBucket (numOrNull (r_down_mbps final)) (JFin 250)).
  set (nu := niceGaugeMaxBucket (numOrNull (r_up_mbps final)) (JFin 50)).
  cbn [pushHistory pruneHistory set_history set_runnerName set_last
       maxDown maxUp].
  destruct (num_truthy nd && num_sne nd (maxDown st2));
    cbn [maxUp maxDown set_maxDown];
    destruct (num_truthy nu && num_sne nu (maxUp st2));
    split; reflexivity.
Qed.

Lemma niceGaugeMaxBucket_default (v : jsval) (default : Z) :
  In default gaugeSteps ->
  noObservation v ->
  niceGaugeMaxBucket v (JFin (inject_Z default)) = JFin (inject_Z default).
Proof.
  intros Hin Hno. rewrite niceGaugeMaxBucket_fallback by assumption.
  unfold gaugeSteps in Hin. cbn in Hin.
  repeat (destruct Hin as [<- | Hin]; [reflexivity |]). contradiction.
Qed.

Lemma hint_assigned (observed : option jsnum) (default : Z) (old : jsnum) :
  In default gaugeSteps ->
  let next := niceGaugeMaxBucket (numOrNull observed) (JFin (inject_Z default)) in
  hintFor observed default
    (if num_truthy next && num_sne next old then next else old).
Proof.
  intros Hin. cbv zeta.
  assert (Hdefault : default <> 0).
  { unfold gaugeSteps in Hin. cbn in Hin. intuition lia. }
  assert (Hno : forall v, noObservation v ->
            num_seq
              (if num_truthy (niceGaugeMaxBucket v (JFin (inject_Z default)))
                  && num_sne (niceGaugeMaxBucket v (JFin (inject_Z default))) old
               then niceGaugeMaxBucket v (JFin (inject_Z default)) else old)
              (JFin (inject_Z default)) = true).
  { intros v Hv. rewrite niceGaugeMaxBucket_default by assumption.
    now apply gauge_assign. }
  unfold hintFor. destruct observed as [[q | | |] |];
    try (apply Hno; cbn; first [exact I | apply Qle_refl]).
  split.
  - intros Hq. exists (bucketOf q).
    destruct (bucketOf_spec q Hq) as (Hle & H25 & Hsmall & Hbig).
    split; [exact (conj Hle (conj Hsmall Hbig)) |].
    cbn [numOrNull]. rewrite niceGaugeMaxBucket_positive by assumption.
    apply gauge_assign. lia.
  - intros Hq. apply Hno. exact Hq.
Qed.

(** C4 as stated fails: the hint after the later run (100) is below the
    hint after the earlier run (1000); and the bucket of 7200 Mbps is
    8000, which is no entry of the step table. *)
Lemma gauge_hint_decreases :
  reachable afterSlowRun
  /\ max_down_mbps (fst (snapshot 3500 afterFastRun)) = JFin 1000
  /\ max_down_mbps (fst (snapshot 5500 afterSlowRun)) = JFin 100
  /\ num_leb (maxDown afterFastRun) (maxDown afterSlowRun) = false
  /\ niceGaugeMaxBucket (VNum (JFin 7200)) (JFin 250) = JFin 8000
  /\ forallb (fun s => negb (s =? 8000)) gaugeSteps = true.
Proof.
  split.
  - unfold afterSlowRun. apply reachable_step with secondRunStarted;
      [| now apply step_resolved].
    unfold secondRunStarted. eapply reachable_step; [| apply step_runNow].
    unfold afterFastRun. apply reachable_step with firstRunStarted;
      [| now apply step_resolved].
    unfold firstRunStarted. eapply reachable_step; [| apply step_runNow].
    apply reachable_init.
  - vm_compute. repeat split.
Qed.

(** C4, amended.  After every completed run the two gauge hints are the
    buckets of that run's recorded throughput: for a finite positive
    value the bucket is not below it and is, up to 5000, the least
    entry of the step table with that property and, beyond 5000, the
    next multiple of 1000; without such a value the hint is the default
    (250 down, 50 up).  The hints follow the latest run only. *)
Theorem gauge_hints_after_run (res : RunResult)
  (tLimit tLast tPush tDone : Z) (st : state) :
  hintFor (observedDown res st) 250
          (maxDown (doRunResolved res tLimit tLast tPush tDone st))
  /\ hintFor (observedUp res st) 50
             (maxUp (doRunResolved res tLimit tLast tPush tDone st)).
Proof.
  destruct (doRunResolved_gauge res tLimit tLast tPush tDone st) as [Hd Hu].
  cbv zeta in Hd, Hu. rewrite Hd, Hu.
  split; apply hint_assigned; unfold gaugeSteps; cbn; intuition.
Qed.

(* ------------------------------------------------------------------ *)
(** ** JSON values                                                      *)

Lemma jsstr_eqb_refl (s : jsstr) : jsstr_eqb s s = true.
Proof. induction s as [| c s IH]; cbn; [reflexivity |]. now rewrite N.eqb_refl. Qed.

Section JsonInduction.
Variable P : json -> Prop.
Hypothesis Hnull : P JNull.
Hypothesis Hbool : forall b, P (JBool b).
Hypothesis Hnum : forall q, P (JNum q).
Hypothesis Hstr : forall s, P (JStr s).
Hypothesis Harr : forall items, Forall P items -> P (JArr items).
Hypothesis Hobj :
  forall m, Forall (fun kv => P (snd kv)) m -> P (JObj m).

Fixpoint json_nested_ind (v : json) : P v :=
  match v with
  | JNull => Hnull
  | JBool b => Hbool b
  | JNum q => Hnum q
  | JStr s => Hstr s
  | JArr items =>
      Harr items
        ((fix all (l : list json) : Forall P l :=
            match l with
            | [] => Forall_nil P
            | x :: l' => Forall_cons x (json_nested_ind x) (all l')
            end) items)
  | JObj m =>
      Hobj m
        ((fix all (l : list (jsstr * json))
            : Forall (fun kv => P (snd kv)) l :=
            match l with
            | [] => Forall_nil _
            | kv :: l' =>
                Forall_cons kv (json_nested_ind (snd kv)) (all l')
            end) m)
  end.
End JsonInduction.

Lemma json_eqb_refl (v : json) : json_eqb v v = true.
Proof.
  induction v as [| b | q | s | items IH | m IH] using json_nested_ind; cbn.
  - reflexivity.
  - apply Bool.eqb_reflx.
  - apply Qeq_bool_iff. reflexivity.
  - apply jsstr_eqb_refl.
  - induction IH as [| x l Hx _ IHl]; [reflexivity |].
    now rewrite Hx, IHl.
  - induction IH as [| [k x] l Hx _ IHl]; [reflexivity |].
    cbn in Hx. now rewrite jsstr_eqb_refl, Hx, IHl.
Qed.

Lemma pickBestSpeedtestResult_keptWhole (v : json) :
  keptWhole v = true ->
  orElse (pickBestSpeedtestResult v) v = v
  /\ (optTruthy (pickBestSpeedtestResult v)
      && match pickBestSpeedtestResult v with
         | Some p => negb (json_eqb p v)
         | None => false
         end) = false.
Proof.
  destruct v as [| b | q | s | items | m]; cbn [keptWhole]; intros Hkept;
    try (now split); try discriminate.
  assert (Hpick : pickBestSpeedtestResult (JObj m) = Some (JObj m)).
  { cbn [pickBestSpeedtestResult].
    destruct (typeIsResult (JObj m)); [reflexivity |].
    cbn [orb] in Hkept. now destruct (innerKey (JObj m)). }
  rewrite Hpick. cbn [orElse truthy optTruthy andb].
  split; [reflexivity |]. now rewrite json_eqb_refl.
Qed.

Lemma JSON_parse_nonempty (s : jsstr) (v : json) :
  JSON_parse s = Some v -> isEmpty s = false.
Proof. destruct s; [discriminate | reflexivity]. Qed.

(** C2 as stated fails: a well-formed document with a nested [data]
    object is replaced by that nested object. *)
Lemma well_formed_json_replaced :
  JSON_parse (txt "{'data':{'a':1}}")
  = Some (JObj [(lit "data", JObj [(lit "a", JNum 1)])])
  /\ safeJsonParse (txt "{'data':{'a':1}}")
     = ParseOk (JObj [(lit "a", JNum 1)]) true
  /\ json_eqb (JObj [(lit "a", JNum 1)])
              (JObj [(lit "data", JObj [(lit "a", JNum 1)])]) = false.
Proof. vm_compute. repeat split. Qed.

Lemma safeJsonParse_direct (text : jsstr) (parsed : json) :
  JSON_parse (trim text) = Some parsed ->
  safeJsonParse text
  = ParseOk (orElse (pickBestSpeedtestResult parsed) parsed)
            (optTruthy (pickBestSpeedtestResult parsed)
             && match pickBestSpeedtestResult parsed with
                | Some p => negb (json_eqb p parsed)
                | None => false
                end).
Proof.
  intros Hparsed. unfold safeJsonParse.
  now rewrite (JSON_parse_nonempty _ _ Hparsed), Hparsed.
Qed.

Lemma safeJsonParse_kept (text : jsstr) (parsed : json) :
  JSON_parse (trim text) = Some parsed -> keptWhole parsed = true ->
  safeJsonParse text = ParseOk parsed false.
Proof.
  intros Hparsed Hkept. rewrite (safeJsonParse_direct text parsed Hparsed).
  now destruct (pickBestSpeedtestResult_keptWhole parsed Hkept) as [-> ->].
Qed.

(** C2, amended.  For every input that is well-formed JSON,
    [safeJsonParse] returns [ok] with
    [pickBestSpeedtestResult(parsed) || parsed]; this is the parsed
    document itself, not flagged as salvaged, when the document is a
    scalar or an object that has type [result] or no nested [result] or
    [data] object. *)
Theorem safeJsonParse_well_formed (text : jsstr) (parsed : json)
  (Hparsed : JSON_parse (trim text) = Some parsed) :
  (exists salvaged,
      safeJsonParse text
      = ParseOk (orElse (pickBestSpeedtestResult parsed) parsed) salvaged)
  /\ (keptWhole parsed = true -> safeJsonParse text = ParseOk parsed false).
Proof.
  split.
  - eexists. now apply safeJsonParse_direct.
  - now apply safeJsonParse_kept.
Qed.

Lemma safeJsonParse_well_formed_witness :
  safeJsonParse ([32%N] ++ measurementText ++ [10%N])
  = ParseOk measurementObject false.
Proof.
  apply (safeJsonParse_well_formed ([32%N] ++ measurementText ++ [10%N])
           measurementObject); vm_compute; reflexivity.
Defined.

(* ------------------------------------------------------------------ *)
(** ** The block scanner against the JSON grammar                       *)

(** Reduces the character literals of a goal to their codes and decides
    the comparisons between them. *)
Ltac codes :=
  repeat match goal with
    | |- context [ch ?a] =>
        let v := eval vm_compute in (ch a) in change (ch a) with v
    | H : context [ch ?a] |- _ =>
        let v := eval vm_compute in (ch a) in change (ch a) with v in H
    end;
  unfold QUOTE, BACKSLASH, LBRACE, RBRACE, LBRACKET, RBRACKET, COMMA, COLON in *;
  repeat match goal with
    | |- context [ch ?a] =>
        let v := eval vm_compute in (ch a) in change (ch a) with v
    | H : context [ch ?a] |- _ =>
        let v := eval vm_compute in (ch a) in change (ch a) with v in H
    end.

Ltac ncases :=
  repeat match goal with
    | |- context [(?a =? ?b)%N] => destruct (N.eqb_spec a b)
    | |- context [(?a <=? ?b)%N] => destruct (N.leb_spec a b)
    | |- context [(?a <? ?b)%N] => destruct (N.ltb_spec a b)
    | H : context [(?a =? ?b)%N] |- _ => destruct (N.eqb_spec a b)
    | H : context [(?a <=? ?b)%N] |- _ => destruct (N.leb_spec a b)
    | H : context [(?a <? ?b)%N] |- _ => destruct (N.ltb_spec a b)
    end.

Ltac charfacts :=
  unfold isPlain, isOpen, isClose, isNumChar, isHexDigit, isDigit, isJsonWs,
    isWhiteSpace in *;
  codes; ncases; cbn in *; try reflexivity; try discriminate; try lia.

Lemma isNumChar_plain (c : N) : isNumChar c = true -> isPlain c = true.
Proof. intros H. charfacts. Qed.

Lemma isJsonWs_plain (c : N) : isJsonWs c = true -> isPlain c = true.
Proof. intros H. charfacts. Qed.

Lemma isOpen_facts (c : N) :
  isOpen c = true -> (c =? QUOTE)%N = false.
Proof. intros H. charfacts. Qed.

Lemma isClose_facts (c : N) :
  isClose c = true -> (c =? QUOTE)%N = false /\ isOpen c = false.
Proof. intros H. split; charfacts. Qed.

Lemma isPlain_facts (c : N) :
  isPlain c = true ->
  (c =? QUOTE)%N = false /\ isOpen c = false /\ isClose c = false.
Proof.
  unfold isPlain. intros H.
  apply andb_true_iff in H as [H Hc]. apply andb_true_iff in H as [Hq Ho].
  now rewrite negb_true_iff in *.
Qed.

Lemma isHexDigit_facts (c : N) :
  isHexDigit c = true ->
  (c =? BACKSLASH)%N = false /\ (c =? QUOTE)%N = false.
Proof. intros H. split; charfacts. Qed.

(** *** Composition of scanner runs *)

Lemma runs_nil (d : Z) (s e : bool) : runs [] d s e d s e.
Proof. intros k i. reflexivity. Qed.

Lemma runs_app (a b : jsstr) (d d1 d2 : Z) (s s1 s2 e e1 e2 : bool) :
  runs a d s e d1 s1 e1 -> runs b d1 s1 e1 d2 s2 e2 ->
  runs (a ++ b) d s e d2 s2 e2.
Proof.
  intros Ha Hb k i. rewrite <- app_assoc, Ha, Hb, length_app.
  f_equal. lia.
Qed.

Lemma runs_plain_char (c : N) (d : Z) :
  isPlain c = true -> runs [c] d false false d false false.
Proof.
  intros Hc k i. destruct (isPlain_facts c Hc) as (Hq & Ho & Hcl).
  cbn. now rewrite Hq, Ho, Hcl.
Qed.

Lemma runs_plain (c : jsstr) (d : Z) :
  Forall (fun x => isPlain x = true) c -> runs c d false false d false false.
Proof.
  induction 1 as [| x c Hx _ IH]; [apply runs_nil |].
  change (x :: c) with ([x] ++ c).
  eapply runs_app; [now apply runs_plain_char | exact IH].
Qed.

Lemma runs_open (c : N) (d : Z) :
  isOpen c = true -> runs [c] d false false (d + 1) false false.
Proof. intros Hc k i. cbn. now rewrite (isOpen_facts c Hc), Hc. Qed.

Lemma runs_close (c : N) (d : Z) :
  isClose c = true -> d - 1 <> 0 -> runs [c] d false false (d - 1) false false.
Proof.
  intros Hc Hd k i. destruct (isClose_facts c Hc) as [Hq Ho].
  cbn. rewrite Hq, Ho, Hc.
  now destruct (Z.eqb_spec (d - 1) 0).
Qed.

Lemma runs_quote_open (d : Z) : runs [QUOTE] d false false d true false.
Proof. intros k i. reflexivity. Qed.

Lemma inner_nil : inner [].
Proof. intros d _. apply runs_nil. Qed.

Lemma inner_app (a b : jsstr) : inner a -> inner b -> inner (a ++ b).
Proof. intros Ha Hb d Hd. eapply runs_app; [now apply Ha | now apply Hb]. Qed.

Lemma inner_plain (c : jsstr) :
  Forall (fun x => isPlain x = true) c -> inner c.
Proof. intros Hc d _. now apply runs_plain. Qed.

Lemma inner_block (o cl : N) (body : jsstr) :
  isOpen o = true -> isClose cl = true -> inner body ->
  inner (o :: body ++ [cl]).
Proof.
  intros Ho Hcl Hbody d Hd.
  change (o :: body ++ [cl]) with ([o] ++ body ++ [cl]).
  eapply runs_app; [now apply runs_open |].
  eapply runs_app; [apply Hbody; lia |].
  replace d with (d + 1 - 1) at 2 by lia.
  apply runs_close; [assumption | lia].
Qed.

(** A bracketed block found at depth 0 ends the scan at its closing
    bracket. *)
Lemma block_scan (o cl : N) (body k : jsstr) (i : nat) :
  isOpen o = true -> isClose cl = true -> inner body ->
  scanBlock (o :: body ++ cl :: k) i 0 false false
  = Some (length body + 1 + i)%nat.
Proof.
  intros Ho Hcl Hbody. destruct (isClose_facts cl Hcl) as [Hq Hno].
  cbn [scanBlock]. rewrite (isOpen_facts o Ho), Ho.
  rewrite (Hbody (0 + 1) ltac:(lia) (cl :: k) (S i)).
  cbn [scanBlock]. rewrite Hq, Hno, Hcl. cbn. f_equal. lia.
Qed.

(** *** Relating consumed text *)

Lemma eats_refl (s : jsstr) : eats s s.
Proof. exists []. split; [reflexivity | apply inner_nil]. Qed.

Lemma eats_trans (s r t : jsstr) : eats s r -> eats r t -> eats s t.
Proof.
  intros (a & -> & Ha) (b & -> & Hb). exists (a ++ b).
  split; [now rewrite app_assoc | now apply inner_app].
Qed.

Lemma eats_plain_char (c : N) (r : jsstr) : isPlain c = true -> eats (c :: r) r.
Proof.
  intros Hc. exists [c]. split; [reflexivity |].
  apply inner_plain. now constructor.
Qed.

Lemma eats_skipWs (s : jsstr) : eats s (skipWs s).
Proof.
  induction s as [| c s IH]; [apply eats_refl |].
  cbn. destruct (isJsonWs c) eqn:Hc; [| apply eats_refl].
  eapply eats_trans; [| exact IH].
  apply eats_plain_char. now apply isJsonWs_plain.
Qed.

Lemma eatsBlock_eats (s r : jsstr) : eatsBlock s r -> eats s r.
Proof.
  intros (o & body & cl & -> & Ho & Hcl & Hbody).
  exists (o :: body ++ [cl]). split.
  - cbn. now rewrite <- app_assoc.
  - now apply inner_block.
Qed.

Lemma eatsBlock_intro (o cl : N) (s r : jsstr) :
  isOpen o = true -> isClose cl = true -> eats s (cl :: r) ->
  eatsBlock (o :: s) r.
Proof.
  intros Ho Hcl (body & -> & Hbody). now exists o, body, cl.
Qed.

(** *** Strings, scalars *)

Lemma parseString_runs (s : jsstr) :
  forall st acc str r,
    parseString st acc s = Some (str, r) ->
    exists c, s = c ++ QUOTE :: r
              /\ forall d, runs (c ++ [QUOTE]) d true (escOf st) d false false.
Proof.
  induction s as [| x s IH]; intros st acc str r Hparse; [discriminate |].
  assert (Hstep : forall st' acc' e',
             parseString st' acc' s = Some (str, r) ->
             (forall d, runs [x] d true (escOf st) d true e') ->
             escOf st' = e' ->
             exists c, x :: s = c ++ QUOTE :: r
                       /\ forall d, runs (c ++ [QUOTE]) d true (escOf st) d false false).
  { intros st' acc' e' Hrec Hx He.
    destruct (IH _ _ _ _ Hrec) as (c & -> & Hc).
    exists (x :: c). split; [reflexivity |].
    intros d. change ((x :: c) ++ [QUOTE]) with ([x] ++ c ++ [QUOTE]).
    eapply runs_app; [apply Hx |]. rewrite <- He. apply Hc. }
  destruct st as [| | k a]; cbn [parseString] in Hparse.
  - destruct (N.eqb_spec x QUOTE) as [-> | Hq].
    + injection Hparse as <- <-. exists []. split; [reflexivity |].
      intros d k i. reflexivity.
    + destruct (N.eqb_spec x BACKSLASH) as [-> | Hb].
      * apply (Hstep _ _ true Hparse); [| reflexivity].
        intros d k i. reflexivity.
      * destruct (x <? 32)%N; [discriminate |].
        apply (Hstep _ _ false Hparse); [| reflexivity].
        intros d k i. cbn.
        apply N.eqb_neq in Hq, Hb. now rewrite Hq, Hb.
  - assert (Hesc : forall d, runs [x] d true true d true false)
      by (intros d k i; reflexivity).
    cbv zeta in Hparse.
    repeat match type of Hparse with
      | (if ?c then _ else _) = _ =>
          destruct c; [apply (Hstep _ _ false Hparse Hesc); reflexivity |]
      end.
    discriminate.
  - destruct (isHexDigit x) eqn:Hx; [| discriminate].
    destruct (isHexDigit_facts x Hx) as [Hb Hq].
    assert (Hhex : forall d, runs [x] d true false d true false).
    { intros d k' i. cbn. now rewrite Hb, Hq. }
    destruct k as [| [| k']];
      apply (Hstep _ _ false Hparse Hhex); reflexivity.
Qed.

Lemma eats_string (s str r : jsstr) :
  parseString SNormal [] s = Some (str, r) -> eats (QUOTE :: s) r.
Proof.
  intros Hparse.
  destruct (parseString_runs s _ _ _ _ Hparse) as (c & -> & Hc).
  exists (QUOTE :: c ++ [QUOTE]). split.
  - cbn. now rewrite <- app_assoc.
  - intros d _. change (QUOTE :: c ++ [QUOTE]) with ([QUOTE] ++ c ++ [QUOTE]).
    eapply runs_app; [apply runs_quote_open | apply Hc].
Qed.

Lemma stripPrefix_app (p s r : jsstr) : stripPrefix p s = Some r -> s = p ++ r.
Proof.
  revert s. induction p as [| a p IH]; intros s H; cbn in H.
  - now injection H as ->.
  - destruct s as [| b s]; [discriminate |].
    destruct (N.eqb_spec a b) as [-> |]; [| discriminate].
    cbn. f_equal. now apply IH.
Qed.

Lemma span_app (p : N -> bool) (s a b : jsstr) :
  span p s = (a, b) -> s = a ++ b /\ Forall (fun c => p c = true) a.
Proof.
  revert a b. induction s as [| c s IH]; intros a b H; cbn in H.
  - injection H as <- <-. now split.
  - destruct (p c) eqn:Hc.
    + destruct (span p s) as [a' b'] eqn:Hs. injection H as <- <-.
      destruct (IH _ _ eq_refl) as [-> Ha]. split; [reflexivity |].
      now constructor.
    + injection H as <- <-. now split.
Qed.

Lemma parseScalar_eats (s r : jsstr) (v : json) :
  parseScalar s = Some (v, r) -> eats s r /\ isContainer v = false.
Proof.
  unfold parseScalar. intros H.
  assert (Hlit : forall p, Forall (fun x => isPlain x = true) p ->
                           stripPrefix p s = Some r -> eats s r).
  { intros p Hp Hs. apply stripPrefix_app in Hs as ->.
    exists p. split; [reflexivity | now apply inner_plain]. }
  destruct (stripPrefix (lit "true") s) as [r1 |] eqn:Ht.
  { injection H as <- <-. split; [| reflexivity].
    apply (Hlit (lit "true")); [| assumption]. vm_compute. repeat constructor. }
  destruct (stripPrefix (lit "false") s) as [r2 |] eqn:Hf.
  { injection H as <- <-. split; [| reflexivity].
    apply (Hlit (lit "false")); [| assumption]. vm_compute. repeat constructor. }
  destruct (stripPrefix (lit "null") s) as [r3 |] eqn:Hn.
  { injection H as <- <-. split; [| reflexivity].
    apply (Hlit (lit "null")); [| assumption]. vm_compute. repeat constructor. }
  destruct (span isNumChar s) as [t r4] eqn:Hspan.
  destruct (jsonNumber t); [| discriminate]. injection H as <- <-.
  split; [| reflexivity].
  apply span_app in Hspan as [-> Ht']. exists t. split; [reflexivity |].
  apply inner_plain. eapply Forall_impl; [| exact Ht'].
  intros c. apply isNumChar_plain.
Qed.

(** *** The recursive descent *)

Lemma parseValue_unfold (f : nat) (s : jsstr) :
  parseValue (S f) s
  = match s with
    | [] => None
    | c :: s' =>
        if (c =? LBRACE)%N then
          match skipWs s' with
          | c1 :: r1 =>
              if (c1 =? RBRACE)%N then Some (JObj [], r1)
              else parseMembers f [] (c1 :: r1)
          | [] => None
          end
        else if (c =? LBRACKET)%N then
          match skipWs s' with
          | c1 :: r1 =>
              if (c1 =? RBRACKET)%N then Some (JArr [], r1)
              else parseElements f [] (c1 :: r1)
          | [] => None
          end
        else if (c =? QUOTE)%N then
          match parseString SNormal [] s' with
          | Some (str, r) => Some (JStr str, r)
          | None => None
          end
        else parseScalar s
    end.
Proof. reflexivity. Qed.

Lemma parseElements_unfold (f : nat) (acc : list json) (s : jsstr) :
  parseElements (S f) acc s
  = match parseValue f s with
    | Some (v, r) =>
        match skipWs r with
        | c :: r' =>
            if (c =? COMMA)%N then parseElements f (acc ++ [v]) (skipWs r')
            else if (c =? RBRACKET)%N then Some (JArr (acc ++ [v]), r')
            else None
        | [] => None
        end
    | None => None
    end.
Proof. reflexivity. Qed.

Lemma parseMembers_unfold (f : nat) (acc : list (jsstr * json)) (s : jsstr) :
  parseMembers (S f) acc s
  = match s with
    | c :: s' =>
        if (c =? QUOTE)%N then
          match parseString SNormal [] s' with
          | Some (k, r) =>
              match skipWs r with
              | c1 :: r1 =>
                  if (c1 =? COLON)%N then
                    match parseValue f (skipWs r1) with
                    | Some (v, r2) =>
                        match skipWs r2 with
                        | c2 :: r3 =>
                            if (c2 =? COMMA)%N then
                              parseMembers f (objSet acc k v) (skipWs r3)
                            else if (c2 =? RBRACE)%N then
                              Some (JObj (objSet acc k v), r3)
                            else None
                        | [] => None
                        end
                    | None => None
                    end
                  else None
              | [] => None
              end
          | None => None
          end
        else None
    | [] => None
    end.
Proof. reflexivity. Qed.

Lemma COMMA_plain : isPlain COMMA = true.
Proof. reflexivity. Qed.

Lemma COLON_plain : isPlain COLON = true.
Proof. reflexivity. Qed.

(** What a successful parse says about the text it consumed: the scanner
    steps over it inside a block, and a parsed array or object is a
    bracketed block. *)
Lemma parse_scan (fuel : nat) :
  (forall s v r,
      parseValue fuel s = Some (v, r) ->
      eats s r /\ (isContainer v = true -> eatsBlock s r))
  /\ (forall acc s v r,
         parseElements fuel acc s = Some (v, r) ->
         eats s (RBRACKET :: r) /\ isContainer v = true)
  /\ (forall acc s v r,
         parseMembers fuel acc s = Some (v, r) ->
         eats s (RBRACE :: r) /\ isContainer v = true).
Proof.
  induction fuel as [| f (IHv & IHe & IHm)];
    [repeat split; discriminate |].
  split; [| split].
  - intros s v r H. rewrite parseValue_unfold in H.
    destruct s as [| c s']; [discriminate |].
    destruct (N.eqb_spec c LBRACE) as [-> | Hnb].
    { assert (Hblock : eatsBlock (LBRACE :: s') r /\ isContainer v = true).
      { destruct (skipWs s') as [| c1 r1] eqn:Hws; [discriminate |].
        pose proof (eats_skipWs s') as Hs'. rewrite Hws in Hs'.
        destruct (N.eqb_spec c1 RBRACE) as [-> | Hc1].
        - injection H as <- <-. split; [| reflexivity].
          now apply (eatsBlock_intro LBRACE RBRACE).
        - destruct (IHm _ _ _ _ H) as [Hm Hv]. split; [| assumption].
          apply (eatsBlock_intro LBRACE RBRACE); try reflexivity.
          now apply eats_trans with (c1 :: r1). }
      destruct Hblock as [Hblock _].
      split; [now apply eatsBlock_eats | now intros _]. }
    destruct (N.eqb_spec c LBRACKET) as [-> | Hnk].
    { assert (Hblock : eatsBlock (LBRACKET :: s') r /\ isContainer v = true).
      { destruct (skipWs s') as [| c1 r1] eqn:Hws; [discriminate |].
        pose proof (eats_skipWs s') as Hs'. rewrite Hws in Hs'.
        destruct (N.eqb_spec c1 RBRACKET) as [-> | Hc1].
        - injection H as <- <-. split; [| reflexivity].
          now apply (eatsBlock_intro LBRACKET RBRACKET).
        - destruct (IHe _ _ _ _ H) as [He Hv]. split; [| assumption].
          apply (eatsBlock_intro LBRACKET RBRACKET); try reflexivity.
          now apply eats_trans with (c1 :: r1). }
      destruct Hblock as [Hblock _].
      split; [now apply eatsBlock_eats | now intros _]. }
    destruct (N.eqb_spec c QUOTE) as [-> | Hnq].
    { destruct (parseString SNormal [] s') as [[str r0] |] eqn:Hstr;
        [| discriminate].
      injection H as <- <-. split; [| discriminate].
      now apply eats_string with str. }
    destruct (parseScalar_eats _ _ _ H) as [Heats Hv].
    split; [assumption | congruence].
  - intros acc s v r H. rewrite parseElements_unfold in H.
    destruct (parseValue f s) as [[v0 r0] |] eqn:Hv0; [| discriminate].
    destruct (IHv _ _ _ Hv0) as [Heat0 _].
    destruct (skipWs r0) as [| c r'] eqn:Hws; [discriminate |].
    pose proof (eats_skipWs r0) as Hr0. rewrite Hws in Hr0.
    destruct (N.eqb_spec c COMMA) as [-> | Hc].
    + destruct (IHe _ _ _ _ H) as [He Hv]. split; [| assumption].
      apply eats_trans with r0; [assumption |].
      apply eats_trans with (COMMA :: r'); [assumption |].
      apply eats_trans with r'; [apply eats_plain_char, COMMA_plain |].
      apply eats_trans with (skipWs r'); [apply eats_skipWs | assumption].
    + destruct (N.eqb_spec c RBRACKET) as [-> | Hc']; [| discriminate].
      injection H as <- <-. split; [| reflexivity].
      now apply eats_trans with r0.
  - intros acc s v r H. rewrite parseMembers_unfold in H.
    destruct s as [| c s']; [discriminate |].
    destruct (N.eqb_spec c QUOTE) as [-> | Hc]; [| discriminate].
    destruct (parseString SNormal [] s') as [[k rk] |] eqn:Hkey;
      [| discriminate].
    pose proof (eats_string _ _ _ Hkey) as Hk.
    destruct (skipWs rk) as [| c1 r1] eqn:Hws1; [discriminate |].
    pose proof (eats_skipWs rk) as Hrk. rewrite Hws1 in Hrk.
    destruct (N.eqb_spec c1 COLON) as [-> | Hc1]; [| discriminate].
    destruct (parseValue f (skipWs r1)) as [[v0 r2] |] eqn:Hv0;
      [| discriminate].
    destruct (IHv _ _ _ Hv0) as [Heat0 _].
    destruct (skipWs r2) as [| c2 r3] eqn:Hws2; [discriminate |].
    pose proof (eats_skipWs r2) as Hr2. rewrite Hws2 in Hr2.
    assert (Hhead : eats (QUOTE :: s') (c2 :: r3)).
    { apply eats_trans with rk; [assumption |].
      apply eats_trans with (COLON :: r1); [assumption |].
      apply eats_trans with r1; [apply eats_plain_char, COLON_plain |].
      apply eats_trans with (skipWs r1); [apply eats_skipWs |].
      now apply eats_trans with r2. }
    destruct (N.eqb_spec c2 COMMA) as [-> | Hc2].
    + destruct (IHm _ _ _ _ H) as [Hm Hv]. split; [| assumption].
      apply eats_trans with (COMMA :: r3); [assumption |].
      apply eats_trans with r3; [apply eats_plain_char, COMMA_plain |].
      apply eats_trans with (skipWs r3); [apply eats_skipWs | assumption].
    + destruct (N.eqb_spec c2 RBRACE) as [-> | Hc2']; [| discriminate].
      injection H as <- <-. now split.
Qed.

(** *** From [JSON.parse] to the block found in noisy text *)

Lemma skipWs_nil (s : jsstr) :
  skipWs s = [] -> Forall (fun c => isJsonWs c = true) s.
Proof.
  induction s as [| c s IH]; intros H; [constructor |].
  cbn in H. destruct (isJsonWs c) eqn:Hc; [| discriminate].
  constructor; [assumption | now apply IH].
Qed.

Lemma parseValue_brace_container (f : nat) (s r : jsstr) (v : json) :
  parseValue f (LBRACE :: s) = Some (v, r) -> isContainer v = true.
Proof.
  destruct f as [| f]; [discriminate |].
  rewrite parseValue_unfold. cbn [N.eqb LBRACE].
  change ((ch "{" =? ch "{")%N) with true. cbv iota.
  destruct (skipWs s) as [| c1 r1]; [discriminate |].
  destruct (c1 =? RBRACE)%N.
  - now intros [= <- <-].
  - intros H. now destruct (parse_scan f) as (_ & _ & Hm);
      destruct (Hm _ _ _ _ H).
Qed.

(** A well-formed object text, from its opening to its closing brace,
    is consumed whole by the parser and has a body that the scanner
    steps over. *)
Lemma object_text_parse (body : jsstr) (obj : json) :
  JSON_parse (LBRACE :: body ++ [RBRACE]) = Some obj ->
  parseValue (2 * length (LBRACE :: body ++ [RBRACE]) + 2)
             (LBRACE :: body ++ [RBRACE]) = Some (obj, [])
  /\ inner body.
Proof.
  unfold JSON_parse. change (skipWs (LBRACE :: body ++ [RBRACE]))
    with (LBRACE :: body ++ [RBRACE]).
  destruct (parseValue _ _) as [[v rest] |] eqn:Hparse; [| discriminate].
  destruct (skipWs rest) eqn:Hrest; [| discriminate]. intros [= <-].
  apply skipWs_nil in Hrest.
  match type of Hparse with
  | parseValue ?f _ = _ => destruct (parse_scan f) as (Hv & _ & _)
  end.
  destruct (Hv _ _ _ Hparse) as [_ Hblock].
  destruct (Hblock (parseValue_brace_container _ _ _ _ Hparse))
    as (o & body' & cl & Heq & _ & Hcl & Hinner).
  injection Heq as _ Heq. clear Hparse Hv Hblock.
  induction rest as [| x rest' _] using rev_ind.
  - apply app_inj_tail in Heq as [-> _]. now split.
  - exfalso. apply Forall_app in Hrest as [_ Hx].
    apply Forall_inv in Hx.
    change (cl :: rest' ++ [x]) with ((cl :: rest') ++ [x]) in Heq.
    rewrite app_assoc in Heq. apply app_inj_tail in Heq as [_ <-].
    discriminate.
Qed.

Lemma object_text_inner (body : jsstr) (obj : json) :
  JSON_parse (LBRACE :: body ++ [RBRACE]) = Some obj -> inner body.
Proof. intros H. now apply object_text_parse in H. Qed.

Lemma skipn_app_length {A : Type} (a b : list A) : skipn (length a) (a ++ b) = b.
Proof. induction a as [| x a IH]; [reflexivity | exact IH]. Qed.

Lemma firstn_app_length {A : Type} (a b : list A) : firstn (length a) (a ++ b) = a.
Proof. induction a as [| x a IH]; [reflexivity | cbn; now rewrite IH]. Qed.

Lemma extractJsonBlockFrom_embedded (pre body post : jsstr) :
  inner body ->
  extractJsonBlockFrom (pre ++ (LBRACE :: body ++ [RBRACE]) ++ post)
                       (length pre)
  = Some (LBRACE :: body ++ [RBRACE], (length body + 1 + length pre)%nat).
Proof.
  intros Hbody. unfold extractJsonBlockFrom, slice.
  rewrite skipn_app_length.
  replace ((LBRACE :: body ++ [RBRACE]) ++ post)
    with (LBRACE :: body ++ RBRACE :: post)
    by (cbn; now rewrite <- app_assoc).
  rewrite block_scan by (reflexivity || assumption).
  f_equal. f_equal.
  replace (LBRACE :: body ++ RBRACE :: post)
    with ((LBRACE :: body ++ [RBRACE]) ++ post)
    by (cbn; now rewrite <- app_assoc).
  replace (length body + 1 + length pre + 1 - length pre)%nat
    with (length (LBRACE :: body ++ [RBRACE]))
    by (cbn; rewrite length_app; cbn; lia).
  apply firstn_app_length.
Qed.

Lemma searchOpen_after (pre rest : jsstr) (c : N) :
  noOpen pre = true -> isOpen c = true ->
  searchOpen (pre ++ c :: rest) = Some (length pre).
Proof.
  intros Hpre Hc. induction pre as [| x pre IH]; cbn.
  - now rewrite Hc.
  - cbn in Hpre. apply andb_true_iff in Hpre as [Hx Hpre].
    apply negb_true_iff in Hx. now rewrite Hx, IH.
Qed.

Lemma scoreCandidate_nonneg (v : json) : 0 <= scoreCandidate v.
Proof.
  unfold scoreCandidate.
  repeat match goal with
    | |- context [if ?c then _ else _] => destruct c
    end; lia.
Qed.

(** *** Trimming around the embedded object *)

Lemma trimStart_app (a b : jsstr) (c : N) :
  isWhiteSpace c = false ->
  trimStart (a ++ c :: b) = trimStart a ++ c :: b.
Proof.
  intros Hc. induction a as [| x a IH]; cbn.
  - now rewrite Hc.
  - now destruct (isWhiteSpace x).
Qed.

Lemma trimEnd_app (a b : jsstr) (c : N) :
  isWhiteSpace c = false ->
  trimEnd (a ++ c :: b) = a ++ c :: trimEnd b.
Proof.
  intros Hc. unfold trimEnd. rewrite rev_app_distr. cbn [rev].
  rewrite <- app_assoc. cbn [app]. rewrite trimStart_app by assumption.
  rewrite rev_app_distr. cbn [rev]. rewrite rev_involutive.
  now rewrite <- app_assoc.
Qed.

Lemma trim_embedded (pre body post : jsstr) :
  trim (pre ++ (LBRACE :: body ++ [RBRACE]) ++ post)
  = trimStart pre ++ (LBRACE :: body ++ [RBRACE]) ++ trimEnd post.
Proof.
  unfold trim. cbn [app]. rewrite trimStart_app by reflexivity.
  rewrite <- !app_assoc. cbn [app].
  replace (trimStart pre ++ LBRACE :: body ++ RBRACE :: post)
    with ((trimStart pre ++ LBRACE :: body) ++ RBRACE :: post)
    by (now rewrite <- app_assoc).
  rewrite trimEnd_app by reflexivity. now rewrite <- app_assoc.
Qed.

Lemma noOpen_trimStart (s : jsstr) : noOpen s = true -> noOpen (trimStart s) = true.
Proof.
  induction s as [| c s IH]; [reflexivity |]. intros H. cbn.
  destruct (isWhiteSpace c); [| assumption].
  cbn in H. apply andb_true_iff in H as [_ H]. now apply IH.
Qed.



(* ------------------------------------------------------------------ *)
(** ** The fuel of the loops is never the limit                         *)

Lemma scanBlock_ge (s : jsstr) :
  forall i d a b e, scanBlock s i d a b = Some e -> (i <= e)%nat.
Proof.
  induction s as [| c s IH]; intros i d a b e H; [discriminate |].
  cbn [scanBlock] in H.
  repeat match type of H with
    | (if ?x then _ else _) = _ => destruct x
    end;
    try (apply IH in H; lia).
  injection H as <-. lia.
Qed.

Lemma extractJsonBlockFrom_ge (s block : jsstr) (start e : nat) :
  extractJsonBlockFrom s start = Some (block, e) -> (start <= e)%nat.
Proof.
  unfold extractJsonBlockFrom.
  destruct (scanBlock _ _ _ _ _) as [e' |] eqn:H; [| discriminate].
  intros [= _ <-]. now apply scanBlock_ge in H.
Qed.

(** [collectBlocks] gives the same blocks with any fuel above the
    number of code units left: the bound of the [while] loop is its own
    condition [pos < s.length], never the fuel. *)
Lemma collectBlocks_fuel (f1 : nat) :
  forall f2 s pos blocks,
    (length s - pos < f1)%nat -> (length s - pos < f2)%nat ->
    collectBlocks f1 s pos blocks = collectBlocks f2 s pos blocks.
Proof.
  induction f1 as [| f1 IH]; intros f2 s pos blocks H1 H2; [lia |].
  destruct f2 as [| f2]; [lia |]. cbn [collectBlocks].
  destruct (Nat.ltb_spec pos (length s)) as [Hpos |]; [| reflexivity].
  destruct (length blocks <? 40)%nat; [| reflexivity]. cbn [andb].
  destruct (searchOpen (skipn pos s)) as [rel |]; [| reflexivity].
  destruct (extractJsonBlockFrom s (pos + rel)) as [[block e] |] eqn:Hblock.
  - apply extractJsonBlockFrom_ge in Hblock. apply IH; lia.
  - apply IH; lia.
Qed.

Lemma eats_length (s r : jsstr) : eats s r -> (length r <= length s)%nat.
Proof. intros (c & -> & _). rewrite length_app. lia. Qed.

Lemma skipWs_length (s : jsstr) : (length (skipWs s) <= length s)%nat.
Proof. apply eats_length, eats_skipWs. Qed.

Lemma parseString_length (s : jsstr) :
  forall st acc str r,
    parseString st acc s = Some (str, r) -> (length r < length s)%nat.
Proof.
  intros st acc str r H.
  destruct (parseString_runs s _ _ _ _ H) as (c & -> & _).
  rewrite length_app. cbn. lia.
Qed.

Lemma parseValue_length (f : nat) (s r : jsstr) (v : json) :
  parseValue f s = Some (v, r) -> (length r <= length s)%nat.
Proof.
  intros H. destruct (parse_scan f) as (Hv & _ & _).
  now apply eats_length, (Hv _ _ _ H).
Qed.

Lemma parseElements_length (f : nat) (acc : list json) (s r : jsstr) (v : json) :
  parseElements f acc s = Some (v, r) -> (length r < length s)%nat.
Proof.
  intros H. destruct (parse_scan f) as (_ & He & _).
  destruct (He _ _ _ _ H) as [Heats _]. apply eats_length in Heats.
  cbn in Heats. lia.
Qed.

Lemma parseMembers_length (f : nat) (acc : list (jsstr * json))
  (s r : jsstr) (v : json) :
  parseMembers f acc s = Some (v, r) -> (length r < length s)%nat.
Proof.
  intros H. destruct (parse_scan f) as (_ & _ & Hm).
  destruct (Hm _ _ _ _ H) as [Heats _]. apply eats_length in Heats.
  cbn in Heats. lia.
Qed.

(** A parse that succeeds with some fuel succeeds, with the same result,
    with any fuel above twice the number of code units it consumes. *)
Lemma parse_fuel (f : nat) :
  (forall s v r,
      parseValue f s = Some (v, r) ->
      forall f', (2 * (length s - length r) + 1 <= f')%nat ->
                 parseValue f' s = Some (v, r))
  /\ (forall acc s v r,
         parseElements f acc s = Some (v, r) ->
         forall f', (2 * (length s - length r) + 2 <= f')%nat ->
                    parseElements f' acc s = Some (v, r))
  /\ (forall acc s v r,
         parseMembers f acc s = Some (v, r) ->
         forall f', (2 * (length s - length r) + 2 <= f')%nat ->
                    parseMembers f' acc s = Some (v, r)).
Proof.
  induction f as [| f (IHv & IHe & IHm)]; [repeat split; discriminate |].
  split; [| split].
  - intros s v r H f' Hf'.
    destruct f' as [| f']; [lia |].
    rewrite parseValue_unfold in H |- *.
    destruct s as [| c s']; [discriminate |].
    destruct (c =? LBRACE)%N.
    { pose proof (skipWs_length s') as Hws.
      destruct (skipWs s') as [| c1 r1]; [discriminate |].
      destruct (c1 =? RBRACE)%N; [assumption |].
      pose proof (parseMembers_length _ _ _ _ _ H) as Hlen.
      apply (IHm _ _ _ _ H). cbn [length] in *. lia. }
    destruct (c =? LBRACKET)%N.
    { pose proof (skipWs_length s') as Hws.
      destruct (skipWs s') as [| c1 r1]; [discriminate |].
      destruct (c1 =? RBRACKET)%N; [assumption |].
      pose proof (parseElements_length _ _ _ _ _ H) as Hlen.
      apply (IHe _ _ _ _ H). cbn [length] in *. lia. }
    assumption.
  - intros acc s v r H f' Hf'.
    destruct f' as [| f']; [lia |].
    rewrite parseElements_unfold in H |- *.
    destruct (parseValue f s) as [[v0 r0] |] eqn:Hv0; [| discriminate].
    pose proof (parseValue_length _ _ _ _ Hv0) as Hlen0.
    pose proof (skipWs_length r0) as Hws.
    assert (Hrest : (length r < length (skipWs r0))%nat).
    { destruct (skipWs r0) as [| c r']; [discriminate |].
      destruct (c =? COMMA)%N.
      - apply parseElements_length in H.
        pose proof (skipWs_length r'). cbn [length]. lia.
      - destruct (c =? RBRACKET)%N; [| discriminate].
        injection H as _ <-. cbn [length]. lia. }
    rewrite (IHv _ _ _ Hv0 f') by lia.
    destruct (skipWs r0) as [| c r']; [discriminate |].
    destruct (c =? COMMA)%N; [| assumption].
    pose proof (skipWs_length r') as Hws'.
    pose proof (parseElements_length _ _ _ _ _ H) as Hlen.
    apply (IHe _ _ _ _ H). cbn [length] in *. lia.
  - intros acc s v r H f' Hf'.
    destruct f' as [| f']; [lia |].
    rewrite parseMembers_unfold in H |- *.
    destruct s as [| c s']; [discriminate |].
    destruct (c =? QUOTE)%N; [| discriminate].
    destruct (parseString SNormal [] s') as [[k rk] |] eqn:Hkey;
      [| discriminate].
    pose proof (parseString_length _ _ _ _ _ Hkey) as Hlenk.
    pose proof (skipWs_length rk) as Hws1.
    destruct (skipWs rk) as [| c1 r1]; [discriminate |].
    destruct (c1 =? COLON)%N; [| discriminate].
    pose proof (skipWs_length r1) as Hws2.
    destruct (parseValue f (skipWs r1)) as [[v0 r2] |] eqn:Hv0;
      [| discriminate].
    pose proof (parseValue_length _ _ _ _ Hv0) as Hlen0.
    pose proof (skipWs_length r2) as Hws3.
    assert (Hrest : (length r < length (skipWs r2))%nat).
    { destruct (skipWs r2) as [| c2 r3]; [discriminate |].
      destruct (c2 =? COMMA)%N.
      - apply parseMembers_length in H.
        pose proof (skipWs_length r3). cbn [length]. lia.
      - destruct (c2 =? RBRACE)%N; [| discriminate].
        injection H as _ <-. cbn [length]. lia. }
    rewrite (IHv _ _ _ Hv0 f') by (cbn [length] in *; lia).
    destruct (skipWs r2) as [| c2 r3]; [discriminate |].
    destruct (c2 =? COMMA)%N; [| assumption].
    pose proof (skipWs_length r3) as Hws4.
    pose proof (parseMembers_length _ _ _ _ _ H) as Hlen.
    apply (IHm _ _ _ _ H). cbn [length] in *. lia.
Qed.

(** [JSON_parse] is given enough fuel: when it rejects a text, no
    amount of fuel makes the recursive descent accept it. *)
Lemma JSON_parse_fuel (f : nat) (s : jsstr) (v : json) (rest : jsstr) :
  parseValue f (skipWs s) = Some (v, rest) ->
  parseValue (2 * length s + 2) (skipWs s) = Some (v, rest).
Proof.
  intros H. destruct (parse_fuel f) as (Hv & _ & _).
  apply (Hv _ _ _ H). pose proof (skipWs_length s). lia.
Qed.

(* ------------------------------------------------------------------ *)
(** ** Parsing a text that is followed by more text                     *)

Lemma parseString_extend (s : jsstr) :
  forall st acc str r k,
    parseString st acc s = Some (str, r) ->
    parseString st acc (s ++ k) = Some (str, r ++ k).
Proof.
  induction s as [| x s IH]; intros st acc str r k H; [discriminate |].
  cbn [app]. destruct st as [| | n a]; cbn [parseString] in H |- *.
  - destruct (x =? QUOTE)%N; [now injection H as <- <- |].
    destruct (x =? BACKSLASH)%N; [now apply IH |].
    destruct (x <? 32)%N; [discriminate | now apply IH].
  - cbv zeta in H |- *.
    repeat match type of H with
      | (if ?c then _ else _) = _ => destruct c; [now apply IH |]
      end.
    discriminate.
  - destruct (isHexDigit x); [| discriminate].
    destruct n as [| [| n']]; now apply IH.
Qed.

Lemma span_extend (p : N -> bool) (s : jsstr) :
  forall a r k,
    span p s = (a, r) -> r <> [] -> span p (s ++ k) = (a, r ++ k).
Proof.
  induction s as [| c s IH]; intros a r k H Hr; cbn in H.
  - injection H as <- <-. contradiction.
  - cbn [app span]. destruct (p c).
    + destruct (span p s) as [a' r'] eqn:Hs. injection H as <- <-.
      now rewrite (IH _ _ k eq_refl Hr).
    + now injection H as <- <-.
Qed.

Lemma stripPrefix_extend (p s r k : jsstr) :
  stripPrefix p s = Some r -> stripPrefix p (s ++ k) = Some (r ++ k).
Proof.
  revert s. induction p as [| a p IH]; intros s H; cbn in H.
  - now injection H as ->.
  - destruct s as [| b s]; [discriminate |]. cbn [app stripPrefix].
    destruct (a =? b)%N; [now apply IH | discriminate].
Qed.

Lemma skipWs_extend (s r k : jsstr) (c : N) :
  skipWs s = c :: r -> skipWs (s ++ k) = c :: r ++ k.
Proof.
  induction s as [| x s IH]; intros H; [discriminate |].
  cbn [app skipWs] in H |- *. destruct (isJsonWs x); [now apply IH |].
  now injection H as <- <-.
Qed.

Lemma jsonNumber_nonempty (t : jsstr) (q : Q) :
  jsonNumber t = Some q -> exists c t', t = c :: t' /\ isNumChar c = true.
Proof.
  destruct t as [| c t']; [discriminate |]. intros H.
  exists c, t'. split; [reflexivity |].
  assert (Hc : isNumChar c = true).
  { unfold jsonNumber in H. cbn [takeSign] in H.
    destruct (c =? ch "-")%N eqn:Hm.
    - unfold isNumChar. now rewrite Hm, !orb_true_r.
    - cbn [andb] in H. cbn [span] in H.
      destruct (isDigit c) eqn:Hd.
      + unfold isNumChar. now rewrite Hd.
      + discriminate. }
  assumption.
Qed.

Lemma parseScalar_extend (s r k : jsstr) (v : json) :
  parseScalar s = Some (v, r) -> r <> [] ->
  parseScalar (s ++ k) = Some (v, r ++ k).
Proof.
  unfold parseScalar. intros H Hr.
  destruct (stripPrefix (lit "true") s) as [r1 |] eqn:Ht.
  { injection H as <- <-. now rewrite (stripPrefix_extend _ _ _ k Ht). }
  destruct (stripPrefix (lit "false") s) as [r2 |] eqn:Hf.
  { injection H as <- <-.
    destruct (stripPrefix (lit "true") (s ++ k)) eqn:Ht'.
    - exfalso. apply stripPrefix_app in Hf as ->.
      cbn in Ht'. discriminate.
    - now rewrite (stripPrefix_extend _ _ _ k Hf). }
  destruct (stripPrefix (lit "null") s) as [r3 |] eqn:Hn.
  { injection H as <- <-. apply stripPrefix_app in Hn as Hs. subst s.
    cbn. reflexivity. }
  destruct (span isNumChar s) as [t r4] eqn:Hspan.
  destruct (jsonNumber t) as [q |] eqn:Hnum; [| discriminate].
  injection H as <- <-.
  destruct (jsonNumber_nonempty _ _ Hnum) as (c & t' & -> & Hc).
  apply span_app in Hspan as Hs. destruct Hs as [-> _].
  rewrite <- app_assoc.
  assert (Hnolit : forall p, (hd 0%N p =? c)%N = false -> p <> [] ->
                     stripPrefix p ((c :: t') ++ r4 ++ k) = None).
  { intros p Hp Hne. destruct p as [| a p]; [contradiction |].
    cbn in Hp |- *. now rewrite Hp. }
  assert (Hne : forall x, x <> c -> (x =? c)%N = false)
    by (intros x Hx; now apply N.eqb_neq).
  rewrite !Hnolit;
    try discriminate;
    try (apply Hne; intros E; vm_compute in E; subst c;
         vm_compute in Hc; discriminate Hc).
  rewrite app_assoc.
  rewrite (span_extend isNumChar _ _ _ k Hspan Hr).
  now rewrite Hnum.
Qed.

Lemma skipWs_app_nonempty (s k : jsstr) :
  skipWs s <> [] -> skipWs (s ++ k) = skipWs s ++ k.
Proof.
  intros H. destruct (skipWs s) as [| c r] eqn:Hs; [contradiction |].
  now apply skipWs_extend.
Qed.

(** A parse is not disturbed by text that follows the part it consumed,
    as long as the parsed value is delimited: an array, an object, or
    any value that is followed by something. *)
Lemma parse_extend (f : nat) :
  (forall s v r k,
      parseValue f s = Some (v, r) ->
      isContainer v = true \/ r <> [] ->
      parseValue f (s ++ k) = Some (v, r ++ k))
  /\ (forall acc s v r k,
         parseElements f acc s = Some (v, r) ->
         parseElements f acc (s ++ k) = Some (v, r ++ k))
  /\ (forall acc s v r k,
         parseMembers f acc s = Some (v, r) ->
         parseMembers f acc (s ++ k) = Some (v, r ++ k)).
Proof.
  induction f as [| f (IHv & IHe & IHm)]; [repeat split; discriminate |].
  split; [| split].
  - intros s v r k H Hdelim.
    rewrite parseValue_unfold in H |- *.
    destruct s as [| c s']; [discriminate |]. cbn [app].
    destruct (c =? LBRACE)%N.
    { destruct (skipWs s') as [| c1 r1] eqn:Hws; [discriminate |].
      rewrite (skipWs_extend _ _ k _ Hws).
      destruct (c1 =? RBRACE)%N; [now injection H as <- <- |].
      now apply (IHm _ _ _ _ k) in H. }
    destruct (c =? LBRACKET)%N.
    { destruct (skipWs s') as [| c1 r1] eqn:Hws; [discriminate |].
      rewrite (skipWs_extend _ _ k _ Hws).
      destruct (c1 =? RBRACKET)%N; [now injection H as <- <- |].
      now apply (IHe _ _ _ _ k) in H. }
    destruct (c =? QUOTE)%N.
    { destruct (parseString SNormal [] s') as [[str r0] |] eqn:Hstr;
        [| discriminate].
      injection H as <- <-.
      now rewrite (parseString_extend _ _ _ _ _ k Hstr). }
    destruct (parseScalar_eats _ _ _ H) as [_ Hv].
    change (c :: s' ++ k) with ((c :: s') ++ k).
    apply parseScalar_extend; [assumption |].
    destruct Hdelim as [Hc | Hr]; [congruence | assumption].
  - intros acc s v r k H.
    rewrite parseElements_unfold in H |- *.
    destruct (parseValue f s) as [[v0 r0] |] eqn:Hv0; [| discriminate].
    destruct (skipWs r0) as [| c r'] eqn:Hws; [discriminate |].
    assert (Hr0 : r0 <> []) by (intros ->; discriminate).
    rewrite (IHv _ _ _ k Hv0 (or_intror Hr0)).
    rewrite (skipWs_extend _ _ k _ Hws).
    destruct (c =? COMMA)%N.
    + assert (Hne : skipWs r' <> []).
      { apply parseElements_length in H. intros E. rewrite E in H.
        cbn in H. lia. }
      rewrite (skipWs_app_nonempty _ k Hne). now apply IHe.
    + destruct (c =? RBRACKET)%N; [| discriminate].
      now injection H as <- <-.
  - intros acc s v r k H.
    rewrite parseMembers_unfold in H |- *.
    destruct s as [| c s']; [discriminate |]. cbn [app].
    destruct (c =? QUOTE)%N; [| discriminate].
    destruct (parseString SNormal [] s') as [[key rk] |] eqn:Hkey;
      [| discriminate].
    rewrite (parseString_extend _ _ _ _ _ k Hkey).
    destruct (skipWs rk) as [| c1 r1] eqn:Hws1; [discriminate |].
    rewrite (skipWs_extend _ _ k _ Hws1).
    destruct (c1 =? COLON)%N; [| discriminate].
    destruct (parseValue f (skipWs r1)) as [[v0 r2] |] eqn:Hv0;
      [| discriminate].
    destruct (skipWs r2) as [| c2 r3] eqn:Hws2; [discriminate |].
    assert (Hr2 : r2 <> []) by (intros ->; discriminate).
    assert (Hne1 : skipWs r1 <> []).
    { intros E. rewrite E in Hv0. destruct f; discriminate. }
    rewrite (skipWs_app_nonempty _ k Hne1).
    rewrite (IHv _ _ _ k Hv0 (or_intror Hr2)).
    rewrite (skipWs_extend _ _ k _ Hws2).
    destruct (c2 =? COMMA)%N.
    + assert (Hne : skipWs r3 <> []).
      { apply parseMembers_length in H. intros E. rewrite E in H.
        cbn in H. lia. }
      rewrite (skipWs_app_nonempty _ k Hne). now apply IHm.
    + destruct (c2 =? RBRACE)%N; [| discriminate].
      now injection H as <- <-.
Qed.

(* ------------------------------------------------------------------ *)
(** ** A direct parse of text that embeds an object                     *)

Lemma skipWs_split (s : jsstr) :
  exists ws, s = ws ++ skipWs s /\ Forall (fun c => isJsonWs c = true) ws.
Proof.
  induction s as [| c s (ws & Hs & Hws)]; [now exists [] |].
  cbn [skipWs]. destruct (isJsonWs c) eqn:Hc.
  - exists (c :: ws). split; [cbn; now f_equal | now constructor].
  - now exists [].
Qed.

Lemma parseScalar_plain (s r : jsstr) (v : json) :
  parseScalar s = Some (v, r) ->
  exists c, s = c ++ r /\ Forall (fun x => isPlain x = true) c.
Proof.
  unfold parseScalar. intros H.
  assert (Hlit : forall p, Forall (fun x => isPlain x = true) p ->
                           stripPrefix p s = Some r ->
                           exists c, s = c ++ r
                                     /\ Forall (fun x => isPlain x = true) c).
  { intros p Hp Hs. apply stripPrefix_app in Hs as ->. now exists p. }
  destruct (stripPrefix (lit "true") s) as [r1 |] eqn:Ht.
  { injection H as <- <-.
    apply (Hlit (lit "true")); [| assumption]. vm_compute. repeat constructor. }
  destruct (stripPrefix (lit "false") s) as [r2 |] eqn:Hf.
  { injection H as <- <-.
    apply (Hlit (lit "false")); [| assumption]. vm_compute. repeat constructor. }
  destruct (stripPrefix (lit "null") s) as [r3 |] eqn:Hn.
  { injection H as <- <-.
    apply (Hlit (lit "null")); [| assumption]. vm_compute. repeat constructor. }
  destruct (span isNumChar s) as [t r4] eqn:Hspan.
  destruct (jsonNumber t); [| discriminate]. injection H as <- <-.
  apply span_app in Hspan as [-> Ht']. exists t. split; [reflexivity |].
  eapply Forall_impl; [| exact Ht']. intros c. apply isNumChar_plain.
Qed.

(** Reading a string over [a ++ b]: either the closing quote is in [a],
    or the reader arrives at [b] in some state. *)
Lemma parseString_through (a : jsstr) :
  forall st acc b str rest,
    parseString st acc (a ++ b) = Some (str, rest) ->
    (exists a2, rest = a2 ++ b)
    \/ (exists st' acc', parseString st' acc' b = Some (str, rest)).
Proof.
  induction a as [| x a IH]; intros st acc b str rest H.
  - right. now exists st, acc.
  - cbn [app] in H. destruct st as [| | n h]; cbn [parseString] in H.
    + destruct (x =? QUOTE)%N.
      { injection H as <- <-. left. now exists a. }
      destruct (x =? BACKSLASH)%N; [now apply IH in H |].
      destruct (x <? 32)%N; [discriminate | now apply IH in H].
    + cbv zeta in H.
      repeat match type of H with
        | (if ?c then _ else _) = _ => destruct c; [now apply IH in H |]
        end.
      discriminate.
    + destruct (isHexDigit x); [| discriminate].
      destruct n as [| [| n']]; now apply IH in H.
Qed.

Lemma parseString_white (ws : jsstr) :
  forall acc t str rest,
    Forall (fun c => isJsonWs c = true) ws ->
    parseString SNormal acc (ws ++ QUOTE :: t) = Some (str, rest) ->
    rest = t.
Proof.
  induction ws as [| x ws IH]; intros acc t str rest Hws H.
  - cbn in H. now injection H as _ <-.
  - apply Forall_cons_iff in Hws as [Hx Hws].
    cbn [app parseString] in H.
    replace (x =? QUOTE)%N with false in H by (symmetry; charfacts).
    replace (x =? BACKSLASH)%N with false in H by (symmetry; charfacts).
    destruct (x <? 32)%N; [discriminate |]. now apply IH in H.
Qed.

(** An object with a member starts, after its brace and white space,
    with the quote of its first key. *)
Lemma object_text_first_key (f : nat) (rest0 r : jsstr)
  (m : list (jsstr * json)) :
  m <> [] ->
  parseValue f (LBRACE :: rest0) = Some (JObj m, r) ->
  exists ws t,
    rest0 = ws ++ QUOTE :: t /\ Forall (fun c => isJsonWs c = true) ws.
Proof.
  intros Hm H. destruct f as [| f]; [discriminate |].
  rewrite parseValue_unfold in H.
  change ((LBRACE =? LBRACE)%N) with true in H. cbv iota in H.
  destruct (skipWs_split rest0) as (ws & Hs & Hws).
  destruct (skipWs rest0) as [| c1 r1]; [discriminate |].
  destruct (c1 =? RBRACE)%N.
  { injection H as <- _. contradiction. }
  destruct f as [| f]; [discriminate |].
  rewrite parseMembers_unfold in H.
  destruct (N.eqb_spec c1 QUOTE) as [-> |]; [| discriminate].
  now exists ws, r1.
Qed.

Lemma isJsonWs_white (c : N) : isWhiteSpace c = false -> isJsonWs c = false.
Proof.
  intros H. unfold isJsonWs.
  repeat match goal with
    | |- context [(c =? ?k)%N] =>
        destruct (N.eqb_spec c k) as [-> | _]; [vm_compute in H; discriminate H |]
    end.
  reflexivity.
Qed.

Lemma trimStart_head (s : jsstr) :
  match trimStart s with
  | [] => True
  | x :: _ => isWhiteSpace x = false
  end.
Proof.
  induction s as [| c s IH]; [exact I |]. cbn.
  destruct (isWhiteSpace c) eqn:Hc; [exact IH | exact Hc].
Qed.

Lemma hasMeasurements_members (obj : json) :
  hasMeasurements obj = true -> exists m, obj = JObj m /\ m <> [].
Proof.
  destruct obj as [| | | | | m]; try discriminate.
  intros H. exists m. split; [reflexivity |]. now intros ->.
Qed.


(* ================================================================== *)
(** * Further properties of the controller                             *)
(* ================================================================== *)

(* ------------------------------------------------------------------ *)
(** ** What a finished run leaves behind                                *)

Lemma deferToRateLimit_le (st : state) :
  rateLimitUntil st <= nextRunTs (deferToRateLimit st).
Proof.
  unfold deferToRateLimit.
  destruct (Z.eqb_spec (nextRunTs st) 0); cbn [orb]; [cbn; lia |].
  destruct (Z.ltb_spec (nextRunTs st) (rateLimitUntil st)); cbn; lia.
Qed.

Lemma rateLimitBookkeeping_keeps (res : RunResult) (tLimit : Z) (st : state) :
  history (rateLimitBookkeeping res tLimit st) = history st
  /\ progressPing (rateLimitBookkeeping res tLimit st) = progressPing st
  /\ progressJitter (rateLimitBookkeeping res tLimit st) = progressJitter st
  /\ progressDown (rateLimitBookkeeping res tLimit st) = progressDown st
  /\ progressUp (rateLimitBookkeeping res tLimit st) = progressUp st
  /\ intervalMin (rateLimitBookkeeping res tLimit st) = intervalMin st
  /\ running (rateLimitBookkeeping res tLimit st) = running st.
Proof.
  unfold rateLimitBookkeeping, enterRateLimit, deferToRateLimit,
    progressPing, progressJitter, progressDown, progressUp.
  destruct (r_ookla_rate_limited res); cbn [negb andb].
  - destruct (progress st) as [p |] eqn:Hp;
      destruct (_ || _); cbn; rewrite ?Hp; cbn; repeat split; now rewrite Hp.
  - destruct (_ || _); repeat split.
Qed.

(** The recording half of [doRunResolved], from the state [mid] that the
    bookkeeping half leaves. *)
Lemma doRunResolved_from (res : RunResult) (tLimit tLast tPush tDone : Z)
  (st : state) :
  let mid := rateLimitBookkeeping res tLimit st in
  let final :=
    {| r_runner := r_runner res;
       r_ping_ms := orNull (r_ping_ms res) (progressPing mid);
       r_jitter_ms := orNull (r_jitter_ms res) (progressJitter mid);
       r_down_mbps := orNull (r_down_mbps res) (progressDown mid);
       r_up_mbps := orNull (r_up_mbps res) (progressUp mid);
       r_note := r_note res;
       r_ookla_rate_limited := r_ookla_rate_limited res |} in
  let st' := doRunResolved res tLimit tLast tPush tDone st in
  history st'
  = history (pruneHistory tPush mid)
      ++ [{| h_ts := tPush;
             h_runner := r_runner res;
             h_ping_ms := r_ping_ms final;
             h_jitter_ms := r_jitter_ms final;
             h_down_mbps := r_down_mbps final;
             h_up_mbps := r_up_mbps final;
             h_note := orEmpty (r_note res) |}]
  /\ last st' = Some {| l_ts := tLast; l_result := final |}
  /\ runnerName st' = Some (r_runner res)
  /\ running st' = false
  /\ intervalMin st' = intervalMin mid
  /\ nextRunTs st' = nextRunTs mid
  /\ rateLimitUntil st' = rateLimitUntil mid
  /\ rateLimitCount st' = rateLimitCount mid
  /\ lastError st' = lastError mid.
Proof.
  cbv zeta.
  change (doRunResolved res tLimit tLast tPush tDone st)
    with (let st := rateLimitBookkeeping res tLimit st in
          let final :=
            match progress st with
            | Some p =>
                {| r_runner := r_runner res;
                   r_ping_ms := orNull (r_ping_ms res) (p_ping_ms p);
                   r_jitter_ms := orNull (r_jitter_ms res) (p_jitter_ms p);
                   r_down_mbps := orNull (r_down_mbps res) (p_down_mbps p);
                   r_up_mbps := orNull (r_up_mbps res) (p_up_mbps p);
                   r_note := r_note res;
                   r_ookla_rate_limited := r_ookla_rate_limited res |}
            | None => res
            end in
          let nextMaxDown :=
            niceGaugeMaxBucket (numOrNull (r_down_mbps final)) (JFin 250) in
          let nextMaxUp :=
            niceGaugeMaxBucket (numOrNull (r_up_mbps final)) (JFin 50) in
          let st :=
            if num_truthy nextMaxDown && num_sne nextMaxDown (maxDown st)
            then set_maxDown nextMaxDown st else st in
          let st :=
            if num_truthy nextMaxUp && num_sne nextMaxUp (maxUp st)
            then set_maxUp nextMaxUp st else st in
          let st := set_last (Some {| l_ts := tLast; l_result := final |}) st in
          let st := set_runnerName (Some (r_runner final)) st in
          let st :=
            pushHistory tPush
              {| h_ts := 0;
                 h_runner := r_runner final;
                 h_ping_ms := r_ping_ms final;
                 h_jitter_ms := r_jitter_ms final;
                 h_down_mbps := r_down_mbps final;
                 h_up_mbps := r_up_mbps final;
                 h_note := orEmpty (r_note final) |} st in
          let st :=
            match progress st with
            | Some p =>
                set_progress
                  (Some {| p_ts := tDone;
                           p_stage := StageDone;
                           p_ping_ms := orNull (r_ping_ms final) (p_ping_ms p);
                           p_jitter_ms := orNull (r_jitter_ms final) (p_jitter_ms p);
                           p_down_mbps := orNull (r_down_mbps final) (p_down_mbps p);
                           p_up_mbps := orNull (r_up_mbps final) (p_up_mbps p) |})
                  st
            | None => st
            end in
          set_running false st).
  cbv zeta.
  generalize (rateLimitBookkeeping res tLimit st). intros mid.
  unfold progressPing, progressJitter, progressDown, progressUp.
  destruct res as [rr rp rj rd ru rn rl].
  assert (Hrun : (if isEmpty rr then rr else rr) = rr)
    by (now destruct (isEmpty rr)).
  assert (Hnull : forall a : option jsnum, orNull a None = a)
    by (now intros [a |]).
  destruct (progress mid) as [p |] eqn:Hp; cbn [r_runner r_ping_ms r_jitter_ms
    r_down_mbps r_up_mbps r_note r_ookla_rate_limited];
    repeat match goal with
      | |- context [if num_truthy ?a && num_sne ?a ?b then _ else _] =>
          generalize (num_truthy a && num_sne a b); intros []
      end;
    cbn -[orNull]; rewrite ?Hp; cbn -[orNull]; rewrite ?Hrun, ?Hnull;
    repeat split; reflexivity.
Qed.

Lemma pruneHistory_history (t : Z) (a b : state) :
  history a = history b ->
  history (pruneHistory t a) = history (pruneHistory t b).
Proof. intros H. unfold pruneHistory. cbn. now rewrite H. Qed.

(** X1.  A run that resolves is recorded once, consistently: the
    history is the pruned old history followed by one entry stamped
    with the push time, [last] holds the same values, the live values
    seen in the progress fill what the result lacks, and the run is no
    longer in flight. *)
Theorem doRunResolved_records (res : RunResult)
  (tLimit tLast tPush tDone : Z) (st : state) :
  history (doRunResolved res tLimit tLast tPush tDone st)
  = history (pruneHistory tPush st) ++ [recordedEntry res st tPush]
  /\ last (doRunResolved res tLimit tLast tPush tDone st)
     = Some {| l_ts := tLast; l_result := finalResult res st |}
  /\ runnerName (doRunResolved res tLimit tLast tPush tDone st)
     = Some (r_runner res)
  /\ running (doRunResolved res tLimit tLast tPush tDone st) = false
  /\ (length (history (doRunResolved res tLimit tLast tPush tDone st))
      <= 5000 + 1)%nat.
Proof.
  destruct (doRunResolved_from res tLimit tLast tPush tDone st)
    as (Hh & Hl & Hr & Hrun & _).
  destruct (rateLimitBookkeeping_keeps res tLimit st)
    as (Hhist & Hpi & Hji & Hd & Hu & _).
  cbv zeta in Hh, Hl. rewrite Hpi, Hji, Hd, Hu in Hh, Hl.
  rewrite (pruneHistory_history tPush _ st Hhist) in Hh.
  split; [exact Hh |]. split; [exact Hl |]. split; [exact Hr |].
  split; [exact Hrun |].
  rewrite Hh, length_app. cbn [length].
  destruct (pruneHistory_window tPush st) as [_ Hlen]. lia.
Qed.

(** X2.  Rate-limit bookkeeping of a run that resolves.  A result that
    is not flagged as rate limited clears the window and the counter
    and leaves the schedule alone.  A result obtained through the
    fallback after a rate limit bumps the counter, opens a window of
    the table's length from the clock value read, pushes the next run
    to the end of the window at least, and reports the wait. *)
Theorem doRunResolved_rate_limit (res : RunResult)
  (tLimit tLast tPush tDone : Z) (st : state) :
  (r_ookla_rate_limited res = false ->
   rateLimitUntil (doRunResolved res tLimit tLast tPush tDone st) = 0
   /\ rateLimitCount (doRunResolved res tLimit tLast tPush tDone st) = 0
   /\ nextRunTs (doRunResolved res tLimit tLast tPush tDone st) = nextRunTs st
   /\ lastError (doRunResolved res tLimit tLast tPush tDone st) = lastError st)
  /\ (r_ookla_rate_limited res = true ->
      let count := Z.max 1 (rateLimitCount st + 1) in
      let backoff := computeRateLimitBackoffMs (JFin (inject_Z count)) in
      rateLimitCount (doRunResolved res tLimit tLast tPush tDone st) = count
      /\ rateLimitUntil (doRunResolved res tLimit tLast tPush tDone st)
         = tLimit + backoff
      /\ tLimit + backoff
         <= nextRunTs (doRunResolved res tLimit tLast tPush tDone st)
      /\ lastError (doRunResolved res tLimit tLast tPush tDone st)
         = Some (lit "rate_limited: retry in " ++ fmtMin backoff
                   ++ lit " (fallback used)")).
Proof.
  destruct (doRunResolved_from res tLimit tLast tPush tDone st)
    as (_ & _ & _ & _ & _ & Hn & Hu & Hc & He).
  cbv zeta in *. rewrite Hn, Hu, Hc, He. clear Hn Hu Hc He.
  unfold rateLimitBookkeeping. split; intros Hres; rewrite Hres; cbn [negb andb].
  - destruct (Z.eqb_spec (rateLimitUntil st) 0) as [Hu |];
      destruct (Z.eqb_spec (rateLimitCount st) 0) as [Hc |];
      cbn; repeat split; congruence.
  - unfold enterRateLimit, rateLimitBackoff, nextRateLimitCount.
    cbn [Z.eqb].
    match goal with
    | |- context [deferToRateLimit ?s] =>
        pose proof (deferToRateLimit_le s) as Hle;
        assert (Hsame : rateLimitUntil (deferToRateLimit s) = rateLimitUntil s
                        /\ rateLimitCount (deferToRateLimit s) = rateLimitCount s)
          by (unfold deferToRateLimit; destruct (_ || _); split; reflexivity);
        destruct Hsame as [Hsu Hsc];
        generalize dependent (deferToRateLimit s)
    end.
    intros d Hle Hsu Hsc. cbn in Hle, Hsu, Hsc.
    destruct (progress (set_lastError _ d)) eqn:Hp; cbn;
      repeat split; try congruence; lia.
Qed.

Lemma computeRateLimitBackoffMs_mono (a b : Z) :
  1 <= a -> a <= b ->
  computeRateLimitBackoffMs (JFin (inject_Z a))
  <= computeRateLimitBackoffMs (JFin (inject_Z b)).
Proof.
  intros Ha Hab. rewrite !computeRateLimitBackoffMs_index by lia.
  assert (Hcases : forall z, 1 <= z ->
            Z.to_nat (Z.min 4 (z - 1)) = Z.to_nat (z - 1) /\ z <= 4
            \/ Z.to_nat (Z.min 4 (z - 1)) = 4%nat /\ 5 <= z).
  { intros z Hz. destruct (Z_le_gt_dec z 4); [left | right]; split; lia. }
  assert (Hsmall : forall z, 1 <= z <= 4 ->
            z = 1 \/ z = 2 \/ z = 3 \/ z = 4) by (intros; lia).
  destruct (Hcases a Ha) as [[-> Ha4] | [-> Ha5]];
    destruct (Hcases b ltac:(lia)) as [[-> Hb4] | [-> Hb5]]; try lia.
  - destruct (Hsmall a ltac:(lia)) as [-> | [-> | [-> | ->]]];
      destruct (Hsmall b ltac:(lia)) as [-> | [-> | [-> | ->]]];
      try lia; vm_compute; discriminate.
  - destruct (Hsmall a ltac:(lia)) as [-> | [-> | [-> | ->]]];
      vm_compute; discriminate.
Qed.

(** X3.  A run rejected with a rate-limit error (no fallback): with a
    counter that is not negative, the counter goes up by one, the
    window opens for the table's length (or for the error's own
    [retryAfterMs] when it has one), the next run is pushed to the end
    of the window at least, the wait is reported, nothing is recorded,
    and the run is no longer in flight.  A further hit never gets a
    shorter table window. *)
Theorem doRunRejected_rate_limit (retryAfterMs now : Z) (st : state)
  (Hcount : 0 <= rateLimitCount st) :
  let backoff :=
    if retryAfterMs =? 0
    then computeRateLimitBackoffMs (JFin (inject_Z (rateLimitCount st + 1)))
    else retryAfterMs in
  let st' := doRunRejected (RateLimitError retryAfterMs) now st in
  rateLimitCount st' = rateLimitCount st + 1
  /\ rateLimitUntil st' = now + backoff
  /\ now + backoff <= nextRunTs st'
  /\ lastError st' = Some (lit "rate_limited: retry in " ++ fmtMin backoff)
  /\ history st' = history st
  /\ last st' = last st
  /\ running st' = false
  /\ computeRateLimitBackoffMs (JFin (inject_Z (rateLimitCount st + 1)))
     <= computeRateLimitBackoffMs (JFin (inject_Z (rateLimitCount st' + 1))).
Proof.
  cbv zeta. unfold doRunRejected, enterRateLimit, rateLimitBackoff,
    nextRateLimitCount.
  replace (Z.max 1 (rateLimitCount st + 1)) with (rateLimitCount st + 1) by lia.
  match goal with
  | |- context [deferToRateLimit ?s] =>
      pose proof (deferToRateLimit_le s) as Hle;
      assert (Hsame : rateLimitUntil (deferToRateLimit s) = rateLimitUntil s
                      /\ rateLimitCount (deferToRateLimit s) = rateLimitCount s
                      /\ history (deferToRateLimit s) = history s
                      /\ last (deferToRateLimit s) = last s)
        by (unfold deferToRateLimit; destruct (_ || _); repeat split);
      destruct Hsame as (Hsu & Hsc & Hsh & Hsl);
      generalize dependent (deferToRateLimit s)
  end.
  intros d Hle Hsu Hsc Hsh Hsl.
  cbn -[computeRateLimitBackoffMs fmtMin] in Hle, Hsu, Hsc, Hsh, Hsl.
  assert (Hmono : computeRateLimitBackoffMs (JFin (inject_Z (rateLimitCount st + 1)))
                  <= computeRateLimitBackoffMs
                       (JFin (inject_Z (rateLimitCount st + 1 + 1))))
    by (apply computeRateLimitBackoffMs_mono; lia).
  destruct (progress (set_lastError _ d)) eqn:Hp;
    cbn -[computeRateLimitBackoffMs fmtMin];
    rewrite ?Hsc; repeat split; try congruence; try lia.
Qed.

Lemma doRunRejected_rate_limit_witness :
  rateLimitCount (doRunRejected (RateLimitError 0) 3000 firstRunStarted) = 1
  /\ rateLimitUntil (doRunRejected (RateLimitError 0) 3000 firstRunStarted)
     = 3000 + 1800000.
Proof.
  destruct (doRunRejected_rate_limit 0 3000 firstRunStarted ltac:(cbn; lia))
    as (Hc & Hu & _).
  split; [exact Hc | exact Hu].
Defined.

(** X4.  A run rejected with any other error only reports it: the
    message becomes [last_error], the run is no longer in flight, and
    the schedule, the rate-limit window and counter, the history, the
    last result and the gauge hints stay as they were. *)
Theorem doRunRejected_other (message : jsstr) (now : Z) (st : state) :
  let st' := doRunRejected (OtherError message) now st in
  lastError st' = Some message
  /\ running st' = false
  /\ nextRunTs st' = nextRunTs st
  /\ rateLimitUntil st' = rateLimitUntil st
  /\ rateLimitCount st' = rateLimitCount st
  /\ history st' = history st
  /\ last st' = last st
  /\ maxDown st' = maxDown st /\ maxUp st' = maxUp st
  /\ intervalMin st' = intervalMin st
  /\ progress st' = option_map (withStage StageError now) (progress st).
Proof.
  cbv zeta. unfold doRunRejected.
  destruct (progress st) as [p |] eqn:Hp; cbn; rewrite Hp; cbn;
    rewrite ?Hp; repeat split.
Qed.

(* ------------------------------------------------------------------ *)
(** ** The scheduler                                                    *)

Lemma rateLimited_keeps_running (now : Z) (st : state) (b : bool) :
  rateLimited now (set_running b st) = rateLimited now st.
Proof. reflexivity. Qed.

Lemma tick_not_before_slot (now tRun : Z) (st : state) :
  0 <= intervalMin st ->
  nextRunTs st = 0 \/ now < nextRunTs st ->
  snd (tick now tRun st) = false.
Proof.
  intros Hi Hslot. unfold tick.
  destruct (Z.eqb_spec (intervalMin st) 0) as [E | Hne]; [reflexivity |].
  destruct (rateLimited now st); [reflexivity |].
  assert (Hs : nextRunTs (scheduleNext now st)
               = now + intervalMin st * 60 * 1000).
  { unfold scheduleNext. cbn.
    now destruct (Z.eqb_spec (intervalMin st) 0) as [E | _]; [lia |]. }
  destruct (Z.eqb_spec (nextRunTs st) 0) as [E | Hn].
  - rewrite Hs.
    now destruct (Z.leb_spec (now + intervalMin st * 60 * 1000) now); [lia |].
  - destruct Hslot as [E | Hlt]; [contradiction |].
    now destruct (Z.leb_spec (nextRunTs st) now); [lia |].
Qed.

(** X5.  [tick] with scheduling enabled, outside a rate-limit window:
    it plans the first slot when none is planned, does nothing before
    the slot or while a run is in flight, and at the slot starts one
    run and plans the next slot one interval later.  In no state does
    [tick] start a run before the planned slot. *)
Theorem tick_schedule (now tRun : Z) (st : state)
  (Hnow : 0 <= now) (Hint : 0 < intervalMin st)
  (Hfree : rateLimited now st = false) :
  (nextRunTs st = 0 ->
   tick now tRun st = (scheduleNext now st, false)
   /\ nextRunTs (fst (tick now tRun st)) = now + intervalMin st * 60 * 1000)
  /\ (nextRunTs st <> 0 -> now < nextRunTs st ->
      tick now tRun st = (st, false))
  /\ (nextRunTs st <> 0 -> running st = true ->
      tick now tRun st = (st, false))
  /\ (nextRunTs st <> 0 -> nextRunTs st <= now -> running st = false ->
      snd (tick now tRun st) = true
      /\ running (fst (tick now tRun st)) = true
      /\ nextRunTs (fst (tick now tRun st)) = now + intervalMin st * 60 * 1000)
  /\ (forall later now' tRun',
         0 <= intervalMin later ->
         nextRunTs later = 0 \/ now' < nextRunTs later ->
         snd (tick now' tRun' later) = false).
Proof.
  split; [| split; [| split; [| split]]];
    [| | | | intros later now' tRun'; apply tick_not_before_slot].
  all: unfold tick; rewrite Hfree;
    destruct (Z.eqb_spec (intervalMin st) 0) as [E | Hi]; [lia |].
  - intros Hn. rewrite Hn. cbn [Z.eqb].
    assert (Hs : nextRunTs (scheduleNext now st)
                 = now + intervalMin st * 60 * 1000).
    { unfold scheduleNext. cbn.
      now destruct (Z.eqb_spec (intervalMin st) 0) as [E | _]; [lia |]. }
    rewrite Hs.
    destruct (Z.leb_spec (now + intervalMin st * 60 * 1000) now); [lia |].
    cbn [andb fst]. now split.
  - intros Hn Hlt. destruct (Z.eqb_spec (nextRunTs st) 0); [contradiction |].
    now destruct (Z.leb_spec (nextRunTs st) now); [lia |].
  - intros Hn Hrun. destruct (Z.eqb_spec (nextRunTs st) 0); [contradiction |].
    rewrite Hrun. now rewrite andb_false_r.
  - intros Hn Hle Hrun. destruct (Z.eqb_spec (nextRunTs st) 0); [contradiction |].
    destruct (Z.leb_spec (nextRunTs st) now); [| lia].
    rewrite Hrun. cbn [negb andb]. unfold doRun, scheduleNext.
    cbn [running set_nextRunTs]. rewrite Hrun.
    destruct (Z.eqb_spec (intervalMin st) 0) as [E | _]; [lia |].
    repeat split.
Qed.

Lemma tick_schedule_witness :
  let st := snd (setIntervalMin (VNum (JFin 5)) 1000 1000 freshStart) in
  tick 2000 2000 st = (st, false)
  /\ snd (tick 301000 301000 st) = true.
Proof.
  cbv zeta.
  destruct (tick_schedule 2000 2000
              (snd (setIntervalMin (VNum (JFin 5)) 1000 1000 freshStart))
              ltac:(lia) ltac:(reflexivity) ltac:(reflexivity))
    as (_ & Hbefore & _).
  destruct (tick_schedule 301000 301000
              (snd (setIntervalMin (VNum (JFin 5)) 1000 1000 freshStart))
              ltac:(lia) ltac:(reflexivity) ltac:(reflexivity))
    as (_ & _ & _ & Hat & _).
  split.
  - apply Hbefore; [discriminate | reflexivity].
  - apply Hat; [discriminate | discriminate | reflexivity].
Defined.

(* ------------------------------------------------------------------ *)
(** ** Snapshots and the interval                                       *)

Lemma filter_all {A : Type} (p : A -> bool) (l : list A) :
  Forall (fun x => p x = true) l -> filter p l = l.
Proof.
  induction 1 as [| x l Hx _ IH]; [reflexivity |].
  cbn. now rewrite Hx, IH.
Qed.

Lemma pruneHistory_idempotent (now : Z) (st : state) :
  pruneHistory now (pruneHistory now st) = pruneHistory now st.
Proof.
  destruct (pruneHistory_window now st) as [Hall Hlen].
  unfold pruneHistory at 1. 
  rewrite filter_all.
  - destruct (Nat.ltb_spec 5000 (length (history (pruneHistory now st))));
      [lia |].
    now destruct st.
  - eapply Forall_impl; [| exact Hall]. intros it Hit.
    now apply Z.leb_le.
Qed.

(** X7.  [snapshot] reads the state: it changes nothing but the history,
    which it prunes; the snapshot shows the fields as they are, hides
    the progress when no run is in flight, and a second snapshot at the
    same clock value is the same and changes nothing more. *)
Theorem snapshot_read_only (now : Z) (st : state) :
  snd (snapshot now st) = pruneHistory now st
  /\ snd (snapshot now st) = set_history (history_24h (fst (snapshot now st))) st
  /\ interval_min (fst (snapshot now st)) = intervalMin st
  /\ next_run_ts (fst (snapshot now st)) = nextRunTs st
  /\ s_running (fst (snapshot now st)) = running st
  /\ s_last (fst (snapshot now st)) = last st
  /\ last_error (fst (snapshot now st)) = lastError st
  /\ (running st = false -> s_progress (fst (snapshot now st)) = None)
  /\ (running st = true -> s_progress (fst (snapshot now st)) = progress st)
  /\ snapshot now (snd (snapshot now st)) = snapshot now st.
Proof.
  repeat split.
  - intros H. cbn. now rewrite H.
  - intros H. cbn. now rewrite H.
  - unfold snapshot. cbn [snd]. now rewrite pruneHistory_idempotent.
Qed.

(** X8.  [setIntervalMin] is idempotent: a second call with the same
    value at the same clock values returns the same snapshot and leaves
    the same state; and whatever was set before, the interval and the
    planned slot after a call are those of that call alone. *)
Theorem setIntervalMin_idempotent (m m0 : jsval) (now tSnap now0 tSnap0 : Z)
  (st : state) :
  setIntervalMin m now tSnap (snd (setIntervalMin m now tSnap st))
  = setIntervalMin m now tSnap st
  /\ intervalMin
       (snd (setIntervalMin m now tSnap (snd (setIntervalMin m0 now0 tSnap0 st))))
     = intervalMin (snd (setIntervalMin m now tSnap st))
  /\ nextRunTs
       (snd (setIntervalMin m now tSnap (snd (setIntervalMin m0 now0 tSnap0 st))))
     = nextRunTs (snd (setIntervalMin m now tSnap st)).
Proof.
  split; [| split; reflexivity].
  unfold setIntervalMin.
  set (c := clampInt m 0 (60 * 24)).
  assert (Hstate :
    scheduleNext now
      (set_intervalMin c (snd (snapshot tSnap (scheduleNext now (set_intervalMin c st)))))
    = pruneHistory tSnap (scheduleNext now (set_intervalMin c st))).
  { now destruct st. }
  unfold snapshot. cbn [snd fst]. unfold snapshot in Hstate. cbn [snd] in Hstate.
  rewrite Hstate. now rewrite pruneHistory_idempotent.
Qed.

(* ------------------------------------------------------------------ *)
(** ** An invariant of the reachable states                             *)

Lemma niceGaugeMaxBucket_finite (v : jsval) (fallback : jsnum) :
  Number_isFinite fallback = true ->
  Number_isFinite (niceGaugeMaxBucket v fallback) = true.
Proof.
  intros Hf. unfold niceGaugeMaxBucket.
  set (x := if _ && _ then Number v else fallback).
  assert (Hx : Number_isFinite x = true).
  { subst x. destruct (Number_isFinite (Number v)) eqn:Hv; cbn [andb];
      [destruct (num_gtb _ _) |]; assumption. }
  destruct (firstStep x gaugeSteps); [reflexivity |].
  now destruct x.
Qed.

Lemma wellFormed_history (h : list HistoryEntry) (st : state) :
  wellFormed st -> wellFormed (set_history h st).
Proof. now destruct st. Qed.

Lemma wellFormed_pruneHistory (now : Z) (st : state) :
  wellFormed st -> wellFormed (pruneHistory now st).
Proof. apply wellFormed_history. Qed.

Lemma wellFormed_nextRunTs (t : Z) (st : state) :
  wellFormed st -> wellFormed (set_nextRunTs t st).
Proof. now destruct st. Qed.

Lemma wellFormed_lastError (e : option jsstr) (st : state) :
  wellFormed st -> wellFormed (set_lastError e st).
Proof. now destruct st. Qed.

Lemma wellFormed_runnerName (k : option jsstr) (st : state) :
  wellFormed st -> wellFormed (set_runnerName k st).
Proof. now destruct st. Qed.

Lemma wellFormed_deferToRateLimit (st : state) :
  wellFormed st -> wellFormed (deferToRateLimit st).
Proof.
  intros H. unfold deferToRateLimit.
  destruct (_ || _); [now apply wellFormed_nextRunTs | assumption].
Qed.

Lemma wellFormed_scheduleNext (t : Z) (st : state) :
  wellFormed st -> wellFormed (scheduleNext t st).
Proof. apply wellFormed_nextRunTs. Qed.

Lemma wellFormed_doRun (now : Z) (st : state) :
  wellFormed st -> wellFormed (fst (doRun now st)).
Proof.
  intros H. unfold doRun. destruct (running st) eqn:Hr; [assumption |].
  destruct H as (Hi & _ & Hd & Hu).
  split; [exact Hi |]. split; [intros _; discriminate |]. now split.
Qed.

Lemma wellFormed_stopped (st : state) :
  0 <= intervalMin st <= 1440 ->
  Number_isFinite (maxDown st) = true ->
  Number_isFinite (maxUp st) = true ->
  running st = false ->
  wellFormed st.
Proof.
  intros Hi Hd Hu Hr.
  split; [exact Hi |]. split; [rewrite Hr; discriminate |]. now split.
Qed.

Lemma wellFormed_tick (now tRun : Z) (st : state) :
  wellFormed st -> wellFormed (fst (tick now tRun st)).
Proof.
  intros H. unfold tick.
  destruct (intervalMin st =? 0); [assumption |].
  destruct (rateLimited now st); [now apply wellFormed_deferToRateLimit |].
  set (st1 := if nextRunTs st =? 0 then scheduleNext now st else st).
  assert (H1 : wellFormed st1).
  { subst st1. destruct (nextRunTs st =? 0);
      [now apply wellFormed_scheduleNext | assumption]. }
  destruct (_ && _); [| assumption].
  now apply wellFormed_doRun, wellFormed_scheduleNext.
Qed.

Lemma wellFormed_snapshot (now : Z) (st : state) :
  wellFormed st -> wellFormed (snd (snapshot now st)).
Proof. apply wellFormed_pruneHistory. Qed.

Lemma wellFormed_runNow (now tRun tSnap : Z) (st : state) :
  wellFormed st -> wellFormed (snd (fst (runNow now tRun tSnap st))).
Proof.
  intros H. unfold runNow.
  destruct (rateLimited now st).
  - cbn [fst]. apply wellFormed_snapshot, wellFormed_deferToRateLimit.
    now apply wellFormed_lastError.
  - destruct (running st) eqn:Hr; cbn [negb].
    + cbn [fst]. now apply wellFormed_snapshot.
    + pose proof (wellFormed_doRun tRun st H) as Hd.
      destruct (doRun tRun st) as [st' launched]. cbn [fst] in *.
      now apply wellFormed_snapshot.
Qed.

Lemma wellFormed_setIntervalMin (m : jsval) (now tSnap : Z) (st : state) :
  wellFormed st -> wellFormed (snd (setIntervalMin m now tSnap st)).
Proof.
  intros (_ & Hp & Hd & Hu). unfold setIntervalMin.
  apply wellFormed_snapshot, wellFormed_scheduleNext.
  pose proof (clampInt_range m 0 (60 * 24) ltac:(lia)) as Hc.
  split; [exact Hc |]. split; [exact Hp |]. now split.
Qed.

Lemma wellFormed_onProgress (p : ProgressUpdate) (now : Z) (st : state) :
  wellFormed st -> wellFormed (onProgress p now st).
Proof.
  intros (Hi & _ & Hd & Hu). unfold onProgress.
  split; [exact Hi |]. split; [intros _; discriminate |]. now split.
Qed.

Lemma wellFormed_doRunResolved (res : RunResult) (tLimit tLast tPush tDone : Z)
  (st : state) :
  wellFormed st -> wellFormed (doRunResolved res tLimit tLast tPush tDone st).
Proof.
  intros (Hi & _ & Hd & Hu).
  destruct (doRunResolved_from res tLimit tLast tPush tDone st)
    as (_ & _ & _ & Hrun & Hint & _).
  destruct (rateLimitBookkeeping_keeps res tLimit st)
    as (_ & _ & _ & _ & _ & Hint' & _).
  destruct (doRunResolved_gauge res tLimit tLast tPush tDone st) as [Hgd Hgu].
  apply wellFormed_stopped.
  - rewrite Hint, Hint'. exact Hi.
  - rewrite Hgd. clear Hgd Hgu. destruct (_ && _); [| assumption].
    now apply niceGaugeMaxBucket_finite.
  - rewrite Hgu. clear Hgd Hgu. destruct (_ && _); [| assumption].
    now apply niceGaugeMaxBucket_finite.
  - exact Hrun.
Qed.

Lemma wellFormed_doRunRejected (e : RunError) (now : Z) (st : state) :
  wellFormed st -> wellFormed (doRunRejected e now st).
Proof.
  intros (Hi & _ & Hd & Hu). unfold doRunRejected.
  destruct e as [retry | msg].
  - unfold enterRateLimit, deferToRateLimit.
    destruct (progress st) as [p |] eqn:Hp;
      destruct (_ || _); cbn; rewrite ?Hp; cbn;
      apply wellFormed_stopped; cbn; assumption || reflexivity.
  - destruct (progress st) as [p |] eqn:Hp; cbn; rewrite ?Hp; cbn;
      apply wellFormed_stopped; cbn; assumption || reflexivity.
Qed.

Lemma wellFormed_create (loaded : option Loaded) (dflt : jsval)
  (runOnStart : bool) (tSched now tRun : Z) :
  wellFormed
    (fst (createSpeedtestController loaded dflt runOnStart tSched now tRun)).
Proof.
  unfold createSpeedtestController.
  set (interval := match match loaded with Some l => _ | None => _ end with
                   | Some q => _ | None => _ end).
  set (st0 := Build_state _ _ _ _ _ _ _ _ _ _ _ _).
  assert (H0 : wellFormed st0).
  { pose proof (clampInt_range interval 0 (60 * 24) ltac:(lia)) as Hc.
    apply wellFormed_stopped; [exact Hc | reflexivity ..]. }
  assert (H1 : wellFormed (scheduleNext tSched st0))
    by now apply wellFormed_scheduleNext.
  destruct (_ && _); [| assumption].
  destruct (_ || _).
  - pose proof (wellFormed_doRun tRun _ H1) as Hd.
    destruct (doRun tRun (scheduleNext tSched st0)) as [st' launched].
    cbn [fst] in *. now apply wellFormed_scheduleNext.
  - cbn [fst]. now apply wellFormed_nextRunTs.
Qed.

Lemma wellFormed_step (st st' : state) :
  step st st' -> wellFormed st -> wellFormed st'.
Proof.
  intros Hstep H. destruct Hstep.
  - now apply wellFormed_tick.
  - now apply wellFormed_runNow.
  - now apply wellFormed_setIntervalMin.
  - now apply wellFormed_snapshot.
  - now apply wellFormed_runnerName.
  - now apply wellFormed_onProgress.
  - now apply wellFormed_doRunResolved.
  - now apply wellFormed_doRunRejected.
Qed.

(** X6.  Whatever the state file held and whatever was called since, in
    every state the controller reaches the interval lies in 0..1440, a
    run in flight has a live progress, and both gauge hints are finite
    numbers; so a snapshot shows a progress exactly while a run is in
    flight. *)
Theorem reachable_wellFormed (st : state) (Hreach : reachable st) :
  wellFormed st
  /\ forall now,
       s_progress (fst (snapshot now st)) <> None <-> running st = true.
Proof.
  assert (H : wellFormed st).
  { induction Hreach as [| st st' _ IH Hstep].
    - apply wellFormed_create.
    - now apply wellFormed_step with st. }
  split; [exact H |].
  intros now. destruct H as (_ & Hp & _). cbn.
  destruct (running st); [split; auto | split; [congruence | discriminate]].
Qed.

Lemma reachable_wellFormed_witness :
  reachable firstRunStarted
  /\ wellFormed firstRunStarted
  /\ running firstRunStarted = true
  /\ s_progress (fst (snapshot 2500 firstRunStarted)) <> None.
Proof.
  assert (Hreach : reachable firstRunStarted).
  { unfold firstRunStarted, freshStart.
    eapply reachable_step; [apply reachable_init | apply step_runNow]. }
  destruct (reachable_wellFormed firstRunStarted Hreach) as [Hwf Hsnap].
  split; [exact Hreach |]. split; [exact Hwf |].
  split; [reflexivity |]. now apply Hsnap.
Defined.

(* ------------------------------------------------------------------ *)
(** ** Start-up and the progress callback                               *)

Lemma createSpeedtestController_interval (loaded : option Loaded)
  (dflt : jsval) (runOnStart : bool) (tSched now tRun : Z) :
  let st :=
    fst (createSpeedtestController loaded dflt runOnStart tSched now tRun) in
  intervalMin st = startInterval loaded dflt
  /\ rateLimitUntil st
     = match loaded with Some l => ld_rate_limit_until l | None => 0 end
  /\ history st = match loaded with Some l => ld_history l | None => [] end.
Proof.
  cbv zeta. unfold createSpeedtestController, startInterval.
  set (interval := match match loaded with Some l => _ | None => _ end with
                   | Some q => _ | None => _ end).
  assert (Hi : clampInt interval 0 (60 * 24)
               = match loaded with
                 | Some {| ld_interval_min := Some q |} =>
                     clampInt (VNum (JFin q)) 0 1440
                 | _ => clampInt dflt 0 1440
                 end).
  { subst interval. destruct loaded as [[[q |] u c d up h] |]; reflexivity. }
  rewrite <- Hi.
  set (st0 := Build_state _ _ _ _ _ _ _ _ _ _ _ _).
  destruct (_ && _); [| now repeat split].
  destruct (_ || _); now repeat split.
Qed.

Ltac start_cases c :=
  repeat split; intros; try discriminate;
  try (destruct (Z.eqb_spec c 0)); try lia; try reflexivity.

(** X9.  How the controller starts.  The interval is the state file's
    when it has one, else the default, clamped into 0..1440.  A run is
    started at once exactly when [runOnStart] is set, the interval is
    positive and no persisted rate-limit window is still open; then the
    next slot is one interval after the start.  With interval 0 nothing
    is planned and nothing starts.  Inside a persisted window with
    [runOnStart] the next slot is not before the window's end. *)
Theorem createSpeedtestController_start (loaded : option Loaded)
  (dflt : jsval) (runOnStart : bool) (tSched now tRun : Z) :
  let r := createSpeedtestController loaded dflt runOnStart tSched now tRun in
  let st := fst r in
  let launched := snd r in
  intervalMin st = startInterval loaded dflt
  /\ running st = launched
  /\ launched
     = runOnStart && (0 <? intervalMin st)
       && ((rateLimitUntil st =? 0) || (rateLimitUntil st <=? now))
  /\ (launched = true ->
      nextRunTs st = now + intervalMin st * 60 * 1000
      /\ progress st = Some (startingProgress tRun StageStarting))
  /\ (launched = false -> progress st = None)
  /\ (intervalMin st = 0 -> nextRunTs st = 0 /\ launched = false)
  /\ (runOnStart = false -> 0 < intervalMin st ->
      nextRunTs st = tSched + intervalMin st * 60 * 1000)
  /\ (runOnStart = true -> 0 < intervalMin st ->
      rateLimitUntil st <> 0 -> now < rateLimitUntil st ->
      launched = false /\ rateLimitUntil st <= nextRunTs st)
  /\ last st = None /\ lastError st = None /\ runnerName st = None.
Proof.
  cbv zeta.
  split; [apply createSpeedtestController_interval |].
  unfold createSpeedtestController.
  set (interval := match match loaded with Some l => _ | None => _ end with
                   | Some q => _ | None => _ end).
  set (c := clampInt interval 0 (60 * 24)).
  set (u := match loaded with Some l => ld_rate_limit_until l | None => 0 end).
  set (st0 := Build_state _ _ _ _ _ _ _ _ _ _ _ _).
  assert (Hc : intervalMin (scheduleNext tSched st0) = c) by reflexivity.
  assert (Hu : rateLimitUntil (scheduleNext tSched st0) = u) by reflexivity.
  assert (Hn : nextRunTs (scheduleNext tSched st0)
               = if c =? 0 then 0 else tSched + c * 60 * 1000) by reflexivity.
  rewrite Hc, Hu.
  destruct runOnStart; cbn [andb].
  - destruct (Z.ltb_spec 0 c) as [Hpos | Hzero].
    + destruct (Z.eqb_spec u 0) as [Hu0 | Hu0]; cbn [orb].
      * unfold doRun. cbn.
        destruct (Z.eqb_spec c 0); [lia |].
        rewrite Hu0. cbn.
        start_cases c.
      * destruct (Z.leb_spec u now) as [Hle | Hgt].
        -- unfold doRun. cbn. fold c. fold u.
           destruct (Z.eqb_spec c 0); [lia |].
           destruct (Z.eqb_spec u 0); [contradiction |].
           destruct (Z.leb_spec u now); [| lia]. cbn.
           start_cases c.
        -- cbn. fold c. fold u.
           destruct (Z.eqb_spec c 0); [lia |].
           destruct (Z.eqb_spec u 0); [contradiction |].
           destruct (Z.leb_spec u now); [lia |].
           destruct (Z.ltb_spec 0 c); [| lia]. cbn.
           start_cases c.
    + cbn. fold c. fold u.
      destruct (Z.ltb_spec 0 c); [lia |]. cbn.
      start_cases c.
  - cbn. fold c. fold u. start_cases c.
Qed.

Lemma mergeField_later {A : Type} (old : A) (a b : option A) :
  mergeField (mergeField old a) b = mergeField old (laterField a b).
Proof. now destruct a, b. Qed.

(** X10.  The progress callback merges what it is given into the live
    progress and stamps it with the clock: two calls in a row leave what
    one call with the merged update leaves, a property absent from an
    update keeps its live value, and nothing but the progress changes. *)
Theorem onProgress_merge (p1 p2 : ProgressUpdate) (t1 t2 : Z) (st : state) :
  onProgress p2 t2 (onProgress p1 t1 st) = onProgress (mergeUpdate p1 p2) t2 st
  /\ (exists q,
        progress (onProgress p1 t1 st) = Some q
        /\ p_ts q = t1
        /\ (u_down_mbps p1 = None -> p_down_mbps q = progressDown st)
        /\ (u_up_mbps p1 = None -> p_up_mbps q = progressUp st)
        /\ (u_ping_ms p1 = None -> p_ping_ms q = progressPing st)
        /\ (u_jitter_ms p1 = None -> p_jitter_ms q = progressJitter st)
        /\ (forall v, u_down_mbps p1 = Some v -> p_down_mbps q = v)
        /\ (forall v, u_up_mbps p1 = Some v -> p_up_mbps q = v))
  /\ set_progress (progress st) (onProgress p1 t1 st) = st.
Proof.
  split; [| split].
  - unfold onProgress at 1 3.
    assert (Hcur : progress (onProgress p1 t1 st)
                   = Some {| p_ts := t1;
                             p_stage := mergeField
                               (p_stage (match progress st with
                                         | Some c => c
                                         | None => startingProgress t1 StageRunning
                                         end)) (u_stage p1);
                             p_ping_ms := mergeField
                               (p_ping_ms (match progress st with
                                           | Some c => c
                                           | None => startingProgress t1 StageRunning
                                           end)) (u_ping_ms p1);
                             p_jitter_ms := mergeField
                               (p_jitter_ms (match progress st with
                                             | Some c => c
                                             | None => startingProgress t1 StageRunning
                                             end)) (u_jitter_ms p1);
                             p_down_mbps := mergeField
                               (p_down_mbps (match progress st with
                                             | Some c => c
                                             | None => startingProgress t1 StageRunning
                                             end)) (u_down_mbps p1);
                             p_up_mbps := mergeField
                               (p_up_mbps (match progress st with
                                           | Some c => c
                                           | None => startingProgress t1 StageRunning
                                           end)) (u_up_mbps p1) |})
      by reflexivity.
    rewrite Hcur. cbn [p_stage p_ping_ms p_jitter_ms p_down_mbps p_up_mbps].
    rewrite !mergeField_later.
    unfold mergeUpdate. cbn [u_stage u_ping_ms u_jitter_ms u_down_mbps u_up_mbps].
    destruct (progress st) as [c |]; now destruct st.
  - unfold onProgress, progressDown, progressUp, progressPing, progressJitter.
    eexists. split; [reflexivity |].
    cbn [p_ts p_ping_ms p_jitter_ms p_down_mbps p_up_mbps].
    split; [reflexivity |].
    destruct (progress st) as [c |];
      (split; [now intros -> |]); (split; [now intros -> |]);
      (split; [now intros -> |]); (split; [now intros -> |]);
      (split; intros v ->; reflexivity).
  - now destruct st.
Qed.

(* ================================================================== *)
(** * Further properties of the JSON salvage                           *)
(* ================================================================== *)

(* ------------------------------------------------------------------ *)
(** ** What [pickBestSpeedtestResult] picks                             *)

Lemma scored_isObject (r : json) :
  typeIsResult r = true \/ 0 < scoreCandidate r -> isObject r = true.
Proof.
  destruct r; try reflexivity; intros [H | H]; try discriminate H;
    unfold scoreCandidate in H; cbn in H; rewrite ?orb_true_r in H; lia.
Qed.

Lemma pickLoop_picks (cands : list json) :
  forall best bestScore r,
    0 <= bestScore ->
    pickLoop cands best bestScore = Some r ->
    (best = Some r /\ 0 < bestScore)
    \/ (In r cands /\ (typeIsResult r = true \/ 0 < scoreCandidate r)).
Proof.
  induction cands as [| cand rest IH]; intros best bs r Hbs H; cbn in H.
  - destruct (Z.ltb_spec 0 bs); [now left | discriminate].
  - destruct (typeIsResult cand) eqn:Hres.
    + injection H as <-. right. split; [now left | now left].
    + destruct (Z.ltb_spec bs (scoreCandidate cand)) as [Hlt | Hge].
      * apply IH in H; [| lia]. destruct H as [[[= <-] Hpos] | [Hin Hsc]].
        -- right. split; [now left | now right].
        -- right. split; [now right | assumption].
      * apply IH in H; [| assumption]. destruct H as [H | [Hin Hsc]].
        -- now left.
        -- right. split; [now right | assumption].
Qed.

Lemma assoc_map_snd {A B : Type} (f : A -> B) (k : jsstr)
  (m : list (jsstr * A)) :
  assoc k (map (fun kv : jsstr * A => let '(k', x) := kv in (k', f x)) m)
  = option_map f (assoc k m).
Proof.
  induction m as [| [k' x] m IH]; [reflexivity |]. cbn.
  now destruct (jsstr_eqb k' k).
Qed.

Lemma assoc_In {A : Type} (k : jsstr) (m : list (jsstr * A)) (x : A) :
  assoc k m = Some x -> exists k', In (k', x) m.
Proof.
  induction m as [| [k' y] m IH]; [discriminate |]. cbn.
  destruct (jsstr_eqb k' k).
  - intros [= ->]. exists k'. now left.
  - intros H. destruct (IH H) as [k0 Hin]. exists k0. now right.
Qed.

Lemma innerKey_names (v : json) (k : string) :
  innerKey v = Some k -> k = "result"%string \/ k = "data"%string.
Proof.
  unfold innerKey.
  destruct (_ && _); [intros [= <-]; now left |].
  destruct (_ && _); [intros [= <-]; now right | discriminate].
Qed.

Lemma isObject_truthy (v : json) : isObject v = true -> truthy v = true.
Proof. now destruct v. Qed.

(** The three facts about a picked value, by induction on the
    document. *)
Lemma pickBestSpeedtestResult_spec (v : json) :
  forall r,
    pickBestSpeedtestResult v = Some r ->
    isObject r = true /\ nestedIn v r /\ pickBestSpeedtestResult r = Some r.
Proof.
  induction v as [| b | q | s | items IH | m IH] using json_nested_ind;
    intros r H; try discriminate H.
  - (* array *)
    cbn [pickBestSpeedtestResult] in H.
    apply pickLoop_picks in H; [| lia].
    destruct H as [[[=] _] | [Hin Hsc]].
    apply in_map_iff in Hin as (it & Hr & Hit).
    rewrite Forall_forall in IH. specialize (IH it Hit).
    pose proof (scored_isObject r Hsc) as Hobj.
    destruct (pickBestSpeedtestResult it) as [x |] eqn:Hpick.
    + destruct (IH x eq_refl) as (Hx & Hnx & Hpx).
      cbn [orElse] in Hr. rewrite (isObject_truthy x Hx) in Hr. subst x.
      split; [assumption |]. split; [| assumption].
      now apply nested_item with it.
    + cbn [orElse] in Hr. subst it.
      destruct r; try discriminate Hobj. cbn in Hpick.
      destruct (typeIsResult _); [discriminate |].
      destruct (innerKey _); [| discriminate].
      destruct (assoc _ _) as [[p |] |]; try discriminate.
      destruct (truthy p); discriminate.
  - (* object *)
    pose proof H as Hwhole.
    cbn [pickBestSpeedtestResult] in H.
    destruct (typeIsResult (JObj m)) eqn:Hres.
    + injection H as <-. split; [reflexivity |].
      split; [apply nested_here | assumption].
    + destruct (innerKey (JObj m)) as [k |] eqn:Hk.
      * rewrite assoc_map_snd in H.
        destruct (assoc (lit k) m) as [x |] eqn:Hx; cbn [option_map] in H.
        -- destruct (pickBestSpeedtestResult x) as [picked |] eqn:Hpick.
           ++ destruct (assoc_In _ _ _ Hx) as [k' Hin].
              rewrite Forall_forall in IH. specialize (IH _ Hin picked Hpick).
              cbn [snd] in IH. destruct IH as (Hp & Hnp & Hpp).
              rewrite (isObject_truthy picked Hp) in H. injection H as <-.
              split; [assumption |]. split; [| assumption].
              apply nested_member with k x; try assumption.
              now apply innerKey_names with (JObj m).
           ++ injection H as <-. split; [reflexivity |].
              split; [apply nested_here | assumption].
        -- injection H as <-. split; [reflexivity |].
           split; [apply nested_here | assumption].
      * injection H as <-. split; [reflexivity |].
        split; [apply nested_here | assumption].
Qed.

Lemma pickBestSpeedtestResult_object (m : list (jsstr * json)) :
  exists r, pickBestSpeedtestResult (JObj m) = Some r.
Proof.
  cbn [pickBestSpeedtestResult].
  destruct (typeIsResult _); [now eexists |].
  destruct (innerKey _); [| now eexists].
  destruct (assoc _ _) as [[p |] |]; try now eexists.
  destruct (truthy p); now eexists.
Qed.

(** X11.  What [pickBestSpeedtestResult] returns is always an object,
    found in the document itself or under array items and members named
    [result] or [data]; picking again from it returns it unchanged; and
    a scalar or [null] document yields nothing while an object always
    yields something. *)
Theorem pickBestSpeedtestResult_picks (v r : json)
  (Hpick : pickBestSpeedtestResult v = Some r) :
  isObject r = true
  /\ nestedIn v r
  /\ pickBestSpeedtestResult r = Some r
  /\ orElse (pickBestSpeedtestResult r) r = r
  /\ isContainer v = true
  /\ 0 <= scoreCandidate r <= 21.
Proof.
  destruct (pickBestSpeedtestResult_spec v r Hpick) as (Hobj & Hnest & Hagain).
  split; [exact Hobj |]. split; [exact Hnest |]. split; [exact Hagain |].
  split.
  - rewrite Hagain. cbn [orElse]. now rewrite (isObject_truthy r Hobj).
  - split.
    + destruct v; try discriminate Hpick; reflexivity.
    + unfold scoreCandidate.
      repeat match goal with
        | |- context [if ?c then _ else _] => destruct c
        end; lia.
Qed.

Lemma pickBestSpeedtestResult_picks_witness :
  pickBestSpeedtestResult
    (JObj [(lit "data", JArr [JNum 1; measurementObject])])
  = Some measurementObject
  /\ nestedIn (JObj [(lit "data", JArr [JNum 1; measurementObject])])
              measurementObject
  /\ pickBestSpeedtestResult measurementObject = Some measurementObject.
Proof.
  assert (H : pickBestSpeedtestResult
                (JObj [(lit "data", JArr [JNum 1; measurementObject])])
              = Some measurementObject) by (vm_compute; reflexivity).
  split; [exact H |].
  destruct (pickBestSpeedtestResult_picks _ _ H) as (_ & Hn & Ha & _).
  now split.
Defined.

(* ------------------------------------------------------------------ *)
(** ** The blocks that [extractBestJsonBlock] looks at                  *)

Lemma scanBlock_shift (t : jsstr) :
  forall i k d a b,
    scanBlock t (i + k) d a b
    = option_map (fun e => (e + k)%nat) (scanBlock t i d a b).
Proof.
  induction t as [| c t IH]; intros i k d a b; [reflexivity |].
  cbn [scanBlock].
  repeat match goal with
    | |- context [if ?x then _ else _] => destruct x
    end;
    try (change (S (i + k)) with (S i + k)%nat; apply IH).
  reflexivity.
Qed.

(** A scan that returns at index [e] has read the text up to [e] and no
    further: it returns the same on that prefix alone. *)
Lemma scanBlock_prefix (t : jsstr) :
  forall i d a b e,
    scanBlock t i d a b = Some e ->
    (i <= e < i + length t)%nat
    /\ scanBlock (firstn (e - i + 1) t) i d a b = Some e.
Proof.
  induction t as [| c t IH]; intros i d a b e H; [discriminate |].
  cbn [scanBlock] in H. cbn [length].
  repeat match type of H with
    | (if ?x then _ else _) = _ => destruct x eqn:?
    end;
    try (apply IH in H as [Hr Hp]; split; [lia |];
         replace (e - i + 1)%nat with (S (e - S i + 1)) by lia;
         cbn [firstn scanBlock];
         repeat match goal with
           | Hx : ?x = _ |- context [if ?x then _ else _] => rewrite Hx
           end;
         exact Hp).
  injection H as <-. split; [lia |].
  replace (i - i + 1)%nat with 1%nat by lia. cbn [firstn scanBlock].
  repeat match goal with
    | Hx : ?x = _ |- context [if ?x then _ else _] => rewrite Hx
    end.
  reflexivity.
Qed.

Lemma skipn_skipn {A : Type} (a b : nat) (l : list A) :
  skipn a (skipn b l) = skipn (a + b) l.
Proof.
  revert l. induction b as [| b IH]; intros l.
  - now rewrite Nat.add_0_r.
  - destruct l as [| x l]; [now rewrite !skipn_nil |].
    rewrite Nat.add_succ_r. cbn [skipn]. apply IH.
Qed.

(** What [extractJsonBlockFrom] returns: the text from [start] to the
    index [e] it reports, which is a block of its own. *)
Lemma extractJsonBlockFrom_block (s block : jsstr) (start e : nat) :
  extractJsonBlockFrom s start = Some (block, e) ->
  (start <= e < length s)%nat
  /\ skipn start s = block ++ skipn (e + 1) s
  /\ length block = (e - start + 1)%nat
  /\ extractJsonBlockFrom block 0 = Some (block, (length block - 1)%nat).
Proof.
  unfold extractJsonBlockFrom.
  destruct (scanBlock (skipn start s) start 0 false false) as [e' |] eqn:H;
    [| discriminate].
  intros [= <- <-].
  apply scanBlock_prefix in H as [Hr Hp].
  rewrite length_skipn in Hr.
  unfold slice. replace (e' + 1 - start)%nat with (e' - start + 1)%nat by lia.
  set (n := (e' - start + 1)%nat) in *.
  assert (Hlen : length (firstn n (skipn start s)) = n).
  { rewrite length_firstn, length_skipn. lia. }
  split; [lia |]. split; [| split; [exact Hlen |]].
  - rewrite <- (firstn_skipn n (skipn start s)) at 1.
    f_equal. rewrite skipn_skipn. f_equal. lia.
  - cbn [skipn]. rewrite Hlen.
    change start with (0 + start)%nat in Hp at 2.
    rewrite scanBlock_shift in Hp.
    destruct (scanBlock (firstn n (skipn start s)) 0 0 false false) as [e0 |];
      [| discriminate].
    cbn [option_map] in Hp. injection Hp as Hp.
    replace (e0 + 1 - 0)%nat with n by lia.
    rewrite <- Hlen at 1. rewrite firstn_all.
    do 2 f_equal. lia.
Qed.

Lemma searchOpen_split (t : jsstr) (n : nat) :
  searchOpen t = Some n ->
  exists pre c rest,
    t = pre ++ c :: rest /\ length pre = n /\ isOpen c = true
    /\ noOpen pre = true.
Proof.
  revert n. induction t as [| x t IH]; intros n H; [discriminate |].
  cbn [searchOpen] in H. destruct (isOpen x) eqn:Hx.
  - injection H as <-. now exists [], x, t.
  - destruct (searchOpen t) as [m |]; [| discriminate].
    injection H as <-.
    destruct (IH m eq_refl) as (pre & c & rest & -> & Hlen & Hc & Hpre).
    exists (x :: pre), c, rest.
    split; [reflexivity |]. split; [cbn; now rewrite Hlen |].
    split; [exact Hc |]. unfold noOpen in *. cbn. now rewrite Hx.
Qed.

Lemma partsOf_after (g t : jsstr) (bs : list jsstr) :
  partsOf bs t -> partsOf bs (g ++ t).
Proof.
  intros H. destruct H as [rest | gap b bs rest H].
  - constructor.
  - rewrite app_assoc. now constructor.
Qed.

(** The invariant of the [while] loop of [extractBestJsonBlock]. *)
Lemma collectBlocks_parts (f : nat) :
  forall s pos acc,
    exists new,
      collectBlocks f s pos acc = acc ++ new
      /\ partsOf new (skipn pos s)
      /\ Forall isBlock new
      /\ (length (acc ++ new) <= Nat.max 40 (length acc))%nat.
Proof.
  induction f as [| f IH]; intros s pos acc.
  - exists []. rewrite app_nil_r. repeat split; try constructor. lia.
  - assert (Hstop : exists new,
              acc = acc ++ new /\ partsOf new (skipn pos s)
              /\ Forall isBlock new
              /\ (length (acc ++ new) <= Nat.max 40 (length acc))%nat).
    { exists []. rewrite app_nil_r. repeat split; try constructor. lia. }
    cbn [collectBlocks].
    destruct (Nat.ltb_spec pos (length s)) as [Hpos |]; [| exact Hstop].
    destruct (Nat.ltb_spec (length acc) 40) as [Hroom |]; [| exact Hstop].
    cbn [andb].
    destruct (searchOpen (skipn pos s)) as [rel |] eqn:Hsearch; [| exact Hstop].
    destruct (searchOpen_split _ _ Hsearch)
      as (pre & c & rest & Hsplit & Hlen & Hc & _).
    assert (Hstart : skipn (pos + rel) s = c :: rest).
    { rewrite Nat.add_comm, <- skipn_skipn, Hsplit, <- Hlen.
      now rewrite skipn_app, skipn_all, Nat.sub_diag. }
    destruct (extractJsonBlockFrom s (pos + rel)) as [[block e] |] eqn:Hblock.
    + apply extractJsonBlockFrom_block in Hblock
        as (Hr & Hparts & Hblen & Hself).
      destruct (IH s (e + 1)%nat (acc ++ [block]))
        as (new & Hnew & Hp & Hall & Hcount).
      exists (block :: new). rewrite Hnew, <- app_assoc. cbn [app].
      split; [reflexivity |]. split; [| split].
      * rewrite Hsplit, <- Hstart, Hparts. now constructor.
      * constructor; [| exact Hall]. split; [| exact Hself].
        rewrite Hstart in Hparts. destruct block as [| o b'].
        -- cbn in Hblen. lia.
        -- exists o, b'. split; [reflexivity |].
           cbn [app] in Hparts. now injection Hparts as <- _.
      * rewrite <- app_assoc in Hcount. cbn [app] in Hcount.
        rewrite !length_app in *. cbn [length] in *. lia.
    + destruct (IH s (pos + rel + 1)%nat acc)
        as (new & Hnew & Hp & Hall & Hcount).
      exists new. split; [exact Hnew |]. split; [| now split].
      rewrite Hsplit.
      replace (skipn (pos + rel + 1) s) with rest in Hp.
      * apply partsOf_after. now apply (partsOf_after [c]).
      * rewrite Nat.add_comm, <- skipn_skipn, Hstart. reflexivity.
Qed.

Lemma bestOfBlocks_from (blocks : list jsstr) :
  forall best bestScore r,
    bestOfBlocks blocks best bestScore = Some r ->
    best = Some r
    \/ exists b obj0,
         In b blocks /\ JSON_parse b = Some obj0
         /\ r = orElse (pickBestSpeedtestResult obj0) obj0.
Proof.
  induction blocks as [| b rest IH]; intros best bs r H; cbn in H.
  - now left.
  - destruct (JSON_parse b) as [obj0 |] eqn:Hparse.
    + destruct (_ <? _).
      * apply IH in H as [[= <-] | (b' & o' & Hin & Hp & Hr)].
        -- right. exists b, obj0. repeat split; [now left | assumption].
        -- right. exists b', o'. repeat split; [now right | assumption ..].
      * apply IH in H as [H | (b' & o' & Hin & Hp & Hr)]; [now left |].
        right. exists b', o'. repeat split; [now right | assumption ..].
    + apply IH in H as [H | (b' & o' & Hin & Hp & Hr)]; [now left |].
      right. exists b', o'. repeat split; [now right | assumption ..].
Qed.

(** X12.  The blocks that [extractBestJsonBlock] collects from a text:
    there are at most 40, they lie in the text one after the other
    without overlap, each starts at an opening brace or bracket and is
    what the scanner extracts from its own start; and whatever
    [extractBestJsonBlock] returns is the pick of one of these blocks
    that parses. *)
Theorem extractBestJsonBlock_blocks (s : jsstr) :
  let blocks := collectBlocks (S (length s)) s 0 [] in
  (length blocks <= 40)%nat
  /\ partsOf blocks s
  /\ Forall isBlock blocks
  /\ (forall best,
        extractBestJsonBlock s = Some best ->
        exists b obj0,
          In b blocks /\ JSON_parse b = Some obj0
          /\ best = orElse (pickBestSpeedtestResult obj0) obj0)
  /\ (blocks = [] -> extractBestJsonBlock s = None).
Proof.
  cbv zeta.
  destruct (collectBlocks_parts (S (length s)) s 0 [])
    as (new & Hnew & Hparts & Hall & Hcount).
  cbn [app skipn length] in Hnew, Hparts, Hcount. rewrite Hnew.
  split; [lia |]. split; [exact Hparts |]. split; [exact Hall |]. split.
  - intros best Hbest. unfold extractBestJsonBlock in Hbest.
    rewrite Hnew in Hbest.
    now apply bestOfBlocks_from in Hbest as [[=] | H].
  - intros ->. unfold extractBestJsonBlock. now rewrite Hnew.
Qed.

(* ------------------------------------------------------------------ *)
(** ** The outcomes of [safeJsonParse]                                  *)

Lemma trimStart_nil (s : jsstr) :
  trimStart s = [] <-> forallb isWhiteSpace s = true.
Proof.
  induction s as [| c s IH]; [now split |]. cbn.
  destruct (isWhiteSpace c); [exact IH | now split].
Qed.

Lemma forallb_rev {A : Type} (p : A -> bool) (l : list A) :
  forallb p (rev l) = forallb p l.
Proof.
  induction l as [| x l IH]; [reflexivity |]. cbn.
  rewrite forallb_app, IH. cbn. rewrite andb_true_r. apply andb_comm.
Qed.

Lemma trim_nil (s : jsstr) :
  trim s = [] <-> forallb isWhiteSpace s = true.
Proof.
  unfold trim, trimEnd. split.
  - intros H. apply (f_equal (@rev N)) in H.
    rewrite rev_involutive in H. cbn in H.
    apply trimStart_nil in H. rewrite forallb_rev in H.
    pose proof (trimStart_head s) as Hhead.
    apply trimStart_nil.
    destruct (trimStart s) as [| x t]; [reflexivity |].
    cbn in H. now rewrite Hhead in H.
  - intros H. apply trimStart_nil in H. now rewrite H.
Qed.

Lemma jsize_item (items : list json) (it : json) :
  In it items -> (jsize it < jsize (JArr items))%nat.
Proof.
  cbn [jsize]. induction items as [| x items IH]; [contradiction |].
  cbn [fold_right]. intros [-> | Hin]; [lia |]. specialize (IH Hin). lia.
Qed.

Lemma jsize_member (m : list (jsstr * json)) (k : jsstr) (x : json) :
  assoc k m = Some x -> (jsize x < jsize (JObj m))%nat.
Proof.
  cbn [jsize]. induction m as [| [k' y] m IH]; [discriminate |].
  cbn [assoc fold_right snd]. destruct (jsstr_eqb k' k).
  - intros [= ->]. lia.
  - intros H. specialize (IH H). lia.
Qed.

Lemma nestedIn_size (v r : json) :
  nestedIn v r -> r = v \/ (jsize r < jsize v)%nat.
Proof.
  induction 1 as [v | items it r Hin _ IH | k m x r _ Hx _ IH].
  - now left.
  - right. pose proof (jsize_item items it Hin). destruct IH as [-> | IH]; lia.
  - right. pose proof (jsize_member m _ x Hx). destruct IH as [-> | IH]; lia.
Qed.

Lemma json_eqb_size (a : json) :
  forall b, json_eqb a b = true -> jsize a = jsize b.
Proof.
  induction a as [| x | p | s | xs IH | xm IH] using json_nested_ind;
    intros b H; destruct b as [| y | q | t | ys | ym]; try discriminate H;
    try reflexivity.
  - cbn [json_eqb] in H. cbn [jsize]. f_equal.
    revert ys H. induction IH as [| x xs Hx _ IHxs]; intros ys H.
    + now destruct ys.
    + destruct ys as [| y ys]; [discriminate |].
      apply andb_true_iff in H as [Hxy Hrest]. cbn [fold_right].
      now rewrite (Hx y Hxy), (IHxs ys Hrest).
  - cbn [json_eqb] in H. cbn [jsize]. f_equal.
    revert ym H. induction IH as [| [k x] xm Hx _ IHxm]; intros ym H.
    + now destruct ym.
    + destruct ym as [| [l y] ym]; [discriminate |].
      apply andb_true_iff in H as [H Hrest].
      apply andb_true_iff in H as [_ Hxy]. cbn [fold_right snd].
      cbn [snd] in Hx. now rewrite (Hx y Hxy), (IHxm ym Hrest).
Qed.

(** Structural equality decides identity between a document and what
    was picked from it: a picked value that is equal to the document is
    the document. *)
Lemma picked_identity (v r : json) :
  pickBestSpeedtestResult v = Some r -> json_eqb r v = true -> r = v.
Proof.
  intros Hpick Heq.
  destruct (pickBestSpeedtestResult_spec v r Hpick) as (_ & Hnest & _).
  apply nestedIn_size in Hnest as [-> | Hlt]; [reflexivity |].
  apply json_eqb_size in Heq. lia.
Qed.

Lemma parseValue_bracket_container (f : nat) (s r : jsstr) (v : json) :
  parseValue f (LBRACKET :: s) = Some (v, r) -> isContainer v = true.
Proof.
  destruct f as [| f]; [discriminate |].
  rewrite parseValue_unfold.
  change ((LBRACKET =? LBRACE)%N) with false.
  change ((LBRACKET =? LBRACKET)%N) with true. cbv iota.
  destruct (skipWs s) as [| c1 r1]; [discriminate |].
  destruct (c1 =? RBRACKET)%N.
  - now intros [= <- <-].
  - intros H. now destruct (parse_scan f) as (_ & He & _);
      destruct (He _ _ _ _ H).
Qed.

Lemma block_parse_container (b : jsstr) (v : json) :
  isBlock b -> JSON_parse b = Some v -> isContainer v = true.
Proof.
  intros [(o & rest & -> & Ho) _]. unfold JSON_parse.
  assert (Hws : isJsonWs o = false).
  { unfold isOpen in Ho. apply orb_true_iff in Ho as [Ho | Ho];
      apply N.eqb_eq in Ho; subst o; reflexivity. }
  cbn [skipWs]. rewrite Hws.
  destruct (parseValue _ _) as [[v' r] |] eqn:Hparse; [| discriminate].
  destruct (isEmpty (skipWs r)); [| discriminate]. intros [= <-].
  unfold isOpen in Ho. apply orb_true_iff in Ho as [Ho | Ho];
    apply N.eqb_eq in Ho; subst o.
  - now apply parseValue_brace_container in Hparse.
  - now apply parseValue_bracket_container in Hparse.
Qed.

Lemma picked_or_whole_container (v : json) :
  isContainer v = true ->
  isContainer (orElse (pickBestSpeedtestResult v) v) = true.
Proof.
  intros Hv. destruct (pickBestSpeedtestResult v) as [r |] eqn:Hpick;
    [| exact Hv].
  destruct (pickBestSpeedtestResult_spec v r Hpick) as (Hobj & _).
  cbn [orElse]. rewrite (isObject_truthy r Hobj). now destruct r.
Qed.

(** X13.  The outcomes of [safeJsonParse].  It reports [empty_output]
    exactly for a text of white space only.  It reports [invalid_json]
    only for a text that is not JSON, with the length of the trimmed
    text and its first and last 200 code units.  A value that is not
    flagged as salvaged is the parsed document itself; a value flagged
    as salvaged is an object or an array, never a scalar. *)
Theorem safeJsonParse_outcomes (text : jsstr) :
  (safeJsonParse text = ParseEmptyOutput
   <-> forallb isWhiteSpace text = true)
  /\ (forall head tail len,
        safeJsonParse text = ParseInvalidJson head tail len ->
        JSON_parse (trim text) = None
        /\ len = length (trim text) /\ (0 < len)%nat
        /\ head = firstn 200 (trim text)
        /\ tail = skipn (len - 200) (trim text)
        /\ (length head <= 200)%nat /\ (length tail <= 200)%nat
        /\ ((len <= 200)%nat -> head = trim text /\ tail = trim text))
  /\ (forall v,
        safeJsonParse text = ParseOk v false ->
        JSON_parse (trim text) = Some v)
  /\ (forall v,
        safeJsonParse text = ParseOk v true ->
        truthy v = true /\ isContainer v = true).
Proof.
  unfold safeJsonParse.
  set (s := trim text).
  assert (Hblank : s = [] <-> forallb isWhiteSpace text = true)
    by apply trim_nil.
  destruct s as [| c0 s0] eqn:Hs.
  { cbn [isEmpty]. split; [| repeat split; discriminate].
    split; intros _; [now apply Hblank | reflexivity]. }
  rewrite <- Hs in *. replace (isEmpty s) with false by now rewrite Hs.
  assert (Hfail :
    forall head tail len,
      JSON_parse s = None ->
      ParseInvalidJson (slice s 0 200) (slice s (length s - 200) (length s))
                       (length s)
      = ParseInvalidJson head tail len ->
      JSON_parse s = None
      /\ len = length s /\ (0 < len)%nat
      /\ head = firstn 200 s
      /\ tail = skipn (len - 200) s
      /\ (length head <= 200)%nat /\ (length tail <= 200)%nat
      /\ ((len <= 200)%nat -> head = s /\ tail = s)).
  { intros head tail len Hnone [= <- <- <-].
    unfold slice. rewrite Nat.sub_0_r. cbn [skipn].
    assert (Htail : firstn (length s - (length s - 200))
                      (skipn (length s - 200) s)
                    = skipn (length s - 200) s).
    { apply firstn_all2. rewrite length_skipn. lia. }
    rewrite Htail.
    split; [exact Hnone |]. split; [reflexivity |].
    split; [rewrite Hs; cbn; lia |]. split; [reflexivity |].
    split; [reflexivity |].
    split; [rewrite length_firstn; lia |].
    split; [rewrite length_skipn; lia |].
    intros Hshort. split; [now apply firstn_all2 |].
    now replace (length s - 200)%nat with 0%nat by lia. }
  split; [| split; [| split]].
  - split.
    + intros H. destruct (JSON_parse s); [discriminate |].
      destruct (extractBestJsonBlock s) as [best |]; [| discriminate].
      destruct (truthy best); discriminate.
    + intros H. apply Hblank in H. rewrite Hs in H. discriminate.
  - intros head tail len H.
    destruct (JSON_parse s) as [parsed |] eqn:Hparse; [discriminate |].
    destruct (extractBestJsonBlock s) as [best |].
    + destruct (truthy best); [discriminate |]. now apply Hfail.
    + now apply Hfail.
  - intros v H.
    destruct (JSON_parse s) as [parsed |] eqn:Hparse.
    + injection H as Hv Hflag. f_equal.
      destruct (pickBestSpeedtestResult parsed) as [p |] eqn:Hpick;
        [| now cbn in Hv].
      destruct (pickBestSpeedtestResult_spec parsed p Hpick) as (Hobj & _).
      cbn [orElse optTruthy] in Hv, Hflag.
      rewrite (isObject_truthy p Hobj) in Hv, Hflag. cbn [andb] in Hflag.
      apply negb_false_iff in Hflag. subst v.
      symmetry. now apply picked_identity.
    + destruct (extractBestJsonBlock s) as [best |]; [| discriminate].
      destruct (truthy best); discriminate.
  - intros v H.
    destruct (JSON_parse s) as [parsed |] eqn:Hparse.
    + injection H as Hv Hflag.
      destruct (pickBestSpeedtestResult parsed) as [p |] eqn:Hpick;
        [| discriminate].
      destruct (pickBestSpeedtestResult_spec parsed p Hpick) as (Hobj & _).
      cbn [orElse] in Hv. rewrite (isObject_truthy p Hobj) in Hv. subst v.
      split; [now apply isObject_truthy | now destruct p].
    + destruct (extractBestJsonBlock s) as [best |] eqn:Hbest;
        [| discriminate].
      destruct (truthy best) eqn:Htruthy; [| discriminate].
      injection H as <-. split; [exact Htruthy |].
      unfold extractBestJsonBlock in Hbest.
      destruct (collectBlocks_parts (S (length s)) s 0 [])
        as (new & Hnew & _ & Hall & _).
      cbn [app] in Hnew. rewrite Hnew in Hbest.
      apply bestOfBlocks_from in Hbest
        as [[=] | (b & obj0 & Hin & Hobj0 & ->)].
      rewrite Forall_forall in Hall.
      apply picked_or_whole_container.
      now apply block_parse_container with b; [apply Hall |].
Qed.

(* ------------------------------------------------------------------ *)
(** ** The salvage of an embedded object                                *)

(** *** The scanner on a block that is followed by more text *)

Lemma scanBlock_extend (t : jsstr) :
  forall k i d a b e,
    scanBlock t i d a b = Some e -> scanBlock (t ++ k) i d a b = Some e.
Proof.
  induction t as [| c t IH]; intros k i d a b e H; [discriminate |].
  cbn [scanBlock app] in *.
  repeat match type of H with
    | (if ?x then _ else _) = _ => destruct x
    end; try (now apply IH).
  exact H.
Qed.

Lemma isBlock_scan (b : jsstr) :
  isBlock b ->
  b <> [] /\ scanBlock b 0 0 false false = Some (length b - 1)%nat.
Proof.
  intros [(o & rest & -> & _) H]. split; [discriminate |].
  unfold extractJsonBlockFrom in H. cbn [skipn] in H.
  destruct (scanBlock (o :: rest) 0 0 false false) as [e |]; [| discriminate].
  now injection H as _ ->.
Qed.

(** A block is extracted wherever it stands, whatever follows it. *)
Lemma isBlock_extract (b pre k : jsstr) :
  isBlock b ->
  extractJsonBlockFrom (pre ++ b ++ k) (length pre)
  = Some (b, (length pre + length b - 1)%nat).
Proof.
  intros Hb. destruct (isBlock_scan b Hb) as [Hne Hscan].
  assert (Hlen : (0 < length b)%nat)
    by (destruct b; [contradiction | cbn; lia]).
  unfold extractJsonBlockFrom, slice. rewrite skipn_app_length.
  apply (scanBlock_extend b k) in Hscan.
  pose proof (scanBlock_shift (b ++ k) 0 (length pre) 0 false false) as Hshift.
  cbn [Nat.add] in Hshift. rewrite Hshift, Hscan. cbn [option_map].
  f_equal. f_equal; [| lia].
  replace (length b - 1 + length pre + 1 - length pre)%nat with (length b)
    by lia.
  apply firstn_app_length.
Qed.

Lemma object_text_block (body : jsstr) (obj : json) :
  JSON_parse (LBRACE :: body ++ [RBRACE]) = Some obj ->
  isBlock (LBRACE :: body ++ [RBRACE]).
Proof.
  intros Hobj. split; [now exists LBRACE, (body ++ [RBRACE]) |].
  pose proof (extractJsonBlockFrom_embedded [] body []
                (object_text_inner body obj Hobj)) as H.
  cbn [app length] in H. rewrite app_nil_r in H. rewrite H.
  do 2 f_equal. cbn [length]. rewrite length_app. cbn [length]. lia.
Qed.

(** *** Collecting the blocks of the noise and the object *)

Lemma collectBlocks_step (done g b tail s : jsstr) (acc : list jsstr) :
  s = done ++ g ++ b ++ tail ->
  noOpen g = true -> isBlock b -> (length acc < 40)%nat ->
  collectBlocks (S (length s)) s (length done) acc
  = collectBlocks (S (length s)) s (length (done ++ g ++ b)) (acc ++ [b]).
Proof.
  intros Hs Hg Hb Hroom.
  pose proof Hb as [(o & b' & Hbo & Ho) _].
  assert (Hlen : (0 < length b)%nat) by (rewrite Hbo; cbn; lia).
  assert (Hslen : length s = (length done + length g + length b + length tail)%nat)
    by (rewrite Hs, !length_app; lia).
  remember (collectBlocks (S (length s)) s (length (done ++ g ++ b))
              (acc ++ [b])) as after eqn:Hafter.
  cbn [collectBlocks].
  replace (length done <? length s)%nat with true
    by (symmetry; apply Nat.ltb_lt; lia).
  replace (length acc <? 40)%nat with true
    by (symmetry; now apply Nat.ltb_lt).
  cbn [andb].
  assert (Hskip : skipn (length done) s = g ++ b ++ tail)
    by (rewrite Hs; apply skipn_app_length).
  rewrite Hskip.
  assert (Hsearch : searchOpen (g ++ b ++ tail) = Some (length g))
    by (rewrite Hbo; cbn [app]; now apply searchOpen_after).
  rewrite Hsearch.
  assert (Hext : extractJsonBlockFrom s (length done + length g)
                 = Some (b, (length done + length g + length b - 1)%nat)).
  { rewrite Hs. rewrite app_assoc, <- length_app.
    rewrite (isBlock_extract b (done ++ g) tail Hb). now rewrite length_app. }
  rewrite Hext.
  replace (length done + length g + length b - 1 + 1)%nat
    with (length (done ++ g ++ b)) by (rewrite !length_app; lia).
  subst after. apply collectBlocks_fuel; rewrite ?length_app; lia.
Qed.

Lemma collectBlocks_skip (done g tail s : jsstr) (o : N)
  (acc : list jsstr) :
  s = done ++ g ++ o :: tail ->
  noOpen g = true -> isOpen o = true ->
  scanBlock (o :: tail) 0 0 false false = None ->
  (length acc < 40)%nat ->
  collectBlocks (S (length s)) s (length done) acc
  = collectBlocks (S (length s)) s (length (done ++ g ++ [o])) acc.
Proof.
  intros Hs Hg Ho Hscan Hroom.
  assert (Hslen : length s = (length done + length g + S (length tail))%nat)
    by (rewrite Hs, !length_app; cbn [length]; lia).
  remember (collectBlocks (S (length s)) s (length (done ++ g ++ [o])) acc)
    as after eqn:Hafter.
  cbn [collectBlocks].
  replace (length done <? length s)%nat with true
    by (symmetry; apply Nat.ltb_lt; lia).
  replace (length acc <? 40)%nat with true
    by (symmetry; now apply Nat.ltb_lt).
  cbn [andb].
  assert (Hskip : skipn (length done) s = g ++ o :: tail)
    by (rewrite Hs; apply skipn_app_length).
  rewrite Hskip, (searchOpen_after g tail o Hg Ho).
  assert (Hext : extractJsonBlockFrom s (length done + length g) = None).
  { unfold extractJsonBlockFrom.
    rewrite Hs at 1. rewrite app_assoc, <- length_app, skipn_app_length.
    pose proof (scanBlock_shift (o :: tail) 0 (length (done ++ g))
                  0 false false) as Hshift.
    cbn [Nat.add] in Hshift. now rewrite Hshift, Hscan. }
  rewrite Hext.
  replace (length done + length g + 1)%nat with (length (done ++ g ++ [o]))
    by (rewrite !length_app; cbn [length]; lia).
  subst after. apply collectBlocks_fuel; rewrite ?length_app; cbn [length]; lia.
Qed.

Lemma collectBlocks_noise (after : jsstr) (bs : list jsstr) (p : jsstr) :
  noise after bs p ->
  forall done b tail s acc,
    after = b ++ tail ->
    s = done ++ p ++ after ->
    isBlock b -> (length acc + length bs < 40)%nat ->
    collectBlocks (S (length s)) s (length done) acc
    = collectBlocks (S (length s)) s (length (done ++ p ++ b))
        (acc ++ bs ++ [b]).
Proof.
  induction 1 as [g Hg | g b0 bs rest Hg Hb0 _ IH
                 | g o bs rest Hg Ho Hscan _ IH];
    intros done b tail s acc Hafter Hs Hb Hroom.
  - cbn [app]. apply (collectBlocks_step done g b tail); try assumption.
    + now rewrite Hs, Hafter.
    + cbn [length] in Hroom. lia.
  - cbn [length] in Hroom.
    rewrite (collectBlocks_step done g b0 (rest ++ after) s acc);
      [| rewrite Hs, <- !app_assoc; reflexivity | assumption .. | lia].
    rewrite (IH (done ++ g ++ b0) b tail s (acc ++ [b0]));
      [| assumption | rewrite Hs, <- !app_assoc; reflexivity | assumption
       | rewrite length_app; cbn [length]; lia].
    rewrite <- !app_assoc. reflexivity.
  - rewrite (collectBlocks_skip done g (rest ++ after) s o acc);
      [| rewrite Hs, <- !app_assoc; reflexivity | assumption .. | lia].
    rewrite (IH (done ++ g ++ [o]) b tail s acc);
      [| assumption | rewrite Hs, <- !app_assoc; reflexivity | assumption ..].
    rewrite <- !app_assoc. reflexivity.
Qed.

Lemma partsOf_part (blocks : list jsstr) (t b : jsstr) :
  partsOf blocks t -> In b blocks -> exists a c, t = a ++ b ++ c.
Proof.
  induction 1 as [rest | gap b0 bs rest _ IH]; [contradiction |].
  intros [-> | Hin].
  - now exists gap, rest.
  - destruct (IH Hin) as (a & c & ->).
    exists (gap ++ b0 ++ a), c. now rewrite <- !app_assoc.
Qed.

(** *** The selection among the blocks *)

Lemma bestOfBlocks_below (bound : Z) (bs : list jsstr) :
  forallb (scoresBelow bound) bs = true ->
  forall rest best sc,
    sc < bound ->
    exists best' sc',
      sc' < bound
      /\ bestOfBlocks (bs ++ rest) best sc = bestOfBlocks rest best' sc'.
Proof.
  induction bs as [| b bs IH]; intros Hall rest best sc Hsc.
  - now exists best, sc.
  - cbn [forallb] in Hall. apply andb_true_iff in Hall as [Hb Hall].
    cbn [app bestOfBlocks]. unfold scoresBelow, blockScore in Hb.
    destruct (JSON_parse b) as [obj0 |]; [| now apply IH].
    apply Z.ltb_lt in Hb.
    destruct (_ <? _); now apply IH.
Qed.

Lemma bestOfBlocks_atMost (bound : Z) (bs : list jsstr) (best : option json) :
  (forall b, In b bs -> scoresAtMost bound b = true) ->
  bestOfBlocks bs best bound = best.
Proof.
  induction bs as [| b bs IH]; intros Hall; [reflexivity |].
  cbn [bestOfBlocks].
  pose proof (Hall b (or_introl eq_refl)) as Hb.
  unfold scoresAtMost, blockScore in Hb.
  assert (Hrest : bestOfBlocks bs best bound = best).
  { apply IH. intros b' Hb'. apply Hall. now right. }
  destruct (JSON_parse b) as [obj0 |]; [| exact Hrest].
  apply Z.leb_le in Hb.
  now destruct (Z.ltb_spec bound
                  (scoreCandidate (orElse (pickBestSpeedtestResult obj0) obj0)));
    [lia |].
Qed.

(** The object wins the selection when the blocks before it score less
    and the blocks after it do not score more. *)
Lemma bestOfBlocks_winner (before after : list jsstr) (body : jsstr)
  (obj : json) :
  JSON_parse (LBRACE :: body ++ [RBRACE]) = Some obj ->
  keptWhole obj = true ->
  forallb (scoresBelow (scoreCandidate obj)) before = true ->
  (forall b, In b after -> scoresAtMost (scoreCandidate obj) b = true) ->
  bestOfBlocks (before ++ (LBRACE :: body ++ [RBRACE]) :: after) None (-1)
  = Some obj.
Proof.
  intros Hobj Hkept Hbefore Hafter.
  pose proof (scoreCandidate_nonneg obj) as Hpos.
  destruct (bestOfBlocks_below _ before Hbefore
              ((LBRACE :: body ++ [RBRACE]) :: after) None (-1) ltac:(lia))
    as (best' & sc' & Hsc' & ->).
  cbn [bestOfBlocks]. rewrite Hobj.
  destruct (pickBestSpeedtestResult_keptWhole obj Hkept) as [-> _].
  destruct (Z.ltb_spec sc' (scoreCandidate obj)); [| lia].
  now apply bestOfBlocks_atMost.
Qed.

(** *** Noise and white space *)

Lemma isOpen_not_white (c : N) :
  isOpen c = true -> isWhiteSpace c = false /\ isJsonWs c = false.
Proof.
  unfold isOpen. intros H. apply orb_true_iff in H as [H | H];
    apply N.eqb_eq in H; subst c; now split.
Qed.

Lemma noise_trimStart (after : jsstr) (bs : list jsstr) (pre : jsstr) :
  noise after bs pre -> noise after bs (trimStart pre).
Proof.
  intros [g Hg | g b bs' rest Hg Hb Hrest | g o bs' rest Hg Ho Hscan Hrest].
  - constructor. now apply noOpen_trimStart.
  - pose proof Hb as [(o & b' & Hbo & Ho) _].
    replace (trimStart (g ++ b ++ rest)) with (trimStart g ++ b ++ rest).
    + constructor; [now apply noOpen_trimStart | assumption ..].
    + rewrite Hbo. cbn [app]. symmetry. apply trimStart_app.
      now apply isOpen_not_white.
  - rewrite trimStart_app by now apply isOpen_not_white.
    apply noise_open; [now apply noOpen_trimStart | assumption ..].
Qed.

(** Noise before a shorter text: what is closed nowhere in the longer
    text is closed nowhere in the shorter one. *)
Lemma noise_shorter (after w : jsstr) (bs : list jsstr) (pre : jsstr) :
  noise (after ++ w) bs pre -> noise after bs pre.
Proof.
  induction 1 as [g Hg | g b bs rest Hg Hb _ IH
                 | g o bs rest Hg Ho Hscan _ IH].
  - now constructor.
  - now constructor.
  - apply noise_open; try assumption.
    destruct (scanBlock (o :: rest ++ after) 0 0 false false) as [e |] eqn:He;
      [| reflexivity].
    apply (scanBlock_extend _ w) in He.
    cbn [app] in He. rewrite <- app_assoc in He. congruence.
Qed.

Lemma noise_head (after : jsstr) (bs : list jsstr) (x : N) (p : jsstr) :
  noise after bs (x :: p) -> isOpen x = true ->
  (exists b rest, x :: p = b ++ rest /\ isBlock b)
  \/ scanBlock (x :: p ++ after) 0 0 false false = None.
Proof.
  intros H Hx.
  inversion H as [g Hg Hgeq | g b bs' rest Hg Hb Hrest Hbs Hgeq
                 | g o bs' rest Hg Ho Hscan Hrest Hbs Hgeq].
  - subst g. cbn in Hg. now rewrite Hx in Hg.
  - destruct g as [| y g'].
    + left. now exists b, rest.
    + cbn [app] in Hgeq. injection Hgeq as -> _.
      cbn in Hg. now rewrite Hx in Hg.
  - destruct g as [| y g'].
    + right. cbn [app] in Hgeq. now injection Hgeq as <- <-.
    + cbn [app] in Hgeq. injection Hgeq as -> _.
      cbn in Hg. now rewrite Hx in Hg.
Qed.

Lemma trimEnd_last (s : jsstr) :
  trimEnd s = []
  \/ exists t c, trimEnd s = t ++ [c] /\ isWhiteSpace c = false.
Proof.
  unfold trimEnd. pose proof (trimStart_head (rev s)) as H.
  destruct (trimStart (rev s)) as [| x l]; [now left |].
  right. now exists (rev l), x.
Qed.

Lemma trimEnd_prefix (s : jsstr) : exists w, s = trimEnd s ++ w.
Proof.
  assert (Hsuffix : forall t, exists w, t = w ++ trimStart t).
  { induction t as [| c t (w & IH)]; [now exists [] |]. cbn.
    destruct (isWhiteSpace c); [| now exists []].
    exists (c :: w). cbn. now f_equal. }
  destruct (Hsuffix (rev s)) as (w & Hw).
  exists (rev w). unfold trimEnd. rewrite <- rev_app_distr, <- Hw.
  now rewrite rev_involutive.
Qed.

Lemma trimEnd_blank (s : jsstr) : trimEnd s = [] <-> isBlank s = true.
Proof.
  unfold trimEnd, isBlank. rewrite <- (forallb_rev isWhiteSpace s).
  rewrite <- trimStart_nil. split.
  - intros H. apply (f_equal (@rev N)) in H.
    now rewrite rev_involutive in H.
  - now intros ->.
Qed.

(** *** When the text as a whole is JSON *)

Lemma object_text_then (body q : jsstr) (obj : json) :
  JSON_parse (LBRACE :: body ++ [RBRACE]) = Some obj ->
  JSON_parse ((LBRACE :: body ++ [RBRACE]) ++ q)
  = if isEmpty (skipWs q) then Some obj else None.
Proof.
  intros Hobj. destruct (object_text_parse body _ Hobj) as [Hparse _].
  pose proof (parseValue_brace_container _ _ _ _ Hparse) as Hcont.
  unfold JSON_parse.
  change (skipWs ((LBRACE :: body ++ [RBRACE]) ++ q))
    with ((LBRACE :: body ++ [RBRACE]) ++ q).
  match type of Hparse with
  | parseValue ?f _ = _ => destruct (parse_extend f) as (Hext & _ & _)
  end.
  pose proof (Hext _ _ _ q Hparse (or_introl Hcont)) as Hq.
  match type of Hq with
  | parseValue ?f _ = _ => destruct (parse_fuel f) as (Hfuel & _ & _)
  end.
  rewrite (Hfuel _ _ _ Hq); [reflexivity |].
  cbn [app length]. rewrite !length_app. cbn [length]. lia.
Qed.

Lemma brace_not_skipped (l : jsstr) : In LBRACE l -> skipWs l <> [].
Proof.
  intros Hin Hnil. apply skipWs_nil in Hnil.
  rewrite Forall_forall in Hnil. now apply Hnil in Hin.
Qed.

(** Text that starts with a block of the noise is not JSON when the
    object follows that block. *)
Lemma direct_parse_block (b rest : jsstr) (v : json) :
  isBlock b -> In LBRACE rest -> JSON_parse (b ++ rest) = Some v -> False.
Proof.
  intros Hb Hin Hwhole.
  destruct (isBlock_scan b Hb) as [_ Hscan].
  destruct Hb as [(o & b' & -> & Ho) _].
  destruct (isOpen_not_white o Ho) as [_ Hws].
  unfold JSON_parse in Hwhole. cbn [app skipWs] in Hwhole.
  rewrite Hws in Hwhole.
  destruct (parseValue _ _) as [[v' r] |] eqn:Hparse; [| discriminate].
  destruct (skipWs r) eqn:Hr; [| discriminate].
  assert (Hcont : isContainer v' = true).
  { unfold isOpen in Ho. apply orb_true_iff in Ho as [Ho | Ho];
      apply N.eqb_eq in Ho; subst o.
    - now apply parseValue_brace_container in Hparse.
    - now apply parseValue_bracket_container in Hparse. }
  match type of Hparse with
  | parseValue ?f _ = _ => destruct (parse_scan f) as (Hv & _ & _)
  end.
  destruct (Hv _ _ _ Hparse) as [_ Hblock].
  destruct (Hblock Hcont) as (o2 & body & cl & Heq & Ho2 & Hcl & Hbody).
  apply (scanBlock_extend _ rest) in Hscan.
  cbn [app] in Hscan. rewrite Heq in Hscan.
  rewrite (block_scan o2 cl body r 0 Ho2 Hcl Hbody) in Hscan.
  injection Hscan as Hlen. cbn [length] in Hlen.
  injection Heq as _ Heq.
  assert (Hrest : rest = r).
  { apply (f_equal (skipn (length b'))) in Heq.
    rewrite skipn_app_length in Heq. rewrite Heq.
    replace (length b') with (length (body ++ [cl]))
      by (rewrite length_app; cbn; lia).
    change (body ++ cl :: r) with (body ++ [cl] ++ r).
    rewrite app_assoc. apply skipn_app_length. }
  subst r. now apply (brace_not_skipped rest).
Qed.

(** Text that starts with a brace or bracket that is closed nowhere is
    not JSON. *)
Lemma direct_parse_open (o : N) (t : jsstr) (v : json) :
  isOpen o = true ->
  scanBlock (o :: t) 0 0 false false = None ->
  JSON_parse (o :: t) = Some v -> False.
Proof.
  intros Ho Hscan Hwhole.
  destruct (isOpen_not_white o Ho) as [_ Hws].
  unfold JSON_parse in Hwhole. cbn [skipWs] in Hwhole.
  rewrite Hws in Hwhole.
  destruct (parseValue _ _) as [[v' r] |] eqn:Hparse; [| discriminate].
  assert (Hcont : isContainer v' = true).
  { unfold isOpen in Ho. apply orb_true_iff in Ho as [Ho | Ho];
      apply N.eqb_eq in Ho; subst o.
    - now apply parseValue_brace_container in Hparse.
    - now apply parseValue_bracket_container in Hparse. }
  match type of Hparse with
  | parseValue ?f _ = _ => destruct (parse_scan f) as (Hv & _ & _)
  end.
  destruct (Hv _ _ _ Hparse) as [_ Hblock].
  destruct (Hblock Hcont) as (o2 & body & cl & Heq & Ho2 & Hcl & Hbody).
  rewrite Heq in Hscan.
  rewrite (block_scan o2 cl body r 0 Ho2 Hcl Hbody) in Hscan. discriminate.
Qed.

(** Text that starts with a code unit of the noise that is neither
    white space nor an opening brace or bracket is not JSON when the
    object follows. *)
Lemma direct_parse_gap (x : N) (p' body q : jsstr) (obj v : json) :
  isOpen x = false -> isWhiteSpace x = false ->
  JSON_parse (LBRACE :: body ++ [RBRACE]) = Some obj ->
  hasMeasurements obj = true ->
  JSON_parse ((x :: p') ++ (LBRACE :: body ++ [RBRACE]) ++ q) = Some v ->
  False.
Proof.
  intros Hx Hhead Hobj Hfields Hwhole.
  destruct (hasMeasurements_members obj Hfields) as (m & -> & Hm).
  destruct (object_text_parse body _ Hobj) as [Hparse _].
  destruct (object_text_first_key _ _ _ _ Hm Hparse) as (ws & t & Hbody & Hws).
  unfold JSON_parse in Hwhole.
  assert (Hskip : skipWs ((x :: p') ++ (LBRACE :: body ++ [RBRACE]) ++ q)
                  = x :: p' ++ (LBRACE :: body ++ [RBRACE]) ++ q).
  { cbn [app skipWs]. now rewrite (isJsonWs_white x Hhead). }
  rewrite Hskip in Hwhole.
  match type of Hwhole with
  | context [parseValue ?f _] =>
      replace f with (S (2 * length ((x :: p') ++ (LBRACE :: body ++ [RBRACE]) ++ q) + 1))
        in Hwhole by lia
  end.
  rewrite parseValue_unfold in Hwhole.
  assert (Hnb : (x =? LBRACE)%N = false /\ (x =? LBRACKET)%N = false).
  { unfold isOpen in Hx. now apply orb_false_iff in Hx. }
  rewrite (proj1 Hnb), (proj2 Hnb) in Hwhole.
  assert (Hin : forall a, In LBRACE (a ++ (LBRACE :: body ++ [RBRACE]) ++ q)).
  { intros a. apply in_or_app. right. now left. }
  assert (Hnotws : forall c l, isJsonWs c = false -> In c l ->
                               skipWs l = [] -> False).
  { intros c l Hc Hl Hnil. apply skipWs_nil in Hnil.
    rewrite Forall_forall in Hnil. apply Hnil in Hl. congruence. }
  destruct (x =? QUOTE)%N.
  - destruct (parseString SNormal [] _) as [[str rest] |] eqn:Hstr;
      [| discriminate].
    destruct (skipWs rest) eqn:Hrest; [| discriminate].
    apply parseString_through in Hstr as [(a2 & ->) | (st' & acc' & Hstr)].
    + now apply (Hnotws LBRACE _ eq_refl (Hin a2)).
    + cbn [app] in Hstr. rewrite Hbody in Hstr.
      rewrite <- app_assoc in Hstr. cbn [app] in Hstr.
      destruct st' as [| | n h]; cbn [parseString] in Hstr.
      * change ((LBRACE =? QUOTE)%N) with false in Hstr.
        change ((LBRACE =? BACKSLASH)%N) with false in Hstr.
        change ((LBRACE <? 32)%N) with false in Hstr. cbv iota in Hstr.
        apply parseString_white in Hstr; [| assumption]. subst rest.
        apply (Hnotws RBRACE (t ++ q) eq_refl); [| assumption].
        apply in_or_app. left.
        clear - Hbody. induction t as [| z t' _] using rev_ind.
        -- exfalso.
           change (ws ++ [QUOTE]) with (ws ++ [QUOTE]) in Hbody.
           apply app_inj_tail in Hbody as [_ Hbody]. discriminate.
        -- change (QUOTE :: t' ++ [z]) with ((QUOTE :: t') ++ [z]) in Hbody.
           rewrite app_assoc in Hbody.
           apply app_inj_tail in Hbody as [_ <-].
           apply in_or_app. right. now left.
      * vm_compute in Hstr. discriminate.
      * change (isHexDigit LBRACE) with false in Hstr. discriminate.
  - destruct (parseScalar _) as [[v' rest] |] eqn:Hsc; [| discriminate].
    destruct (skipWs rest) eqn:Hrest; [| discriminate].
    apply parseScalar_plain in Hsc as (c & Hsplit & Hplain).
    assert (Hbrace : In LBRACE (c ++ rest))
      by (rewrite <- Hsplit; apply (Hin (x :: p'))).
    apply in_app_or in Hbrace as [Hc | Hr].
    + rewrite Forall_forall in Hplain. apply Hplain in Hc. discriminate.
    + now apply (Hnotws LBRACE rest eq_refl Hr).
Qed.

(** The text as a whole is JSON only when nothing but white space
    surrounds the object. *)
Lemma noisy_text_not_json (bs : list jsstr) (pre body post : jsstr)
  (obj : json) :
  noise ((LBRACE :: body ++ [RBRACE]) ++ trimEnd post) bs pre ->
  JSON_parse (LBRACE :: body ++ [RBRACE]) = Some obj ->
  hasMeasurements obj = true ->
  JSON_parse (trimStart pre ++ (LBRACE :: body ++ [RBRACE]) ++ trimEnd post)
  = if isBlank pre && isBlank post then Some obj else None.
Proof.
  intros Hpre Hobj Hfields.
  apply noise_trimStart in Hpre.
  pose proof (trimStart_head pre) as Hhead.
  pose proof (proj1 (trimStart_nil pre)) as Hblank1.
  pose proof (proj2 (trimStart_nil pre)) as Hblank2.
  fold (isBlank pre) in Hblank1, Hblank2.
  destruct (trimStart pre) as [| x p'] eqn:Hp.
  - rewrite (Hblank1 eq_refl). cbn [andb].
    change ([] ++ (LBRACE :: body ++ [RBRACE]) ++ trimEnd post)
      with ((LBRACE :: body ++ [RBRACE]) ++ trimEnd post).
    rewrite (object_text_then body (trimEnd post) obj Hobj).
    pose proof (proj1 (trimEnd_blank post)) as Hq1.
    pose proof (proj2 (trimEnd_blank post)) as Hq2.
    destruct (trimEnd_last post) as [Hq | (t & c & Hq & Hc)].
    + rewrite Hq. now rewrite (Hq1 Hq).
    + destruct (isBlank post); [rewrite (Hq2 eq_refl) in Hq; now destruct t |].
      rewrite Hq.
      assert (Hne : skipWs (t ++ [c]) <> []).
      { intros Hnil. apply skipWs_nil in Hnil.
        rewrite Forall_forall in Hnil.
        assert (Hin : In c (t ++ [c])) by (apply in_or_app; right; now left).
        specialize (Hnil c Hin).
        now rewrite (isJsonWs_white c Hc) in Hnil. }
      now destruct (skipWs (t ++ [c])).
  - destruct (isBlank pre); [now specialize (Hblank2 eq_refl) |].
    cbn [andb].
    destruct (JSON_parse ((x :: p') ++ (LBRACE :: body ++ [RBRACE])
                            ++ trimEnd post)) as [v |] eqn:Hwhole;
      [exfalso | reflexivity].
    destruct (isOpen x) eqn:Hx.
    + destruct (noise_head _ bs x p' Hpre Hx)
        as [(b & rest & Heq & Hb) | Hscan].
      * rewrite Heq, <- app_assoc in Hwhole.
        apply (direct_parse_block b _ v Hb) in Hwhole; [assumption |].
        apply in_or_app. right. now left.
      * now apply (direct_parse_open x _ v Hx Hscan).
    + now apply (direct_parse_gap x p' body (trimEnd post) obj v).
Qed.

(** *** Parts of a text *)

Lemma prefixes_complete (b c : jsstr) : In b (prefixes (b ++ c)).
Proof.
  induction b as [| x b IH]; cbn.
  - destruct c; now left.
  - right. apply in_map_iff. now exists b.
Qed.

Lemma parts_complete (a b c : jsstr) : In b (parts (a ++ b ++ c)).
Proof.
  induction a as [| x a IH]; cbn [app].
  - pose proof (prefixes_complete b c) as H.
    destruct (b ++ c); [exact H | apply in_or_app; now left].
  - cbn [parts]. apply in_or_app. now right.
Qed.

(** C3 as stated fails, in three ways.  A complete measurement object
    inside braces of the noise is rejected as [invalid_json], because
    only blocks at the top level are looked at.  So is a measurement
    after forty log tags in brackets, because only the first forty
    blocks are looked at.  And of a measurement object with a nested
    [data] object, the nested object is returned, which has none of the
    three members. *)
Lemma embedded_json_missed :
  JSON_parse measurementText = Some measurementObject
  /\ hasMeasurements measurementObject = true
  /\ isOk (safeJsonParse bracedNoiseText) = false
  /\ isOk (safeJsonParse manyTagsText) = false
  /\ (exists nested,
        JSON_parse (txt "{'download':1,'upload':1,'ping':1,'data':{'a':1}}")
        = Some nested
        /\ hasMeasurements nested = true)
  /\ safeJsonParse nestedMeasurementText
     = ParseOk (JObj [(lit "a", JNum 1)]) true
  /\ hasMeasurements (JObj [(lit "a", JNum 1)]) = false.
Proof.
  split; [vm_compute; reflexivity |].
  split; [reflexivity |].
  split; [vm_compute; reflexivity |].
  split; [vm_compute; reflexivity |].
  split; [eexists; split; vm_compute; reflexivity |].
  split; vm_compute; reflexivity.
Qed.

(** Why the noise may not hold a block that scores as much: an empty
    object before a measurement of zeros is returned in its place. *)
Example earlier_block_wins :
  safeJsonParse competingBlockText = ParseOk (JObj []) true
  /\ blockScore (txt "{}") = Some 0
  /\ blockScore zeroMeasurementText = Some 0.
Proof. vm_compute. repeat split. Qed.

(** C3, amended.  Take a complete well-formed JSON object, from its
    opening to its closing brace, that has [download], [upload] and
    [ping] members and that is of type [result] or has no nested
    [result] or [data] object.  Put before it noise in which every
    opening brace or bracket is closed within the noise or nowhere in
    the text, with fewer than 40 bracketed blocks, each of which is not
    JSON or scores less than the object; put after it any text no part
    of which is JSON that scores more than the object.  Then
    [safeJsonParse] returns [ok] with exactly this object, flagged as
    salvaged unless the noise is white space only; and the text as a
    whole is JSON only in that case. *)
Theorem safeJsonParse_embedded (pre body post : jsstr) (bs : list jsstr)
  (obj : json)
  (Hpre : noise ((LBRACE :: body ++ [RBRACE]) ++ post) bs pre)
  (Hcount : (length bs < 40)%nat)
  (Hobj : JSON_parse (LBRACE :: body ++ [RBRACE]) = Some obj)
  (Hfields : hasMeasurements obj = true)
  (Hkept : keptWhole obj = true)
  (Hbefore : forallb (scoresBelow (scoreCandidate obj)) bs = true)
  (Hafter : forall a b c,
      post = a ++ b ++ c -> scoresAtMost (scoreCandidate obj) b = true) :
  safeJsonParse (pre ++ (LBRACE :: body ++ [RBRACE]) ++ post)
  = ParseOk obj (negb (isBlank pre && isBlank post))
  /\ hasMeasurements obj = true
  /\ (JSON_parse (trim (pre ++ (LBRACE :: body ++ [RBRACE]) ++ post)) = None
      <-> isBlank pre && isBlank post = false).
Proof.
  destruct (trimEnd_prefix post) as (w & Hw).
  assert (Hnoise : noise ((LBRACE :: body ++ [RBRACE]) ++ trimEnd post) bs pre).
  { apply noise_shorter with w. now rewrite <- app_assoc, <- Hw. }
  pose proof (noisy_text_not_json bs pre body post obj Hnoise Hobj Hfields)
    as Hwhole.
  rewrite <- trim_embedded in Hwhole.
  split; [| split; [assumption |]].
  2: { rewrite Hwhole. destruct (isBlank pre && isBlank post);
         split; congruence. }
  destruct (isBlank pre && isBlank post) eqn:Hblank.
  { now apply safeJsonParse_kept. }
  cbn [negb]. unfold safeJsonParse. rewrite Hwhole.
  rewrite trim_embedded.
  set (p := trimStart pre). set (q := trimEnd post) in *.
  set (J := LBRACE :: body ++ [RBRACE]) in *.
  assert (HJ : isBlock J) by now apply object_text_block with obj.
  assert (Hbest : extractBestJsonBlock (p ++ J ++ q) = Some obj).
  { unfold extractBestJsonBlock.
    pose proof (collectBlocks_noise (J ++ q) bs p
                  (noise_trimStart _ _ _ Hnoise)
                  [] J q (p ++ J ++ q) [] eq_refl eq_refl HJ
                  ltac:(cbn; lia)) as Hcollect.
    cbn [length app] in Hcollect. rewrite Hcollect.
    destruct (collectBlocks_parts (S (length (p ++ J ++ q))) (p ++ J ++ q)
                (length (p ++ J)) (bs ++ [J]))
      as (new & Hnew & Hparts & _).
    rewrite Hnew, <- app_assoc. cbn [app].
    apply bestOfBlocks_winner; try assumption.
    intros b Hb.
    rewrite app_assoc, skipn_app_length in Hparts.
    destruct (partsOf_part new q b Hparts Hb) as (a & c & Hq).
    apply (Hafter a b (c ++ w)). rewrite Hw, Hq, <- !app_assoc.
    reflexivity. }
  rewrite Hbest.
  assert (Htruthy : truthy obj = true).
  { destruct obj; try discriminate Hfields; reflexivity. }
  rewrite Htruthy.
  destruct (p ++ J ++ q) eqn:Hs; [| reflexivity].
  subst J. now destruct p.
Qed.

Lemma safeJsonParse_embedded_witness :
  safeJsonParse taggedText = ParseOk measurementObject true
  /\ hasMeasurements measurementObject = true
  /\ JSON_parse (trim taggedText) = None.
Proof.
  assert (Hblock : forall b : jsstr,
            (exists o rest, b = o :: rest /\ isOpen o = true) ->
            extractJsonBlockFrom b 0 = Some (b, (length b - 1)%nat) ->
            isBlock b) by (intros b H1 H2; now split).
  pose proof (safeJsonParse_embedded
           ([] ++ lit "[warn]"
               ++ (lit " " ++ lit "{}"
                     ++ (lit " slow " ++ ch "[" :: lit "start ")))
           (txt "'download':93.5,'upload':11.2,'ping':14")
           (lit " [done]")
           [lit "[warn]"; lit "{}"]
           measurementObject) as H.
  destruct H as (H1 & H2 & H3).
  - apply noise_block; [reflexivity | | ].
    + apply Hblock; [now eexists _, _ | vm_compute; reflexivity].
    + apply noise_block; [reflexivity | | ].
      * apply Hblock; [now eexists _, _ | vm_compute; reflexivity].
      * apply noise_open; [reflexivity | reflexivity | | ].
        -- vm_compute. reflexivity.
        -- apply noise_text. reflexivity.
  - cbn. lia.
  - vm_compute. reflexivity.
  - reflexivity.
  - reflexivity.
  - vm_compute. reflexivity.
  - intros a b c Hpost.
    assert (Hin : In b (parts (lit " [done]")))
      by (rewrite Hpost; apply parts_complete).
    clear Hpost. revert b Hin. apply forallb_forall. vm_compute. reflexivity.
  - split; [exact H1 |]. split; [exact H2 |]. now apply H3.
Defined.

(* ================================================================== *)
(** * Further properties of the rate-limit detection                   *)
(* ================================================================== *)

Lemma stripPrefix_self (p r : jsstr) : stripPrefix p (p ++ r) = Some r.
Proof.
  induction p as [| a p IH]; [reflexivity |]. cbn. now rewrite N.eqb_refl.
Qed.

Lemma includes_spec (t n : jsstr) :
  includes t n = true <-> exists pre post, t = pre ++ n ++ post.
Proof.
  induction t as [| c t IH].
  - cbn [includes]. destruct (stripPrefix n []) as [r |] eqn:Hp.
    + split; [| reflexivity]. intros _. apply stripPrefix_app in Hp.
      now exists [], r.
    + split; [discriminate |]. intros (pre & post & H).
      symmetry in H. apply app_eq_nil in H as [-> H].
      apply app_eq_nil in H as [-> ->]. discriminate Hp.
  - cbn [includes]. destruct (stripPrefix n (c :: t)) as [r |] eqn:Hp.
    + split; [| reflexivity]. intros _. apply stripPrefix_app in Hp.
      now exists [], r.
    + rewrite IH. split.
      * intros (pre & post & ->). now exists (c :: pre), post.
      * intros (pre & post & H). destruct pre as [| x pre].
        -- cbn [app] in H. rewrite H, stripPrefix_self in Hp. discriminate.
        -- injection H as _ ->. now exists pre, post.
Qed.

Lemma toLowerCase_app (a b : jsstr) :
  toLowerCase (a ++ b) = toLowerCase a ++ toLowerCase b.
Proof. apply flat_map_app. Qed.

Lemma toLowerCase_asciiUpper (s : jsstr) :
  toLowerCase (asciiUpper s) = toLowerCase s.
Proof.
  induction s as [| c s IH]; [reflexivity |].
  cbn [asciiUpper map toLowerCase flat_map].
  change (flat_map lowerUnit (map _ s)) with (toLowerCase (asciiUpper s)).
  change (flat_map lowerUnit s) with (toLowerCase s). rewrite IH. f_equal.
  unfold lowerUnit.
  destruct (N.leb_spec 97 c); destruct (N.leb_spec c 122); cbn [andb].
  - destruct (N.leb_spec 65 (c - 32)); [| lia].
    destruct (N.leb_spec (c - 32) 90); [| lia]. cbn [andb].
    destruct (N.leb_spec 65 c); [| lia].
    destruct (N.leb_spec c 90); [lia |]. cbn [andb].
    destruct (N.eqb_spec c 8490); [lia |].
    destruct (N.eqb_spec c 304); [lia |].
    f_equal. lia.
  - reflexivity.
  - reflexivity.
  - reflexivity.
Qed.

Lemma strOr_nil (s : jsstr) : strOr s [] = s.
Proof. now destruct s. Qed.

Lemma isRateLimitedText_marks (s : jsstr) :
  isRateLimitedText s = true
  <-> exists mark pre post,
        In mark rateLimitMarks /\ toLowerCase s = pre ++ mark ++ post.
Proof.
  unfold isRateLimitedText, rateLimitMarks. rewrite strOr_nil. cbv zeta.
  rewrite !orb_true_iff, !includes_spec. split.
  - intros [[[(pre & post & H) | (pre & post & H)] | (pre & post & H)]
           | (pre & post & H)];
      eexists _, pre, post; (split; [| exact H]); cbn; tauto.
  - intros (mark & pre & post & Hin & H). cbn in Hin.
    destruct Hin as [<- | [<- | [<- | [<- | []]]]];
      [left; left; left | left; left; right | left; right | right];
      now exists pre, post.
Qed.

(** X14.  [isRateLimitedText] holds exactly of the texts whose lower
    case contains one of its four marks.  Hence text around a
    rate-limited message keeps it rate-limited, the case of ASCII
    letters does not matter, and any text with the digits 429 in a row
    counts, whatever surrounds them; the empty text does not. *)
Theorem isRateLimitedText_spec (s : jsstr) :
  (isRateLimitedText s = true
   <-> exists mark pre post,
         In mark rateLimitMarks /\ toLowerCase s = pre ++ mark ++ post)
  /\ (forall pre post,
        isRateLimitedText s = true ->
        isRateLimitedText (pre ++ s ++ post) = true)
  /\ isRateLimitedText (asciiUpper s) = isRateLimitedText s
  /\ (forall pre post, isRateLimitedText (pre ++ lit "429" ++ post) = true)
  /\ isRateLimitedText [] = false.
Proof.
  split; [apply isRateLimitedText_marks |]. split; [| split; [| split]].
  - intros pre post H. apply isRateLimitedText_marks in H
      as (mark & a & b & Hin & Hs).
    apply isRateLimitedText_marks.
    exists mark, (toLowerCase pre ++ a), (b ++ toLowerCase post).
    split; [exact Hin |].
    rewrite !toLowerCase_app, Hs, <- !app_assoc. reflexivity.
  - unfold isRateLimitedText. rewrite !strOr_nil.
    now rewrite toLowerCase_asciiUpper.
  - intros pre post. apply isRateLimitedText_marks.
    exists (lit "429"), (toLowerCase pre), (toLowerCase post).
    split; [cbn; tauto |]. now rewrite !toLowerCase_app.
  - reflexivity.
Qed.

(* ================================================================== *)
(** * Further properties of the result parsing                         *)
(* ================================================================== *)

Lemma toNum_number (q : Q) : toNum (Some (JNum q)) = Ok (Some q).
Proof. reflexivity. Qed.





(* ================================================================== *)
(** * Further properties of [runSpeedtest]                             *)
(* ================================================================== *)

Lemma findFallbackRunner_kind (h : Host) (fb : Runner) :
  findFallbackRunner h = Some fb ->
  rn_kind fb = lit "speedtest-cli"
  /\ (rn_bin fb = lit "speedtest-cli" \/ rn_bin fb = lit "speedtest").
Proof.
  unfold findFallbackRunner.
  destruct (which h (lit "speedtest-cli")).
  - intros [= <-]. split; [reflexivity | now left].
  - destruct (which h (lit "speedtest")); [| discriminate].
    destruct (isPythonCli h); [| discriminate].
    intros [= <-]. split; [reflexivity | now right].
Qed.

Section RunSpeedtestFacts.

Variable syntaxErrorText : jsstr -> jsstr.
Variable h : Host.
Variable timeoutMs : Z.

Local Abbreviation run := (runSpeedtest syntaxErrorText h timeoutMs).
Local Abbreviation runCli := (runSpeedtestCli syntaxErrorText h timeoutMs).
Local Abbreviation runLibre := (runLibrespeed syntaxErrorText h timeoutMs).

Lemma runSpeedtest_cli (f : nat) (rn : Runner) :
  rn_kind rn = lit "speedtest-cli" ->
  run (S f) (Some rn) = Some (runCli rn).
Proof. intros H. cbn [runSpeedtest]. now rewrite H. Qed.

Lemma NumberOf_throws (x : option json) (e : Thrown) :
  NumberOf x = Raise e -> e = ThrowTypeError.
Proof.
  destruct x as [v |]; [| discriminate]. cbn.
  destruct (convertThrows v); [now intros [= <-] | discriminate].
Qed.

Lemma bpsToMbps_throws (x : option json) (e : Thrown) :
  bpsToMbps x = Raise e -> e = ThrowTypeError.
Proof.
  unfold bpsToMbps. destruct (NumberOf x) eqn:Hn; [discriminate |].
  cbn. intros [= <-]. now apply NumberOf_throws in Hn.
Qed.

(** What the [speedtest-cli] branch settles with. *)
Lemma runSpeedtestCli_settles (rn : Runner) :
  (exists ping down up,
     runCli rn = Ok (plainResult (lit "speedtest-cli") ping None down up))
  \/ (exists message, runCli rn = Raise (ThrowError message))
  \/ runCli rn = Raise ThrowTypeError.
Proof.
  unfold runSpeedtestCli.
  destruct (c_killed _); [right; left; now eexists |].
  destruct (failed _); [right; left; now eexists |].
  destruct (safeJsonParse _) as [j salvaged | | head tail len];
    try (right; left; now eexists).
  destruct (NumberOf (get j "ping")) as [ping | e] eqn:Hping; cbn [bind].
  - destruct (bpsToMbps (get j "download")) as [down | e] eqn:Hdown;
      cbn [bind].
    + destruct (bpsToMbps (get j "upload")) as [up | e] eqn:Hup; cbn [bind].
      * left. now eexists _, _, _.
      * right; right. now rewrite (bpsToMbps_throws _ _ Hup).
    + right; right. now rewrite (bpsToMbps_throws _ _ Hdown).
  - right; right. now rewrite (NumberOf_throws _ _ Hping).
Qed.







Local Abbreviation runO := (runOokla syntaxErrorText h timeoutMs).

(** Two levels of calls are all that [runSpeedtest] ever makes. *)
Lemma runSpeedtest_ookla (f : nat) (rn : Runner) :
  rn_kind rn = lit "ookla" ->
  run (S (S f)) (Some rn) = Some (runO rn).
Proof.
  intros Hkind. remember (S f) as g eqn:Hg.
  cbn [runSpeedtest]. rewrite Hkind.
  change (jsstr_eqb (lit "ookla") (lit "speedtest-cli")) with false.
  change (jsstr_eqb (lit "ookla") (lit "ookla")) with true. cbv iota.
  unfold runOokla. cbv zeta.
  fold (ooklaRateLimited (h_runOokla h (rn_bin rn))).
  destruct (c_killed _); [reflexivity |].
  destruct (findFallbackRunner h) as [fb |] eqn:Hfb.
  - destruct (findFallbackRunner_kind h fb Hfb) as [Hfbk _].
    subst g. rewrite (runSpeedtest_cli f fb Hfbk).
    destruct (c_spawn_error _); [reflexivity |].
    destruct (failed _).
    + now destruct (runCli fb).
    + now destruct (ooklaParse _).
  - destruct (c_spawn_error _); [reflexivity |].
    destruct (failed _).
    + now destruct (ooklaRateLimited _).
    + now destruct (ooklaParse _).
Qed.

Lemma runOokla_killed (rn : Runner) :
  c_killed (h_runOokla h (rn_bin rn)) = true ->
  runO rn
  = Raise (ThrowError
             (lit "speedtest timeout after " ++ intText timeoutMs ++ lit "ms")).
Proof. intros H. unfold runOokla. now rewrite H. Qed.

End RunSpeedtestFacts.



(* ------------------------------------------------------------------ *)
(** ** A rate-limited Ookla run, from the command to the controller     *)

Lemma enterRateLimit_window (now backoffMs : Z) (msg : jsstr) (st : state) :
  let st' := enterRateLimit now backoffMs msg st in
  rateLimitCount st' = nextRateLimitCount st
  /\ rateLimitUntil st' = now + backoffMs
  /\ now + backoffMs <= nextRunTs st'
  /\ lastError st' = Some msg
  /\ history st' = history st.
Proof.
  cbv zeta. unfold enterRateLimit.
  match goal with
  | |- context [deferToRateLimit ?s] =>
      pose proof (deferToRateLimit_le s) as Hle;
      assert (Hsame : rateLimitUntil (deferToRateLimit s) = rateLimitUntil s
                      /\ rateLimitCount (deferToRateLimit s) = rateLimitCount s
                      /\ history (deferToRateLimit s) = history s)
        by (unfold deferToRateLimit; destruct (_ || _); repeat split);
      destruct Hsame as (Hsu & Hsc & Hsh);
      generalize dependent (deferToRateLimit s)
  end.
  intros d Hle Hsu Hsc Hsh.
  cbn -[nextRateLimitCount] in Hle, Hsu, Hsc, Hsh.
  destruct (progress (set_lastError _ d)) eqn:Hp; cbn -[nextRateLimitCount];
    repeat split; try congruence; lia.
Qed.

Lemma rateLimitBookkeeping_limited (res : RunResult) (tLimit : Z) (st : state) :
  r_ookla_rate_limited res = true ->
  rateLimitBookkeeping res tLimit st
  = enterRateLimit tLimit (rateLimitBackoff 0 st)
      (lit "rate_limited: retry in " ++ fmtMin (rateLimitBackoff 0 st)
         ++ lit " (fallback used)") st.
Proof. intros H. unfold rateLimitBookkeeping. now rewrite H. Qed.

Lemma rateLimitBackoff_table (st : state) :
  0 <= rateLimitCount st ->
  nextRateLimitCount st = rateLimitCount st + 1
  /\ rateLimitBackoff 0 st
     = computeRateLimitBackoffMs (JFin (inject_Z (rateLimitCount st + 1))).
Proof.
  intros H. unfold rateLimitBackoff, nextRateLimitCount. cbn [Z.eqb].
  now replace (Z.max 1 (rateLimitCount st + 1)) with (rateLimitCount st + 1)
    by lia.
Qed.

Lemma doRunRejected_plain (message : jsstr) (now : Z) (st : state) :
  let st' := doRunRejected (OtherError message) now st in
  running st' = false
  /\ rateLimitCount st' = rateLimitCount st
  /\ rateLimitUntil st' = rateLimitUntil st
  /\ nextRunTs st' = nextRunTs st
  /\ history st' = history st
  /\ lastError st' = Some message.
Proof.
  cbv zeta. unfold doRunRejected.
  destruct (progress st) as [p |] eqn:Hp; cbn; rewrite Hp; cbn;
    repeat split.
Qed.

(** X17.  An Ookla run that fails with a rate limit, followed through
    [doRun].  Without a fallback runner the run is rejected with a
    RateLimitError and the controller opens a back-off window of the
    table's length, records nothing and reports the wait.  With a
    fallback runner that succeeds, the window is opened as well and the
    fallback's result is recorded with the note of the rate-limited
    fallback.  With a fallback runner that fails, the fallback's error
    is all the controller sees: no window is opened, and the counter
    and the schedule stay as they were. *)
Theorem ookla_rate_limit_settled (syntaxErrorText : jsstr -> jsstr)
  (typeErrorText : jsstr) (h : Host) (timeoutMs : Z) (rn : Runner)
  (t tLast tPush tDone : Z) (st : state)
  (Hkind : rn_kind rn = lit "ookla")
  (Hkilled : c_killed (h_runOokla h (rn_bin rn)) = false)
  (Hspawn : c_spawn_error (h_runOokla h (rn_bin rn)) = false)
  (Hfailed : failed (h_runOokla h (rn_bin rn)) = true)
  (Hlimited : ooklaRateLimited (h_runOokla h (rn_bin rn)) = true)
  (Hcount : 0 <= rateLimitCount st) :
  exists out,
    runSpeedtest syntaxErrorText h timeoutMs 2 (Some rn) = Some out
    /\ let st' := doRunSettled typeErrorText out t tLast tPush tDone st in
       let backoff :=
         computeRateLimitBackoffMs
           (JFin (inject_Z (rateLimitCount st + 1))) in
       running st' = false
       /\ match findFallbackRunner h with
          | None =>
              rateLimitCount st' = rateLimitCount st + 1
              /\ rateLimitUntil st' = t + backoff
              /\ t + backoff <= nextRunTs st'
              /\ history st' = history st
              /\ lastError st'
                 = Some (lit "rate_limited: retry in " ++ fmtMin backoff)
          | Some fb =>
              match runSpeedtestCli syntaxErrorText h timeoutMs fb with
              | Ok fbRes =>
                  rateLimitCount st' = rateLimitCount st + 1
                  /\ rateLimitUntil st' = t + backoff
                  /\ t + backoff <= nextRunTs st'
                  /\ (exists entry,
                        history st'
                        = history (pruneHistory tPush st) ++ [entry]
                        /\ h_runner entry = lit "speedtest-cli"
                        /\ h_note entry = lit "ookla_rate_limited_fallback")
                  /\ lastError st'
                     = Some (lit "rate_limited: retry in " ++ fmtMin backoff
                               ++ lit " (fallback used)")
              | Raise e =>
                  rateLimitCount st' = rateLimitCount st
                  /\ rateLimitUntil st' = rateLimitUntil st
                  /\ nextRunTs st' = nextRunTs st
                  /\ history st' = history st
                  /\ exists message, lastError st' = Some message
              end
          end.
Proof.
  exists (runOokla syntaxErrorText h timeoutMs rn).
  split; [now apply (runSpeedtest_ookla syntaxErrorText h timeoutMs 0) |].
  cbv zeta. unfold runOokla. cbv zeta. rewrite Hkilled, Hspawn, Hfailed.
  destruct (rateLimitBackoff_table st Hcount) as [Hnext Hback].
  destruct (findFallbackRunner h) as [fb |] eqn:Hfb.
  - destruct (runSpeedtestCli_settles syntaxErrorText h timeoutMs fb)
      as [(ping & down & up & Hcli) | [(message & Hcli) | Hcli]];
      rewrite Hcli; cbn [bind doRunSettled toRunError].
    + rewrite Hlimited.
      set (res := rs_result (fallbackResult _ _ true)).
      assert (Hflag : r_ookla_rate_limited res = true) by reflexivity.
      destruct (doRunResolved_from res t tLast tPush tDone st)
        as (Hh & _ & _ & Hrun & _ & Hn & Hu & Hc & He).
      cbv zeta in Hh.
      rewrite (rateLimitBookkeeping_limited res t st Hflag) in *.
      destruct (enterRateLimit_window t (rateLimitBackoff 0 st)
                  (lit "rate_limited: retry in "
                     ++ fmtMin (rateLimitBackoff 0 st)
                     ++ lit " (fallback used)") st)
        as (Wc & Wu & Wn & We & Wh).
      cbv zeta in Wc, Wu, Wn, We, Wh.
      rewrite Hback in *. rewrite Hnext in Wc.
      split; [exact Hrun |].
      split; [rewrite Hc; exact Wc |]. split; [rewrite Hu; exact Wu |].
      split; [rewrite Hn; exact Wn |].
      split; [| rewrite He; exact We].
      eexists. split.
      { rewrite Hh. f_equal. now apply pruneHistory_history. }
      split; reflexivity.
    + destruct (doRunRejected_plain (strOr message (lit "Error")) t st)
        as (Hrun & Hc & Hu & Hn & Hh & He).
      split; [exact Hrun |]. repeat (split; [assumption |]). eexists. exact He.
    + destruct (doRunRejected_plain (strOr typeErrorText (lit "TypeError")) t st)
        as (Hrun & Hc & Hu & Hn & Hh & He).
      split; [exact Hrun |]. repeat (split; [assumption |]). eexists. exact He.
  - rewrite Hlimited. cbn [doRunSettled toRunError].
    unfold doRunRejected.
    destruct (enterRateLimit_window t (rateLimitBackoff 0 st)
                (lit "rate_limited: retry in "
                   ++ fmtMin (rateLimitBackoff 0 st)) st)
      as (Wc & Wu & Wn & We & Wh).
    cbv zeta in Wc, Wu, Wn, We, Wh.
    rewrite Hback in *. rewrite Hnext in Wc.
    split; [reflexivity |]. now repeat split.
Qed.

Lemma ookla_rate_limit_settled_witness :
  exists out,
    runSpeedtest (fun _ => []) 
      (sampleHost (exited 173 [] (lit "Limit reached")) false (exited 0 [] []))
      120000 2 (Some ooklaRunner) = Some out
    /\ rateLimitUntil
         (doRunSettled [] out 3000 3000 3000 3000 firstRunStarted)
       = 3000 + 1800000.
Proof.
  destruct (ookla_rate_limit_settled (fun _ => []) []
              (sampleHost (exited 173 [] (lit "Limit reached")) false
                 (exited 0 [] []))
              120000 ooklaRunner 3000 3000 3000 3000 firstRunStarted)
    as (out & Hout & Hrun & Hm);
    [reflexivity | reflexivity | reflexivity | reflexivity
     | vm_compute; reflexivity | vm_compute; discriminate |].
  exists out. split; [exact Hout |].
  change (findFallbackRunner
            (sampleHost (exited 173 [] (lit "Limit reached")) false
               (exited 0 [] [])))
    with (@None Runner) in Hm.
  destruct Hm as (_ & Hu & _). exact Hu.
Defined.

(* ------------------------------------------------------------------ *)
(** ** Runner detection                                                 *)

(** X18.  Which runner is detected.  A [SPEEDTEST_BIN] that is not
    blank decides alone: the runner is Ookla with the trimmed value as
    its binary.  A detected runner carries one of the three runner
    names.  The fallback runner is always one for [speedtest-cli], run
    as [speedtest-cli] or as [speedtest].  A detected [speedtest-cli]
    runner is also the fallback runner.  And where the Python client
    is installed under the name [speedtest] only, [detectRunner] finds
    no runner although [findFallbackRunner] finds one. *)
Theorem detectRunner_priority (h : Host) :
  (isEmpty (trim (h_SPEEDTEST_BIN h)) = false ->
   detectRunner h
   = Some {| rn_kind := lit "ookla"; rn_bin := trim (h_SPEEDTEST_BIN h) |})
  /\ (forall r, detectRunner h = Some r -> In (rn_kind r) runnerNames)
  /\ (forall fb,
        findFallbackRunner h = Some fb ->
        rn_kind fb = lit "speedtest-cli"
        /\ (rn_bin fb = lit "speedtest-cli" \/ rn_bin fb = lit "speedtest"))
  /\ (forall r,
        detectRunner h = Some r -> rn_kind r = lit "speedtest-cli" ->
        findFallbackRunner h = Some r)
  /\ (isEmpty (trim (h_SPEEDTEST_BIN h)) = true ->
      h_bundled h = None ->
      which h (lit "speedtest-cli") = None ->
      which h (lit "librespeed-cli") = None ->
      which h (lit "speedtest") <> None ->
      isPythonCli h = true ->
      detectRunner h = None
      /\ findFallbackRunner h
         = Some {| rn_kind := lit "speedtest-cli"; rn_bin := lit "speedtest" |}).
Proof.
  assert (Hor : strOr (h_SPEEDTEST_BIN h) [] = h_SPEEDTEST_BIN h)
    by apply strOr_nil.
  split; [| split; [| split; [| split]]].
  - intros Hforced. unfold detectRunner. cbv zeta. rewrite Hor, Hforced.
    reflexivity.
  - intros r. unfold detectRunner. cbv zeta.
    destruct (isEmpty (trim _)); cbn [negb];
      [| intros [= <-]; cbn; tauto].
    destruct (h_bundled h); [intros [= <-]; cbn; tauto |].
    destruct (which h (lit "speedtest")), (isPythonCli h); cbn [negb];
      destruct (which h (lit "speedtest-cli"));
      try destruct (which h (lit "librespeed-cli"));
      intros [= <-] || discriminate; cbn; tauto.
  - apply findFallbackRunner_kind.
  - intros r. unfold detectRunner, findFallbackRunner. cbv zeta.
    destruct (isEmpty (trim _)); cbn [negb];
      [| intros [= <-]; discriminate].
    destruct (h_bundled h); [intros [= <-]; discriminate |].
    destruct (which h (lit "speedtest")), (isPythonCli h); cbn [negb];
      destruct (which h (lit "speedtest-cli"));
      try destruct (which h (lit "librespeed-cli"));
      (intros [= <-] || discriminate); intros Hkind;
      try reflexivity; discriminate Hkind.
  - intros Hforced Hbundled Hcli Hlibre Hst Hpy.
    unfold detectRunner, findFallbackRunner. cbv zeta.
    rewrite Hor, Hforced, Hbundled, Hcli, Hlibre, Hpy. cbn [negb].
    now destruct (which h (lit "speedtest")).
Qed.
